(** * SudokuSolver.cpp: a shallow embedding of [SudokuPuzzle] and its properties

    The class [SudokuPuzzle] keeps an [int board[9][9]], a table of pointers
    to [std::set<int>] (one per blank cell) and the three [min...] fields that
    track the cell with the fewest candidates.  The member functions are
    embedded as functions on these data; a member function that changes the
    object returns the changed object.

    Cell values are C++ [int]s.  The program never does arithmetic on them
    (it only compares and copies them), and its counters stay between -1 and
    81, so [Z] without wrap-around is exact. *)

From Stdlib Require Import String Ascii ZArith List Lia Bool Arith Sorted ZifyNat.
Import ListNotations.

Set Implicit Arguments.

(** Linear arithmetic with division and remainder by a constant. *)
Ltac dlia := zify; Z.to_euclidean_division_equations; lia.

(** ** Arrays *)

(** [a[i] = x] on an array kept as a list.  An index outside the array is
    undefined behaviour in C++; here it leaves the list as it is, and every
    theorem that depends on a write has the index in range. *)
Fixpoint upd (A : Type) (i : nat) (x : A) (l : list A) : list A :=
  match l, i with
  | [], _ => []
  | _ :: t, O => x :: t
  | h :: t, S k => h :: upd k x t
  end.

(** [t[r][c]] and [t[r][c] = x] on a two-dimensional array. *)
Definition get2 (A : Type) (d : A) (t : list (list A)) (r c : nat) : A :=
  nth c (nth r t []) d.

Definition set2 (A : Type) (t : list (list A)) (r c : nat) (x : A) : list (list A) :=
  upd r (upd c x (nth r t [])) t.

(** [int board[9][9]]: nine rows of nine cells, 0 for blank. *)
Definition Board := list (list Z).

Definition getValue (b : Board) (row col : nat) : Z :=
  get2 0%Z b row col.

Definition setValue (b : Board) (row col : nat) (value : Z) : Board :=
  set2 b row col value.

(** The shape every [T[9][9]] has. *)
Definition wfTable (A : Type) (t : list (list A)) : Prop :=
  length t = 9 /\ Forall (fun r => length r = 9) t.

Definition wfBoard (b : Board) : Prop := wfTable b.

(** ** [std::set<int>] *)

(** An ordered set of ints, kept as the ascending list of its elements (the
    order in which a [std::set] iterator walks it). *)
Definition IntSet := list Z.

(** [values.insert(v)]: the new set and [rc.second], which is false when [v]
    was already there. *)
Fixpoint set_insert (v : Z) (s : IntSet) : IntSet * bool :=
  match s with
  | [] => ([v], true)
  | x :: t =>
      if (v <? x)%Z then (v :: s, true)
      else if (v =? x)%Z then (s, false)
      else let (t', fresh) := set_insert v t in (x :: t', fresh)
  end.

(** ** The constraint checker *)

Inductive RowOrCol := ROW | COL.

(** The loop body shared by [isRowOrColOk] and [isSubmatrixOk]: the values
    read from the unit are taken in the order the loop reads them; a non-zero
    value is inserted into [values], and a failed insertion returns false. *)
Fixpoint noRepeat (unit : list Z) (values : IntSet) : bool :=
  match unit with
  | [] => true
  | value :: rest =>
      if (value =? 0)%Z then noRepeat rest values
      else
        let (values', fresh) := set_insert value values in
        if fresh then noRepeat rest values' else false
  end.

(** [board[row][col]] for a row check, [board[col][row]] for a column. *)
Definition readRowOrCol (b : Board) (row : nat) (which : RowOrCol) (col : nat) : Z :=
  match which with
  | ROW => getValue b row col
  | COL => getValue b col row
  end.

Definition isRowOrColOk (b : Board) (row : nat) (which : RowOrCol) : bool :=
  noRepeat (map (readRowOrCol b row which) (seq 0 9)) [].

Definition readSubmatrix (b : Board) (startRowIdx startColIdx : nat) : list Z :=
  flat_map (fun row => map (fun col => getValue b row col) (seq startColIdx 3))
           (seq startRowIdx 3).

Definition isSubmatrixOk (b : Board) (startRowIdx startColIdx : nat) : bool :=
  noRepeat (readSubmatrix b startRowIdx startColIdx) [].

(** [startRow] and [startCol] take the values 0, 3 and 6; the first
    submatrix that is not ok ends the loops with false. *)
Definition areSubmatricesOk (b : Board) : bool :=
  forallb (fun startRow =>
             forallb (fun startCol => isSubmatrixOk b startRow startCol) [0; 3; 6])
          [0; 3; 6].

Definition isSolutionValid (b : Board) : bool :=
  if negb (forallb (fun row => isRowOrColOk b row ROW) (seq 0 9)) then false
  else if negb (forallb (fun col => isRowOrColOk b col COL) (seq 0 9)) then false
  else areSubmatricesOk b.

(** [wouldWork] writes [value] into the cell, runs the three unit checks and
    writes 0 back on every path.  The board it leaves is returned with the
    answer. *)
Definition wouldWork (b : Board) (value : Z) (atRow atCol : nat) : bool * Board :=
  let b1 := setValue b atRow atCol value in
  if negb (isRowOrColOk b1 atRow ROW) then (false, setValue b1 atRow atCol 0)
  else if negb (isRowOrColOk b1 atCol COL) then (false, setValue b1 atRow atCol 0)
  else if isSubmatrixOk b1 (3 * (atRow / 3)) (3 * (atCol / 3))
       then (true, setValue b1 atRow atCol 0)
       else (false, setValue b1 atRow atCol 0).

(** ** Units without duplicates *)

Definition nonZero (x : Z) : bool := negb (x =? 0)%Z.

(** Row [r], column [c] and the box of index [R], [C] (rows [3R..3R+2],
    columns [3C..3C+2]) hold no non-zero digit twice. *)
Definition rowDistinct (b : Board) (r : nat) : Prop :=
  forall c1 c2, c1 < 9 -> c2 < 9 -> c1 <> c2 ->
    getValue b r c1 <> 0%Z -> getValue b r c1 <> getValue b r c2.

Definition colDistinct (b : Board) (c : nat) : Prop :=
  forall r1 r2, r1 < 9 -> r2 < 9 -> r1 <> r2 ->
    getValue b r1 c <> 0%Z -> getValue b r1 c <> getValue b r2 c.

Definition boxDistinct (b : Board) (R C : nat) : Prop :=
  forall r1 c1 r2 c2, r1 / 3 = R -> r2 / 3 = R -> c1 / 3 = C -> c2 / 3 = C ->
    (r1 <> r2 \/ c1 <> c2) ->
    getValue b r1 c1 <> 0%Z -> getValue b r1 c1 <> getValue b r2 c2.

Definition rowsDistinct (b : Board) : Prop := forall r, r < 9 -> rowDistinct b r.
Definition colsDistinct (b : Board) : Prop := forall c, c < 9 -> colDistinct b c.
Definition boxesDistinct (b : Board) : Prop :=
  forall R C, R < 3 -> C < 3 -> boxDistinct b R C.

(** No non-zero digit stands twice in any row, column or box. *)
Definition noDuplicates (b : Board) : Prop :=
  rowsDistinct b /\ colsDistinct b /\ boxesDistinct b.

(** [(r', c')] is another cell of the row, the column or the box of
    [(r, c)]. *)
Definition isPeer (r c r' c' : nat) : Prop :=
  r' < 9 /\ c' < 9 /\ (r' <> r \/ c' <> c) /\
  (r' = r \/ c' = c \/ (r' / 3 = r / 3 /\ c' / 3 = c / 3)).

Definition isPeerb (r c r' c' : nat) : bool :=
  (r' <? 9) && (c' <? 9) && negb ((r' =? r) && (c' =? c)) &&
  ((r' =? r) || (c' =? c) || ((r' / 3 =? r / 3) && (c' / 3 =? c / 3))).

(** Placing [v] at [(r, c)] creates no duplicate: no other cell of the row,
    the column or the box of [(r, c)] holds [v]. *)
Definition createsNoDuplicate (b : Board) (v : Z) (r c : nat) : Prop :=
  forall r' c', isPeer r c r' c' -> getValue b r' c' <> v.

Definition createsNoDuplicateb (b : Board) (v : Z) (r c : nat) : bool :=
  forallb (fun r' =>
    forallb (fun c' => negb (isPeerb r c r' c') || negb (getValue b r' c' =? v)%Z)
            (seq 0 9))
    (seq 0 9).

(** ** The puzzle object *)

Record SudokuPuzzle := mkPuzzle {
  board : Board;
  (* a null pointer is [None], a pointer to a set is [Some] of the set *)
  possibilities : list (list (option IntSet));
  minPossibilities : Z;
  minRow : nat;
  minCol : nat
}.

Definition getPoss (p : list (list (option IntSet))) (row col : nat) : option IntSet :=
  get2 None p row col.

Definition setPoss (p : list (list (option IntSet))) (row col : nat)
    (s : option IntSet) : list (list (option IntSet)) :=
  set2 p row col s.

(** The cells in the order of the nested loops
    [for row in 0..8 { for col in 0..8 { ... } }]. *)
Definition allCells : list (nat * nat) :=
  flat_map (fun row => map (fun col => (row, col)) (seq 0 9)) (seq 0 9).

(** A 9x9 table filled cell by cell by such a pair of loops. *)
Definition tabulate (A : Type) (f : nat -> nat -> A) : list (list A) :=
  map (fun row => map (fun col => f row col) (seq 0 9)) (seq 0 9).

(** [SudokuPuzzle(const int potentialSolution[9][9])] *)
Definition newPuzzle (potentialSolution : Board) : SudokuPuzzle :=
  {| board := tabulate (fun row col => getValue potentialSolution row col);
     possibilities := tabulate (fun _ _ => None);
     minPossibilities := 10;
     minRow := 10;
     minCol := 10 |}.

Definition withBoard (pz : SudokuPuzzle) (b : Board) : SudokuPuzzle :=
  {| board := b;
     possibilities := possibilities pz;
     minPossibilities := minPossibilities pz;
     minRow := minRow pz;
     minCol := minCol pz |}.

Definition withPossibilities (pz : SudokuPuzzle)
    (p : list (list (option IntSet))) : SudokuPuzzle :=
  {| board := board pz;
     possibilities := p;
     minPossibilities := minPossibilities pz;
     minRow := minRow pz;
     minCol := minCol pz |}.

Definition withMin (pz : SudokuPuzzle) (n : Z) (row col : nat) : SudokuPuzzle :=
  {| board := board pz;
     possibilities := possibilities pz;
     minPossibilities := n;
     minRow := row;
     minCol := col |}.

(** ** The candidate tracker *)

Definition oneToNine : IntSet := [1; 2; 3; 4; 5; 6; 7; 8; 9]%Z.

Definition setAllPossibilities (pz : SudokuPuzzle) : SudokuPuzzle :=
  withPossibilities pz
    (tabulate (fun row col =>
                 if (getValue (board pz) row col =? 0)%Z then Some oneToNine else None)).

(** The loop of [trimPossibilities] that walks one set and erases the values
    for which [wouldWork] answers false.  The board goes through every call
    of [wouldWork]. *)
Fixpoint eraseUnworkable (b : Board) (row col : nat) (s : IntSet) : IntSet * Board :=
  match s with
  | [] => ([], b)
  | v :: rest =>
      let (ok, b1) := wouldWork b v row col in
      let (rest', b2) := eraseUnworkable b1 row col rest in
      (if ok then v :: rest' else rest', b2)
  end.

(** How one turn of the inner loop of [trimPossibilities] ends: with
    [return -1], or by going on to the next cell. *)
Inductive CellStep :=
| Contradiction (pz : SudokuPuzzle)
| Next (pz : SudokuPuzzle) (numBlank : Z).

(** The body of the two loops of [trimPossibilities] at one cell. *)
Definition trimCell (pz : SudokuPuzzle) (numBlank : Z) (row col : nat) : CellStep :=
  match getPoss (possibilities pz) row col with
  | None => Next pz numBlank
  | Some s =>
      let (s', b') := eraseUnworkable (board pz) row col s in
      let pz1 := withPossibilities (withBoard pz b')
                   (setPoss (possibilities pz) row col (Some s')) in
      if Nat.eqb (length s') 0 then Contradiction pz1
      else if Nat.eqb (length s') 1 then
        Next (withPossibilities (withBoard pz1 (setValue b' row col (hd 0%Z s')))
                (setPoss (possibilities pz1) row col None))
             numBlank
      else
        Next (if (Z.of_nat (length s') <? minPossibilities pz1)%Z
              then withMin pz1 (Z.of_nat (length s')) row col
              else pz1)
             (numBlank + 1)%Z
  end.

(** The two loops over the cells still to visit. *)
Fixpoint trimCells (cells : list (nat * nat)) (pz : SudokuPuzzle) (numBlank : Z)
    : CellStep :=
  match cells with
  | [] => Next pz numBlank
  | (row, col) :: rest =>
      match trimCell pz numBlank row col with
      | Contradiction pz' => Contradiction pz'
      | Next pz' numBlank' => trimCells rest pz' numBlank'
      end
  end.

(** The returned int and the object as the call leaves it. *)
Definition trimPossibilities (pz : SudokuPuzzle) : Z * SudokuPuzzle :=
  match trimCells allCells (withMin pz 10 10 10) 0 with
  | Contradiction pz' => (-1, pz')%Z
  | Next pz' numBlank => (numBlank, pz')
  end.

(** ** The solver *)

(** What a call of [solve] comes to: it returns; it dereferences
    [possibilities[minRow][minCol]] where that is a null pointer or lies
    outside the table; or the embedding ran out of the steps it was given. *)
Inductive Outcome :=
| Returns (solved : bool) (pz : SudokuPuzzle)
| BadPointer
| Unfinished.

(** The object as a call that returned left it. *)
Definition returned (o : Outcome) : SudokuPuzzle :=
  match o with
  | Returns _ pz => pz
  | _ => newPuzzle []
  end.

(** [if (board[row][col] == 0) board[row][col] = subPuzzle->getValue(row, col);] *)
Definition copyStep (subBoard : Board) (b : Board) (cell : nat * nat) : Board :=
  let '(row, col) := cell in
  if (getValue b row col =? 0)%Z
  then setValue b row col (getValue subBoard row col)
  else b.

(** The two loops that copy the values of the solved sub-puzzle into the
    blanks of this one. *)
Definition copyBack (b subBoard : Board) : Board :=
  fold_left (copyStep subBoard) allCells b.

(** [new SudokuPuzzle(board)] followed by [setValue(minRow, minCol, v)]. *)
Definition subPuzzleFor (pz : SudokuPuzzle) (v : Z) : SudokuPuzzle :=
  let subPuzzle := newPuzzle (board pz) in
  withBoard subPuzzle (setValue (board subPuzzle) (minRow pz) (minCol pz) v).

(** The loop over the set at [minRow], [minCol]; [cands] are the values the
    iterator has still to visit, and [subsolve] is [subPuzzle->solve()]. *)
Fixpoint tryCandidates (subsolve : SudokuPuzzle -> Outcome) (pz : SudokuPuzzle)
    (cands : list Z) : Outcome :=
  match cands with
  | [] => Returns false pz
  | v :: rest =>
      match subsolve (subPuzzleFor pz v) with
      | Returns true solvedSub =>
          Returns true (withBoard pz (copyBack (board pz) (board solvedSub)))
      | Returns false _ => tryCandidates subsolve pz rest
      | BadPointer => BadPointer
      | Unfinished => Unfinished
      end
  end.

(** The [while (true)] loop of [solve]; [iters] bounds the passes the
    embedding may take. *)
Fixpoint whileLoop (iters : nat) (subsolve : SudokuPuzzle -> Outcome)
    (pz : SudokuPuzzle) (prevNumBlank : Z) : Outcome :=
  match iters with
  | O => Unfinished
  | S k =>
      let (numBlank, pz1) := trimPossibilities pz in
      if (numBlank =? -1)%Z then Returns false pz1
      else if (numBlank =? 0)%Z then Returns true pz1
      else if (numBlank =? prevNumBlank)%Z then
        match getPoss (possibilities pz1) (minRow pz1) (minCol pz1) with
        | None => BadPointer
        | Some s => tryCandidates subsolve pz1 s
        end
      else whileLoop k subsolve pz1 numBlank
  end.

(** [solve]: [depth] bounds the nesting of the recursive calls, [iters] the
    passes of each call's loop. *)
Fixpoint solve (depth iters : nat) (pz : SudokuPuzzle) : Outcome :=
  match depth with
  | O => Unfinished
  | S d => whileLoop iters (solve d iters) (setAllPossibilities pz) 50
  end.

(** The passes of [solve]'s loop alone: the object as it is when the loop
    returns or reaches the branch [numBlank == prevNumBlank]. *)
Fixpoint propagate (iters : nat) (pz : SudokuPuzzle) (prevNumBlank : Z)
    : option SudokuPuzzle :=
  match iters with
  | O => None
  | S k =>
      let (numBlank, pz1) := trimPossibilities pz in
      if (numBlank =? -1)%Z then Some pz1
      else if (numBlank =? 0)%Z then Some pz1
      else if (numBlank =? prevNumBlank)%Z then Some pz1
      else propagate k pz1 numBlank
  end.

(** ** Invariants of the object *)

(** The number of blank cells of a board, and of cells with a candidate
    set. *)
Definition countBlank (b : Board) : nat :=
  length (filter (fun cell => (getValue b (fst cell) (snd cell) =? 0)%Z) allCells).

Definition hasSet (p : list (list (option IntSet))) (cell : nat * nat) : bool :=
  match getPoss p (fst cell) (snd cell) with Some _ => true | None => false end.

Definition countSets (p : list (list (option IntSet))) : nat :=
  length (filter (hasSet p) allCells).

(** A candidate set: digits 1..9 in ascending order. *)
Definition candidateSet (s : IntSet) : Prop :=
  StronglySorted Z.lt s /\ (forall v, In v s -> (1 <= v <= 9)%Z).

(** What holds of the object between the calls inside [solve]: the two
    tables are 9x9, a candidate set belongs to a blank cell, and it holds
    digits. *)
Record puzzleInv (pz : SudokuPuzzle) : Prop := {
  inv_board : wfBoard (board pz);
  inv_poss : wfTable (possibilities pz);
  inv_blank : forall r c s, r < 9 -> c < 9 ->
      getPoss (possibilities pz) r c = Some s -> getValue (board pz) r c = 0%Z;
  inv_digits : forall r c s, r < 9 -> c < 9 ->
      getPoss (possibilities pz) r c = Some s -> candidateSet s
}.

(** Every blank cell has a candidate set. *)
Definition allTracked (pz : SudokuPuzzle) : Prop :=
  forall r c, r < 9 -> c < 9 -> getValue (board pz) r c = 0%Z ->
    getPoss (possibilities pz) r c <> None.

(** The candidates of [s] for which [wouldWork] answers true at [(r, c)] on
    the board [b]. *)
Definition workable (b : Board) (r c : nat) (s : IntSet) : IntSet :=
  filter (fun v => fst (wouldWork b v r c)) s.

(** The place of a cell in the order of the loops, and the cell at a
    place. *)
Definition key (r c : nat) : nat := 9 * r + c.
Definition cellOfKey (k : nat) : nat * nat := (k / 9, k mod 9).

(** [bv] is the board as a pass from [b] to [b'] finds it on reaching the
    cell at place [k]: the cells before that place hold what they hold
    after the pass, the others what they held before it. *)
Definition visitBoard (b b' bv : Board) (k : nat) : Prop :=
  wfBoard bv /\
  forall i j, i < 9 -> j < 9 ->
    getValue bv i j = if key i j <? k then getValue b' i j else getValue b i j.

(** The three [min...] fields after the loops have passed the places before
    [k0]: no set at these places is smaller than [minPossibilities], a set
    of that size does not come before [minRow], [minCol], and unless the
    fields are as they were set at the start, the set at [minRow], [minCol]
    has that size. *)
Definition minTracked (pz : SudokuPuzzle) (k0 : nat) : Prop :=
  (forall k s, k < k0 ->
     getPoss (possibilities pz) (k / 9) (k mod 9) = Some s ->
     (minPossibilities pz <= Z.of_nat (length s))%Z /\
     (Z.of_nat (length s) = minPossibilities pz ->
      key (minRow pz) (minCol pz) <= k)) /\
  (minPossibilities pz = 10%Z \/
   (minRow pz < 9 /\ minCol pz < 9 /\ key (minRow pz) (minCol pz) < k0 /\
    exists s, getPoss (possibilities pz) (minRow pz) (minCol pz) = Some s /\
              Z.of_nat (length s) = minPossibilities pz)).

(** The object in the state in which a step leaves it. *)
Definition stepPuzzle (st : CellStep) : SudokuPuzzle :=
  match st with
  | Contradiction pz => pz
  | Next pz _ => pz
  end.

(** What a pass that is not cut short does to the cell [(r, c)], [bv] being
    the board when the loops reach the cell: a cell without a candidate set
    is left alone; of a candidate set [s] the workable values are kept; when
    exactly one is left, it becomes the [value] of the cell and the set is
    deleted; when two or more are left, the cell stays blank with them. *)
Definition cellOutcome (bv : Board) (r c : nat) (before after : option IntSet)
    (value : Z) : Prop :=
  match before with
  | None => after = None /\ value = getValue bv r c
  | Some s =>
      match workable bv r c s with
      | [] => False
      | [v] => after = None /\ value = v
      | kept => after = Some kept /\ value = 0%Z
      end
  end.


(** ** Completions *)

(** Every cell holds 0 or a digit. *)
Definition digitsOnly (b : Board) : Prop :=
  forall r c, r < 9 -> c < 9 -> (0 <= getValue b r c <= 9)%Z.

(** [full] is a valid completion of [b]: a 9x9 board of digits 1..9 without
    a duplicate in any row, column or box, that agrees with [b] wherever [b]
    holds a digit. *)
Definition validCompletion (b full : Board) : Prop :=
  wfBoard full /\ noDuplicates full /\
  (forall r c, r < 9 -> c < 9 -> (1 <= getValue full r c <= 9)%Z) /\
  (forall r c, r < 9 -> c < 9 -> getValue b r c <> 0%Z ->
     getValue full r c = getValue b r c).

(** ** Construction from a file *)

Open Scope string_scope.

(** The line feed. *)
Definition LF : ascii := "010"%char.

(** The tokens that a loop [while (getline(stream, token, delim))] sees when
    [s] is what is left in the stream: a token ends before each [delim];
    what follows the last [delim] is a token unless it is empty, since
    [getline] fails when it meets the end of the stream before any
    character. *)
Fixpoint getlines (delim : ascii) (s : string) : list string :=
  match s with
  | EmptyString => []
  | String ch rest =>
      if Ascii.eqb ch delim then EmptyString :: getlines delim rest
      else
        match getlines delim rest with
        | [] => [String ch EmptyString]
        | token :: tokens => String ch token :: tokens
        end
  end.

(** [isspace] in the C locale. *)
Definition isspace (ch : ascii) : bool :=
  let n := nat_of_ascii ch in (n =? 32)%nat || ((9 <=? n)%nat && (n <=? 13)%nat).

Definition digitOf (ch : ascii) : option Z :=
  let n := nat_of_ascii ch in
  if (48 <=? n)%nat && (n <=? 57)%nat then Some (Z.of_nat (n - 48)) else None.

Fixpoint skipSpaces (s : string) : string :=
  match s with
  | String ch rest => if isspace ch then skipSpaces rest else s
  | EmptyString => s
  end.

(** The value of the longest prefix of digits; [acc] is [None] as long as
    no digit was read. *)
Fixpoint readDigits (s : string) (acc : option Z) : option Z :=
  match s with
  | String ch rest =>
      match digitOf ch with
      | Some d =>
          readDigits rest (Some (10 * match acc with Some a => a | None => 0 end + d)%Z)
      | None => acc
      end
  | EmptyString => acc
  end.

(** [std::stoi(value)]: white space, an optional sign and digits; what
    follows the digits is ignored.  [None] stands for the two exceptions,
    [std::invalid_argument] when there is no digit and [std::out_of_range]
    when the number is no [int]. *)
Definition stoi (value : string) : option Z :=
  let s := skipSpaces value in
  let (negative, digits) :=
    match s with
    | String "-" rest => (true, rest)
    | String "+" rest => (false, rest)
    | _ => (false, s)
    end in
  match readDigits digits None with
  | None => None
  | Some n =>
      let v := if negative then (- n)%Z else n in
      if ((- 2147483648 <=? v) && (v <=? 2147483647))%Z then Some v else None
  end.

(** What the body of the inner loop stores for a token. *)
Definition tokenValue (value : string) : option Z :=
  if String.eqb value " " || String.eqb value "" || String.eqb value "0"
  then Some 0%Z
  else stoi value.

(** How the loops over the file end: at the end of the file, by an
    exception, or after a write outside [board], which is undefined
    behaviour. *)
Inductive Fill :=
| Filled (b : Board)
| Threw (b : Board)
| Overran.

(** The inner loop: the tokens of one line, from column [col] on. *)
Fixpoint fillRow (b : Board) (row col : nat) (tokens : list string) : Fill :=
  match tokens with
  | [] => Filled b
  | value :: rest =>
      match tokenValue value with
      | None => Threw b
      | Some z =>
          if ((row <? 9) && (col <? 9))%nat
          then fillRow (setValue b row col z) row (S col) rest
          else Overran
      end
  end.

(** The outer loop: the lines of the file, from row [row] on. *)
Fixpoint fillRows (b : Board) (row : nat) (lines : list string) : Fill :=
  match lines with
  | [] => Filled b
  | line :: rest =>
      match fillRow b row 0 (getlines "," line) with
      | Filled b' => fillRows b' (S row) rest
      | other => other
      end
  end.

(** What the caller of the constructor gets: an object, with what was
    written to [cerr], unless a write left the array.  The constructor has
    no other way out: it catches every [std::exception]. *)
Inductive Constructed :=
| Built (pz : SudokuPuzzle) (cerr : list string)
| UndefinedBehaviour.

(** [SudokuPuzzle(const string &fn)].  [content] is what the file holds,
    [None] when it cannot be opened; [garbage] is what the storage of
    [board] holds before the constructor writes to it.  The final [print()]
    only writes to [cout]. *)
Definition fromFile (content : option string) (garbage : Board) : Constructed :=
  let object b :=
    {| board := b;
       possibilities := tabulate (fun _ _ => None);
       minPossibilities := 10;
       minRow := 10;
       minCol := 10 |} in
  match content with
  | None => Built (object garbage) ["Failed to open file: "]
  | Some text =>
      match fillRows garbage 0 (getlines LF text) with
      | Filled b => Built (object b) []
      | Threw b => Built (object b) ["Exception in constructor reading file."]
      | Overran => UndefinedBehaviour
      end
  end.

(** The lines of a file, each ended by a line feed. *)
Definition unlines (lines : list string) : string :=
  fold_right (fun line text => line ++ String LF text) "" lines.

(** The token at line [r], place [c] of a text. *)
Definition tokenAt (text : string) (r c : nat) : string :=
  nth c (getlines "," (nth r (getlines LF text) "")) "".

(** A file of nine lines of nine tokens; the first token is 12. *)
Definition twelveInCell : string :=
  unlines ["12,0,0,0,0,0,0,0,0"; "0,0,0,0,0,0,0,0,0"; "0,0,0,0,0,0,0,0,0";
           "0,0,0,0,0,0,0,0,0"; "0,0,0,0,0,0,0,0,0"; "0,0,0,0,0,0,0,0,0";
           "0,0,0,0,0,0,0,0,0"; "0,0,0,0,0,0,0,0,0"; "0,0,0,0,0,0,0,0,0"].

(** A file of three short lines; the second token of the second line is no
    number. *)
Definition shortWithLetter : string := unlines ["1,2,3"; "4,x,6"; "7"].

(** Storage that holds 7 in every cell. *)
Definition sevens : Board := repeat (repeat 7%Z 9) 9.

Close Scope string_scope.

(** ** The program with its output *)

(** What is sent to [cout] by one [<<]: a string literal, an int, or
    [endl]. *)
Inductive Out :=
| Text (s : string)
| Num (z : Z)
| Endl.

(** The functions above leave out every [cout << ...].  In this module the
    same functions return what they write to [cout] as well.  The field
    [verbose] of the object is the parameter [verbose]: [solve] stores its
    argument in the field before anything reads it, and a sub-puzzle is
    solved by [subPuzzle->solve()], with the default argument [false]. *)
Module Traced.

Definition say (verbose : bool) (out : list Out) : list Out :=
  if verbose then out else [].

Definition dashes : list Out :=
  [Text "-------------------------------------"; Endl].

Definition printCell (b : Board) (row col : nat) : list Out :=
  if (getValue b row col =? 0)%Z then [Text "   |"]
  else [Text " "; Num (getValue b row col); Text " |"].

Definition print (b : Board) : list Out :=
  dashes ++
  flat_map (fun row =>
              [Text "|"] ++ flat_map (printCell b row) (seq 0 9) ++ [Endl] ++ dashes)
           (seq 0 9).

(** The loop shared by the unit checks, with the value whose insertion
    failed. *)
Fixpoint firstRepeat (unit : list Z) (values : IntSet) : option Z :=
  match unit with
  | [] => None
  | value :: rest =>
      if (value =? 0)%Z then firstRepeat rest values
      else
        let (values', fresh) := set_insert value values in
        if fresh then firstRepeat rest values' else Some value
  end.

Definition rowOrColName (which : RowOrCol) : string :=
  match which with ROW => "row " | COL => "col " end.

Definition isRowOrColOk (verbose : bool) (b : Board) (row : nat) (which : RowOrCol)
    : bool * list Out :=
  match firstRepeat (map (readRowOrCol b row which) (seq 0 9)) [] with
  | Some value =>
      (false, say verbose [Text (rowOrColName which); Num (Z.of_nat row);
                           Text " has a repeat value: "; Num value; Endl])
  | None =>
      (true, say verbose [Text (rowOrColName which); Num (Z.of_nat row);
                          Text " is OK."; Endl])
  end.

Definition isSubmatrixOk (verbose : bool) (b : Board) (startRowIdx startColIdx : nat)
    : bool * list Out :=
  match firstRepeat (readSubmatrix b startRowIdx startColIdx) [] with
  | Some value =>
      (false, say verbose [Text "Submatrix with starting row "; Num (Z.of_nat startRowIdx);
                           Text " and starting column "; Num (Z.of_nat startColIdx);
                           Text " has a repeat value: "; Num value; Endl])
  | None =>
      (true, say verbose [Text "Submatrix with starting row "; Num (Z.of_nat startRowIdx);
                          Text " and starting column "; Num (Z.of_nat startColIdx);
                          Text " is OK."; Endl])
  end.

Definition wouldWork (verbose : bool) (b : Board) (value : Z) (atRow atCol : nat)
    : bool * Board * list Out :=
  let b1 := setValue b atRow atCol value in
  let (rowOk, out1) := isRowOrColOk verbose b1 atRow ROW in
  if negb rowOk then (false, setValue b1 atRow atCol 0, out1)
  else
    let (colOk, out2) := isRowOrColOk verbose b1 atCol COL in
    if negb colOk then (false, setValue b1 atRow atCol 0, out1 ++ out2)
    else
      let (boxOk, out3) :=
        isSubmatrixOk verbose b1 (3 * (atRow / 3)) (3 * (atCol / 3)) in
      if boxOk then (true, setValue b1 atRow atCol 0, out1 ++ out2 ++ out3)
      else (false, setValue b1 atRow atCol 0, out1 ++ out2 ++ out3).

Fixpoint eraseUnworkable (verbose : bool) (b : Board) (row col : nat) (s : IntSet)
    : IntSet * Board * list Out :=
  match s with
  | [] => ([], b, [])
  | v :: rest =>
      let '(ok, b1, out1) := wouldWork verbose b v row col in
      let '(rest', b2, out2) := eraseUnworkable verbose b1 row col rest in
      (if ok then v :: rest' else rest', b2, out1 ++ out2)
  end.

Definition trimCell (verbose : bool) (pz : SudokuPuzzle) (numBlank : Z) (row col : nat)
    : CellStep * list Out :=
  match getPoss (possibilities pz) row col with
  | None => (Next pz numBlank, [])
  | Some s =>
      let '(s', b', out1) := eraseUnworkable verbose (board pz) row col s in
      let pz1 := withPossibilities (withBoard pz b')
                   (setPoss (possibilities pz) row col (Some s')) in
      let out2 :=
        say verbose ([Text "Number of possibilities for row "; Num (Z.of_nat row);
                      Text ", col "; Num (Z.of_nat col); Text ": ";
                      Num (Z.of_nat (length s')); Text " ("]
                     ++ flat_map (fun v => [Num v; Text " "]) s'
                     ++ [Text ")"; Endl]) in
      if Nat.eqb (length s') 0 then (Contradiction pz1, out1 ++ out2)
      else if Nat.eqb (length s') 1 then
        (Next (withPossibilities (withBoard pz1 (setValue b' row col (hd 0%Z s')))
                 (setPoss (possibilities pz1) row col None))
              numBlank,
         out1 ++ out2 ++
         say verbose [Text "***** Gonna set it to "; Num (hd 0%Z s'); Endl])
      else
        (Next (if (Z.of_nat (length s') <? minPossibilities pz1)%Z
               then withMin pz1 (Z.of_nat (length s')) row col
               else pz1)
              (numBlank + 1)%Z,
         out1 ++ out2)
  end.

Fixpoint trimCells (verbose : bool) (cells : list (nat * nat)) (pz : SudokuPuzzle)
    (numBlank : Z) : CellStep * list Out :=
  match cells with
  | [] => (Next pz numBlank, [])
  | (row, col) :: rest =>
      match trimCell verbose pz numBlank row col with
      | (Contradiction pz', out1) => (Contradiction pz', out1)
      | (Next pz' numBlank', out1) =>
          let (st, out2) := trimCells verbose rest pz' numBlank' in
          (st, out1 ++ out2)
      end
  end.

Definition trimPossibilities (verbose : bool) (pz : SudokuPuzzle)
    : Z * SudokuPuzzle * list Out :=
  let out0 := say verbose (print (board pz)) in
  match trimCells verbose allCells (withMin pz 10 10 10) 0 with
  | (Contradiction pz', out1) => ((-1)%Z, pz', out0 ++ out1)
  | (Next pz' numBlank, out1) =>
      (numBlank, pz',
       out0 ++ out1 ++
       say verbose [Text "trimPossibilites returning "; Num numBlank; Endl])
  end.

Fixpoint tryCandidates (verbose : bool) (subsolve : SudokuPuzzle -> Outcome * list Out)
    (pz : SudokuPuzzle) (cands : list Z) : Outcome * list Out :=
  match cands with
  | [] => (Returns false pz, [])
  | v :: rest =>
      let out1 := say verbose [Text "Creating sub-puzzle for value: "; Num v; Endl] in
      let (o, out2) := subsolve (subPuzzleFor pz v) in
      match o with
      | Returns true solvedSub =>
          (Returns true (withBoard pz (copyBack (board pz) (board solvedSub))),
           out1 ++ out2)
      | Returns false _ =>
          let (o', out3) := tryCandidates verbose subsolve pz rest in
          (o', out1 ++ out2 ++ out3)
      | BadPointer => (BadPointer, out1 ++ out2)
      | Unfinished => (Unfinished, out1 ++ out2)
      end
  end.

Fixpoint whileLoop (verbose : bool) (iters : nat)
    (subsolve : SudokuPuzzle -> Outcome * list Out)
    (pz : SudokuPuzzle) (prevNumBlank : Z) : Outcome * list Out :=
  match iters with
  | O => (Unfinished, [])
  | S k =>
      let '(numBlank, pz1, out1) := trimPossibilities verbose pz in
      if (numBlank =? -1)%Z then (Returns false pz1, out1)
      else if (numBlank =? 0)%Z then
        (Returns true pz1, out1 ++ [Text "Solution:"; Endl] ++ print (board pz1))
      else if (numBlank =? prevNumBlank)%Z then
        let out2 :=
          say verbose [Text "MinPossibilites: "; Num (minPossibilities pz1);
                       Text ", minRow: "; Num (Z.of_nat (minRow pz1));
                       Text ", minCol: "; Num (Z.of_nat (minCol pz1)); Endl] in
        match getPoss (possibilities pz1) (minRow pz1) (minCol pz1) with
        | None => (BadPointer, out1 ++ out2)
        | Some s =>
            let (o, out3) := tryCandidates verbose subsolve pz1 s in
            (o, out1 ++ out2 ++ out3)
        end
      else
        let (o, out2) := whileLoop verbose k subsolve pz1 numBlank in
        (o, out1 ++ out2)
  end.

(** [solve(verbose)] *)
Fixpoint solve (verbose : bool) (depth iters : nat) (pz : SudokuPuzzle)
    : Outcome * list Out :=
  match depth with
  | O => (Unfinished, [])
  | S d =>
      whileLoop verbose iters (solve false d iters) (setAllPossibilities pz) 50
  end.

End Traced.

(** ** The validators with their output *)

(** A loop over units that returns false at the first unit whose check
    fails: the checks made have written their lines, the others are not
    made. *)
Fixpoint checkUnits (A : Type) (check : A -> bool * list Out) (units : list A)
    : bool * list Out :=
  match units with
  | [] => (true, [])
  | u :: rest =>
      let (ok, out1) := check u in
      if ok then
        let (ok', out2) := checkUnits check rest in (ok', out1 ++ out2)
      else (false, out1)
  end.

(** The pairs [startRow], [startCol] in the order of the two loops of
    [areSubmatricesOk]. *)
Definition submatrixStarts : list (nat * nat) := list_prod [0; 3; 6] [0; 3; 6].

(** [isSolutionValid(verbose)] and [areSubmatricesOk] of the class, with
    what they write; as in [Traced], the field [verbose] is the
    parameter. *)
Module Validator.

Definition areSubmatricesOk (verbose : bool) (b : Board) : bool * list Out :=
  checkUnits (fun start => Traced.isSubmatrixOk verbose b (fst start) (snd start))
             submatrixStarts.

Definition isSolutionValid (verbose : bool) (b : Board) : bool * list Out :=
  let (rowsOk, out1) :=
    checkUnits (fun row => Traced.isRowOrColOk verbose b row ROW) (seq 0 9) in
  if negb rowsOk then (false, out1)
  else
    let (colsOk, out2) :=
      checkUnits (fun col => Traced.isRowOrColOk verbose b col COL) (seq 0 9) in
    if negb colsOk then (false, out1 ++ out2)
    else
      let (boxesOk, out3) := areSubmatricesOk verbose b in
      (boxesOk, out1 ++ out2 ++ out3).

End Validator.

(** * The validator of [SudokuValidator C++.cpp] *)

(** The second program of the file: free functions on an array
    [int (&puzzle)[9][9]] that write a line to [cout] for every unit they
    have checked. *)
Module Legacy.

(** How the inner loop of [areRowsOk] ends for one row. *)
Inductive RowCheck :=
| RowOk
| InvalidValue (value : Z)
| RepeatValue (value : Z).

(** [if (value < 1 || value > 9) ...], then [values.insert(value)]. *)
Fixpoint checkRow (unit : list Z) (values : IntSet) : RowCheck :=
  match unit with
  | [] => RowOk
  | value :: rest =>
      if ((value <? 1) || (value >? 9))%Z then InvalidValue value
      else
        let (values', fresh) := set_insert value values in
        if fresh then checkRow rest values' else RepeatValue value
  end.

(** The inner loop of [areColumnsOk] and the loops of [isSubmatrixOk]:
    every value is inserted, 0 as any other; the value whose insertion
    fails is returned. *)
Fixpoint firstRepeat (unit : list Z) (values : IntSet) : option Z :=
  match unit with
  | [] => None
  | value :: rest =>
      let (values', fresh) := set_insert value values in
      if fresh then firstRepeat rest values' else Some value
  end.

(** The body of the outer loop of [areRowsOk]. *)
Definition rowOk (puzzle : Board) (row : nat) : bool * list Out :=
  match checkRow (map (fun col => getValue puzzle row col) (seq 0 9)) [] with
  | InvalidValue value =>
      (false, [Text "row "; Num (Z.of_nat row); Text " has an invalid value: ";
               Num value; Endl])
  | RepeatValue value =>
      (false, [Text "row "; Num (Z.of_nat row); Text " has a repeat value: ";
               Num value; Endl])
  | RowOk => (true, [Text "row "; Num (Z.of_nat row); Text " is OK."; Endl])
  end.

Definition areRowsOk (puzzle : Board) : bool * list Out :=
  checkUnits (rowOk puzzle) (seq 0 9).

(** The body of the outer loop of [areColumnsOk]. *)
Definition columnOk (puzzle : Board) (col : nat) : bool * list Out :=
  match firstRepeat (map (fun row => getValue puzzle row col) (seq 0 9)) [] with
  | Some value =>
      (false, [Text "col "; Num (Z.of_nat col); Text " has a repeat value: ";
               Num value; Endl])
  | None => (true, [Text "col "; Num (Z.of_nat col); Text " is OK."; Endl])
  end.

Definition areColumnsOk (puzzle : Board) : bool * list Out :=
  checkUnits (columnOk puzzle) (seq 0 9).

(** The cells from [startRowIdx] to [stopRowIdx] and from [startColIdx] to
    [stopColIdx], both stops included, in the order of the loops. *)
Definition readSubmatrix (puzzle : Board)
    (startRowIdx stopRowIdx startColIdx stopColIdx : nat) : list Z :=
  flat_map (fun row => map (fun col => getValue puzzle row col)
                           (seq startColIdx (S stopColIdx - startColIdx)))
           (seq startRowIdx (S stopRowIdx - startRowIdx)).

Definition isSubmatrixOk (puzzle : Board)
    (startRowIdx stopRowIdx startColIdx stopColIdx : nat) : bool * list Out :=
  match firstRepeat (readSubmatrix puzzle startRowIdx stopRowIdx startColIdx stopColIdx)
                    [] with
  | Some value =>
      (false, [Text "Submatrix with starting row "; Num (Z.of_nat startRowIdx);
               Text " and starting column "; Num (Z.of_nat startColIdx);
               Text " has a repeat value: "; Num value; Endl])
  | None =>
      (true, [Text "Submatrix with starting row "; Num (Z.of_nat startRowIdx);
              Text " and starting column "; Num (Z.of_nat startColIdx);
              Text " is OK."; Endl])
  end.

Definition areSubmatricesOk (puzzle : Board) : bool * list Out :=
  checkUnits (fun start =>
                isSubmatrixOk puzzle (fst start) (fst start + 2) (snd start) (snd start + 2))
             submatrixStarts.

Definition isSolutionOk (puzzle : Board) : bool * list Out :=
  let (rowsOk, out1) := areRowsOk puzzle in
  if negb rowsOk then (false, out1)
  else
    let (colsOk, out2) := areColumnsOk puzzle in
    if negb colsOk then (false, out1 ++ out2)
    else
      let (boxesOk, out3) := areSubmatricesOk puzzle in
      (boxesOk, out1 ++ out2 ++ out3).

End Legacy.

(** Every cell holds one of 1..9. *)
Definition allDigits (b : Board) : Prop :=
  forall r c, r < 9 -> c < 9 -> (1 <= getValue b r c <= 9)%Z.


(** ** The text of a board *)

Open Scope string_scope.

(** The text of a cell: the digit for a value 1..9, and [blank] for 0.  The
    constructor takes a space, the empty token and 0 for a blank cell. *)
Definition cellText (blank : string) (value : Z) : string :=
  if (value =? 0)%Z then blank
  else String (ascii_of_nat (48 + Z.to_nat value)) EmptyString.

(** A row as a line, the cells divided by commas, and a board as a file of
    such lines. *)
Definition lineText (blank : string) (row : list Z) : string :=
  String.concat "," (map (cellText blank) row).

Definition boardText (blank : string) (b : Board) : string :=
  unlines (map (lineText blank) b).

(** [s] holds no [ch]. *)
Fixpoint lacks (ch : ascii) (s : string) : bool :=
  match s with
  | EmptyString => true
  | String x rest => negb (Ascii.eqb x ch) && lacks ch rest
  end.

(** The tokens without the last one when that is empty. *)
Fixpoint dropEmptyLast (tokens : list string) : list string :=
  match tokens with
  | [] => []
  | [t] => if String.eqb t EmptyString then [] else [t]
  | t :: rest => t :: dropEmptyLast rest
  end.

Close Scope string_scope.


(** [full] is a valid completion of the board of [pz], and no candidate set
    of [pz] has lost the value [full] holds at its cell. *)
Definition admits (pz : SudokuPuzzle) (full : Board) : Prop :=
  validCompletion (board pz) full /\
  forall r c s, r < 9 -> c < 9 ->
    getPoss (possibilities pz) r c = Some s -> In (getValue full r c) s.


(** ** Boards used as examples *)

(** Row 0 holds 5 twice; cell (0,0) is blank and no cell holds 1. *)
Definition repeatInRow : Board :=
  [[0; 5; 0; 0; 5; 0; 0; 0; 0]; [0; 0; 0; 0; 0; 0; 0; 0; 0];
   [0; 0; 0; 0; 0; 0; 0; 0; 0]; [0; 0; 0; 0; 0; 0; 0; 0; 0];
   [0; 0; 0; 0; 0; 0; 0; 0; 0]; [0; 0; 0; 0; 0; 0; 0; 0; 0];
   [0; 0; 0; 0; 0; 0; 0; 0; 0]; [0; 0; 0; 0; 0; 0; 0; 0; 0];
   [0; 0; 0; 0; 0; 0; 0; 0; 0]]%Z.

(** No unit holds a digit twice.  Cell (0,0) can only take 1; cell (3,0) can
    take nothing, since its row holds 1..8 and its column holds 9. *)
Definition forcedThenStuck : Board :=
  [[0; 2; 3; 4; 5; 6; 7; 8; 9]; [0; 0; 0; 0; 0; 0; 0; 0; 0];
   [0; 0; 0; 0; 0; 0; 0; 0; 0]; [0; 1; 2; 3; 4; 5; 6; 7; 8];
   [9; 0; 0; 0; 0; 0; 0; 0; 0]; [0; 0; 0; 0; 0; 0; 0; 0; 0];
   [0; 0; 0; 0; 0; 0; 0; 0; 0]; [0; 0; 0; 0; 0; 0; 0; 0; 0];
   [0; 0; 0; 0; 0; 0; 0; 0; 0]]%Z.

(** [puzzle1] of [main]: every row is the row above shifted by one, so rows
    and columns are fine and every box holds repeats; no cell is blank. *)
Definition puzzle1 : Board :=
  [[1; 2; 3; 4; 5; 6; 7; 8; 9]; [2; 3; 4; 5; 6; 7; 8; 9; 1];
   [3; 4; 5; 6; 7; 8; 9; 1; 2]; [4; 5; 6; 7; 8; 9; 1; 2; 3];
   [5; 6; 7; 8; 9; 1; 2; 3; 4]; [6; 7; 8; 9; 1; 2; 3; 4; 5];
   [7; 8; 9; 1; 2; 3; 4; 5; 6]; [8; 9; 1; 2; 3; 4; 5; 6; 7];
   [9; 1; 2; 3; 4; 5; 6; 7; 8]]%Z.

(** [puzzle3] of [main], a solved board. *)
Definition puzzle3 : Board :=
  [[8; 2; 7; 1; 5; 4; 3; 9; 6]; [9; 6; 5; 3; 2; 7; 1; 4; 8];
   [3; 4; 1; 6; 8; 9; 7; 5; 2]; [5; 9; 3; 4; 6; 8; 2; 7; 1];
   [4; 7; 2; 5; 1; 3; 6; 8; 9]; [6; 1; 8; 9; 7; 2; 4; 3; 5];
   [7; 8; 6; 2; 3; 5; 9; 1; 4]; [1; 5; 4; 7; 9; 6; 8; 2; 3];
   [2; 3; 9; 8; 4; 1; 5; 6; 7]]%Z.

(** A board without duplicates and with 51 blank cells.  In the first pass
    only the last cell, (8,8), is left with one candidate, 6; cell (0,8),
    visited long before, keeps the candidates 6 and 7. *)
Definition fiftyAfterFirstPass : Board :=
  [[0; 0; 0; 0; 0; 0; 0; 0; 0]; [9; 0; 0; 3; 0; 0; 0; 0; 8];
   [0; 4; 0; 0; 8; 0; 0; 0; 2]; [0; 0; 3; 0; 0; 8; 0; 0; 1];
   [4; 0; 0; 5; 0; 0; 7; 0; 9]; [0; 1; 0; 0; 6; 0; 0; 0; 5];
   [0; 0; 7; 0; 0; 5; 0; 0; 4]; [1; 0; 0; 6; 0; 0; 0; 0; 3];
   [2; 3; 9; 8; 4; 1; 5; 7; 0]]%Z.

(** [puzzle3] with 34 of its cells blanked. *)
Definition puzzle3WithBlanks : Board :=
  [[0; 0; 7; 1; 0; 4; 3; 0; 6]; [9; 0; 0; 3; 2; 0; 1; 0; 8];
   [3; 4; 0; 0; 8; 9; 0; 5; 0]; [0; 9; 3; 0; 6; 0; 2; 7; 0];
   [4; 0; 2; 5; 0; 3; 0; 8; 9]; [0; 1; 0; 9; 7; 0; 4; 0; 5];
   [7; 0; 6; 0; 3; 5; 0; 1; 0]; [0; 5; 4; 7; 0; 6; 8; 0; 3];
   [2; 0; 9; 0; 4; 0; 5; 6; 0]]%Z.

(** A board without duplicates, with 52 blank cells, that [puzzle3]
    completes.  Row 0, column 0 and box 0 lack 2 and 8, in the cells (0,0),
    (0,1) and (8,0); column 1 and box 6 hold 8 at (6,1).  The first pass
    leaves the candidates 2 and 8 at (0,0) and then writes 2 into (0,1) and
    into (8,0): it returns 50. *)
Definition fiftyAfterTwoForced : Board :=
  [[0; 0; 7; 1; 5; 4; 3; 9; 6]; [9; 6; 5; 3; 2; 0; 0; 0; 0];
   [3; 4; 1; 0; 0; 0; 0; 0; 0]; [5; 0; 3; 4; 0; 0; 0; 0; 0];
   [4; 0; 0; 0; 0; 3; 0; 0; 9]; [6; 0; 0; 0; 0; 0; 4; 0; 0];
   [7; 8; 0; 0; 0; 0; 0; 0; 0]; [1; 5; 0; 0; 9; 0; 0; 0; 0];
   [0; 0; 0; 0; 0; 0; 5; 0; 0]]%Z.


(** * Properties *)

(** ** Arrays and tables *)

Section Arrays.
Variable A : Type.

Lemma upd_length (i : nat) (x : A) (l : list A) : length (upd i x l) = length l.
Proof.
  revert i; induction l as [|h t IH]; intros [|i]; simpl; auto.
Qed.

Lemma nth_upd_same (i : nat) (x d : A) (l : list A) :
  i < length l -> nth i (upd i x l) d = x.
Proof.
  revert i; induction l as [|h t IH]; intros [|i] H; simpl in *; try lia; auto.
  apply IH; lia.
Qed.

Lemma nth_upd_other (i j : nat) (x d : A) (l : list A) :
  i <> j -> nth j (upd i x l) d = nth j l d.
Proof.
  revert i j; induction l as [|h t IH]; intros [|i] [|j] H; simpl; auto; try lia.
Qed.

Lemma list_ext (d : A) (l1 l2 : list A) :
  length l1 = length l2 ->
  (forall i, i < length l1 -> nth i l1 d = nth i l2 d) -> l1 = l2.
Proof.
  revert l2; induction l1 as [|h t IH]; intros [|h2 t2] Hl Hn; simpl in *;
    try discriminate; auto.
  f_equal.
  - apply (Hn 0); lia.
  - apply IH; [lia|]. intros i Hi. apply (Hn (S i)); lia.
Qed.

Lemma upd_beyond (i : nat) (x : A) (l : list A) :
  length l <= i -> upd i x l = l.
Proof.
  revert i; induction l as [|h t IH]; intros [|i] Hle; simpl in *; auto; try lia.
  f_equal. apply IH; lia.
Qed.
End Arrays.

Section Tables.
Variable A : Type.

Lemma wfTable_row (t : list (list A)) (r : nat) :
  wfTable t -> r < 9 -> length (nth r t []) = 9.
Proof.
  intros [Hl Hf] Hr. rewrite Forall_forall in Hf. apply Hf, nth_In. lia.
Qed.

Lemma set2_wf (t : list (list A)) (r c : nat) (x : A) :
  wfTable t -> wfTable (set2 t r c x).
Proof.
  intros [Hl Hf]. split; unfold set2.
  - now rewrite upd_length.
  - rewrite Forall_forall in *. intros row Hin.
    destruct (In_nth _ _ [] Hin) as (k & Hk & <-).
    rewrite upd_length in Hk.
    destruct (Nat.eq_dec r k) as [->|Hne].
    + rewrite nth_upd_same by lia. cbv beta. rewrite upd_length.
      apply Hf, nth_In; lia.
    + rewrite nth_upd_other by auto. apply Hf, nth_In; lia.
Qed.

Lemma get2_set2_same (d : A) (t : list (list A)) (r c : nat) (x : A) :
  wfTable t -> r < 9 -> c < 9 -> get2 d (set2 t r c x) r c = x.
Proof.
  intros Hw Hr Hc. unfold get2, set2.
  rewrite nth_upd_same by (destruct Hw; lia).
  apply nth_upd_same. rewrite wfTable_row; auto.
Qed.

Lemma get2_set2_other (d : A) (t : list (list A)) (r c r' c' : nat) (x : A) :
  r <> r' \/ c <> c' -> get2 d (set2 t r c x) r' c' = get2 d t r' c'.
Proof.
  intros H. unfold get2, set2.
  destruct (Nat.eq_dec r r') as [<-|Hr].
  - destruct H as [H|H]; [congruence|].
    destruct (Nat.lt_ge_cases r (length t)) as [Hlt|Hge].
    + rewrite nth_upd_same by auto. now apply nth_upd_other.
    + now rewrite upd_beyond.
  - now rewrite nth_upd_other.
Qed.

Lemma table_ext (d : A) (t1 t2 : list (list A)) :
  wfTable t1 -> wfTable t2 ->
  (forall r c, r < 9 -> c < 9 -> get2 d t1 r c = get2 d t2 r c) -> t1 = t2.
Proof.
  intros H1 H2 Hg. apply (list_ext []).
  - destruct H1, H2; congruence.
  - intros r Hr. assert (r < 9) by (destruct H1; lia).
    apply (list_ext d).
    + rewrite !wfTable_row; auto.
    + intros c Hc. rewrite wfTable_row in Hc by auto. now apply Hg.
Qed.

Lemma tabulate_wf (f : nat -> nat -> A) : wfTable (tabulate f).
Proof.
  split; unfold tabulate.
  - now rewrite length_map, length_seq.
  - rewrite Forall_forall. intros row Hin. apply in_map_iff in Hin.
    destruct Hin as (r & <- & _). now rewrite length_map, length_seq.
Qed.

Lemma get2_tabulate (d : A) (f : nat -> nat -> A) (r c : nat) :
  r < 9 -> c < 9 -> get2 d (tabulate f) r c = f r c.
Proof.
  intros Hr Hc. unfold get2, tabulate.
  rewrite (nth_indep _ [] (map (fun col => f 0 col) (seq 0 9)))
    by now rewrite length_map, length_seq.
  rewrite (map_nth (fun row => map (fun col => f row col) (seq 0 9)) (seq 0 9) 0 r).
  rewrite seq_nth by auto. simpl Nat.add.
  rewrite (nth_indep _ d (f r 0)) by now rewrite length_map, length_seq.
  rewrite (map_nth (fun col => f r col) (seq 0 9) 0 c).
  now rewrite seq_nth.
Qed.
End Tables.

Lemma getValue_setValue_same (b : Board) (r c : nat) (v : Z) :
  wfBoard b -> r < 9 -> c < 9 -> getValue (setValue b r c v) r c = v.
Proof. apply (@get2_set2_same Z). Qed.

Lemma getValue_setValue_other (b : Board) (r c r' c' : nat) (v : Z) :
  r <> r' \/ c <> c' -> getValue (setValue b r c v) r' c' = getValue b r' c'.
Proof. apply (@get2_set2_other Z). Qed.

Lemma setValue_wf (b : Board) (r c : nat) (v : Z) :
  wfBoard b -> wfBoard (setValue b r c v).
Proof. apply (@set2_wf Z). Qed.

Lemma board_ext (b1 b2 : Board) :
  wfBoard b1 -> wfBoard b2 ->
  (forall r c, r < 9 -> c < 9 -> getValue b1 r c = getValue b2 r c) -> b1 = b2.
Proof. apply (@table_ext Z). Qed.

Lemma getPoss_setPoss_same p (r c : nat) (s : option IntSet) :
  wfTable p -> r < 9 -> c < 9 -> getPoss (setPoss p r c s) r c = s.
Proof. apply (@get2_set2_same (option IntSet)). Qed.

Lemma getPoss_setPoss_other p (r c r' c' : nat) (s : option IntSet) :
  r <> r' \/ c <> c' -> getPoss (setPoss p r c s) r' c' = getPoss p r' c'.
Proof. apply (@get2_set2_other (option IntSet)). Qed.

Lemma setPoss_wf p (r c : nat) (s : option IntSet) :
  wfTable p -> wfTable (setPoss p r c s).
Proof. apply (@set2_wf (option IntSet)). Qed.

(** Writing a value into a cell and then the old value back restores the
    board. *)
Lemma setValue_restore (b : Board) (r c : nat) (v : Z) :
  wfBoard b -> r < 9 -> c < 9 ->
  setValue (setValue b r c v) r c (getValue b r c) = b.
Proof.
  intros Hw Hr Hc. apply board_ext; auto using setValue_wf.
  intros r' c' Hr' Hc'.
  destruct (Nat.eq_dec r r') as [<-|Hne].
  - destruct (Nat.eq_dec c c') as [<-|Hne].
    + rewrite getValue_setValue_same; auto using setValue_wf.
    + rewrite !getValue_setValue_other; auto.
  - rewrite !getValue_setValue_other; auto.
Qed.

(** ** The ordered set *)

Lemma set_insert_spec (v : Z) (s : IntSet) :
  StronglySorted Z.lt s ->
  StronglySorted Z.lt (fst (set_insert v s)) /\
  (forall x, In x (fst (set_insert v s)) <-> x = v \/ In x s) /\
  (snd (set_insert v s) = true <-> ~ In v s).
Proof.
  induction s as [|a t IH]; intros Hs; simpl.
  - split; [|split].
    + repeat constructor.
    + intros x. simpl. intuition congruence.
    + split; auto.
  - inversion Hs as [|? ? Ht Hall]; subst. rewrite Forall_forall in Hall.
    destruct (Z.ltb_spec v a) as [Hlt|Hge]; simpl.
    + split; [|split].
      * constructor; auto. constructor.
        -- exact Hlt.
        -- rewrite Forall_forall. intros y Hy. specialize (Hall y Hy). lia.
      * intros x. simpl. intuition congruence.
      * split; auto. intros _ [H|H]; [lia|]. specialize (Hall v H). lia.
    + destruct (Z.eqb_spec v a) as [->|Hne]; simpl.
      * split; [|split]; auto.
        -- intros x. simpl. intuition congruence.
        -- split; [discriminate|]. intros H. exfalso. apply H. now left.
      * destruct (IH Ht) as (IH1 & IH2 & IH3).
        destruct (set_insert v t) as [t' fresh]; simpl in *.
        split; [|split].
        -- constructor; auto. rewrite Forall_forall. intros y Hy.
           apply IH2 in Hy. destruct Hy as [->|Hy]; [lia|auto].
        -- intros x. simpl. rewrite IH2. intuition congruence.
        -- rewrite IH3. split; [intros Hf [H|H]; [congruence|tauto] | tauto].
Qed.

(** ** One unit *)

Lemma noRepeat_spec (l : list Z) : forall s : IntSet,
  StronglySorted Z.lt s ->
  noRepeat l s = true <->
  NoDup (filter nonZero l) /\ (forall x, In x l -> x <> 0%Z -> ~ In x s).
Proof.
  induction l as [|a l IH]; intros s Hs; simpl.
  - split; auto. intros _. split; [constructor | tauto].
  - unfold nonZero at 1. destruct (Z.eqb_spec a 0) as [->|Hne]; simpl.
    + rewrite (IH s Hs). split; intros [H1 H2]; split; auto.
      intros x [<-|Hx]; auto; congruence.
    + destruct (set_insert_spec a Hs) as (S1 & S2 & S3).
      destruct (set_insert a s) as [s' fresh]; simpl in *.
      destruct fresh.
      * rewrite (IH s' S1). split.
        -- intros [H1 H2]. split.
           ++ constructor; auto. intros Hin. apply filter_In in Hin.
              destruct Hin as [Hin _]. apply (H2 a Hin Hne). apply S2. now left.
           ++ intros x [<-|Hx] Hx0.
              ** now apply S3.
              ** intros Hxs. apply (H2 x Hx Hx0). apply S2. now right.
        -- intros [H1 H2]. inversion H1 as [|? ? Hnin Hnd]; subst. split; auto.
           intros x Hx Hx0 Hxs. apply S2 in Hxs. destruct Hxs as [->|Hxs].
           ++ apply Hnin. apply filter_In. split; auto.
              unfold nonZero. now destruct (Z.eqb_spec a 0).
           ++ apply (H2 x); auto.
      * split; [discriminate|]. intros [_ H2]. exfalso.
        assert (Hin : In a s).
        { destruct (in_dec Z.eq_dec a s) as [Hi|Hi]; auto.
          apply S3 in Hi. discriminate. }
        apply (H2 a); auto.
Qed.

Lemma NoDup_nonZero_nth (l : list Z) :
  NoDup (filter nonZero l) <->
  (forall i j, i < length l -> j < length l -> i <> j ->
               nth i l 0%Z <> 0%Z -> nth i l 0%Z <> nth j l 0%Z).
Proof.
  induction l as [|a l IH]; simpl.
  - split; [intros _ i j Hi; lia | constructor].
  - unfold nonZero at 1. destruct (Z.eqb_spec a 0) as [->|Hne]; simpl.
    + rewrite IH. split.
      * intros H [|i] [|j] Hi Hj Hij Hnz; try lia; try congruence.
        apply H; auto; lia.
      * intros H i j Hi Hj Hij. apply (H (S i) (S j)); lia.
    + split.
      * intros H. inversion H as [|? ? Hnin Hnd]; subst. rewrite IH in Hnd.
        intros [|i] [|j] Hi Hj Hij Hnz; try lia.
        -- intros E. apply Hnin. apply filter_In. split.
           ++ rewrite E. apply nth_In. lia.
           ++ unfold nonZero. now destruct (Z.eqb_spec a 0).
        -- intros E. apply Hnin. apply filter_In. split.
           ++ rewrite <- E. apply nth_In. lia.
           ++ unfold nonZero. now destruct (Z.eqb_spec a 0).
        -- apply Hnd; auto; lia.
      * intros H. constructor.
        -- intros Hin. apply filter_In in Hin. destruct Hin as [Hin _].
           destruct (In_nth _ _ 0%Z Hin) as (k & Hk & Ek).
           apply (H 0 (S k)); try lia; auto.
        -- apply IH. intros i j Hi Hj Hij. apply (H (S i) (S j)); lia.
Qed.

Lemma noRepeat_map_seq (f : nat -> Z) (n : nat) :
  noRepeat (map f (seq 0 n)) [] = true <->
  (forall i j, i < n -> j < n -> i <> j -> f i <> 0%Z -> f i <> f j).
Proof.
  rewrite noRepeat_spec by constructor.
  rewrite NoDup_nonZero_nth, length_map, length_seq.
  assert (E : forall i, i < n -> nth i (map f (seq 0 n)) 0%Z = f i).
  { intros i Hi. rewrite (nth_indep _ 0%Z (f 0)) by now rewrite length_map, length_seq.
    rewrite map_nth, seq_nth; auto. }
  split.
  - intros [H _] i j Hi Hj Hij. rewrite <- !E by auto. now apply H.
  - intros H. split; [|tauto]. intros i j Hi Hj Hij. rewrite !E by auto. now apply H.
Qed.

(** ** Rows, columns and boxes *)

Lemma isRowOrColOk_ROW (b : Board) (r : nat) :
  isRowOrColOk b r ROW = true <-> rowDistinct b r.
Proof. unfold isRowOrColOk. apply noRepeat_map_seq. Qed.

Lemma isRowOrColOk_COL (b : Board) (c : nat) :
  isRowOrColOk b c COL = true <-> colDistinct b c.
Proof. unfold isRowOrColOk. apply noRepeat_map_seq. Qed.

Lemma readSubmatrix_map (b : Board) (sr sc : nat) :
  readSubmatrix b sr sc =
  map (fun k => getValue b (k / 3 + sr) (k mod 3 + sc)) (seq 0 9).
Proof. reflexivity. Qed.

(** The submatrix that starts at [3 * R], [3 * C] holds the cells whose row
    has quotient [R] and whose column has quotient [C]. *)
Lemma isSubmatrixOk_spec (b : Board) (R C : nat) :
  R < 3 -> C < 3 ->
  isSubmatrixOk b (3 * R) (3 * C) = true <-> boxDistinct b R C.
Proof.
  intros HR HC. unfold isSubmatrixOk, boxDistinct.
  rewrite readSubmatrix_map, noRepeat_map_seq.
  split.
  - intros H r1 c1 r2 c2 Hr1 Hr2 Hc1 Hc2 Hne.
    specialize (H (3 * (r1 mod 3) + c1 mod 3) (3 * (r2 mod 3) + c2 mod 3)).
    replace ((3 * (r1 mod 3) + c1 mod 3) / 3 + 3 * R) with r1 in H by dlia.
    replace ((3 * (r1 mod 3) + c1 mod 3) mod 3 + 3 * C) with c1 in H by dlia.
    replace ((3 * (r2 mod 3) + c2 mod 3) / 3 + 3 * R) with r2 in H by dlia.
    replace ((3 * (r2 mod 3) + c2 mod 3) mod 3 + 3 * C) with c2 in H by dlia.
    apply H; dlia.
  - intros H i j Hi Hj Hij. apply H; dlia.
Qed.

Lemma forallb_036 (f : nat -> bool) :
  forallb f [0; 3; 6] = true <-> (forall R, R < 3 -> f (3 * R) = true).
Proof.
  cbn [forallb]. rewrite !andb_true_iff. split.
  - intros H R HR. destruct R as [|[|[|R]]]; try lia; cbn [Nat.mul Nat.add]; tauto.
  - intros H. pose proof (H 0). pose proof (H 1). pose proof (H 2).
    cbn [Nat.mul Nat.add] in *. repeat split; auto with arith.
Qed.

Lemma areSubmatricesOk_spec (b : Board) :
  areSubmatricesOk b = true <->
  (forall R C, R < 3 -> C < 3 -> isSubmatrixOk b (3 * R) (3 * C) = true).
Proof.
  unfold areSubmatricesOk. rewrite forallb_036. split.
  - intros H R C HR HC. specialize (H R HR). rewrite forallb_036 in H. auto.
  - intros H R HR. rewrite forallb_036. auto.
Qed.

Lemma forallb_seq (f : nat -> bool) (n : nat) :
  forallb f (seq 0 n) = true <-> (forall i, i < n -> f i = true).
Proof.
  rewrite forallb_forall. split.
  - intros H i Hi. apply H, in_seq. lia.
  - intros H i Hi. apply in_seq in Hi. apply H. lia.
Qed.

Lemma rowsOk_spec (b : Board) :
  forallb (fun row => isRowOrColOk b row ROW) (seq 0 9) = true <-> rowsDistinct b.
Proof.
  rewrite forallb_seq. unfold rowsDistinct.
  split; intros H r Hr; apply isRowOrColOk_ROW; auto.
Qed.

Lemma colsOk_spec (b : Board) :
  forallb (fun col => isRowOrColOk b col COL) (seq 0 9) = true <-> colsDistinct b.
Proof.
  rewrite forallb_seq. unfold colsDistinct.
  split; intros H c Hc; apply isRowOrColOk_COL; auto.
Qed.

Lemma boxesOk_spec (b : Board) : areSubmatricesOk b = true <-> boxesDistinct b.
Proof.
  rewrite areSubmatricesOk_spec. unfold boxesDistinct.
  split; intros H R C HR HC; apply isSubmatrixOk_spec; auto.
Qed.

(** C4: [isSolutionValid] answers true exactly for the boards on which no
    non-zero digit stands twice in a row, in a column or in one of the nine
    3x3 boxes; zeros are never counted as duplicates. *)
Theorem isSolutionValid_iff_noDuplicates (b : Board) :
  isSolutionValid b = true <-> noDuplicates b.
Proof.
  unfold isSolutionValid, noDuplicates.
  rewrite <- rowsOk_spec, <- colsOk_spec, <- boxesOk_spec.
  destruct (forallb (fun row => isRowOrColOk b row ROW) (seq 0 9));
    destruct (forallb (fun col => isRowOrColOk b col COL) (seq 0 9));
    destruct (areSubmatricesOk b); simpl; intuition congruence.
Qed.

(** ** [wouldWork] *)

Lemma wouldWork_snd (b : Board) (v : Z) (r c : nat) :
  snd (wouldWork b v r c) = setValue (setValue b r c v) r c 0.
Proof.
  unfold wouldWork; cbv zeta.
  destruct (isRowOrColOk (setValue b r c v) r ROW),
    (isRowOrColOk (setValue b r c v) c COL),
    (isSubmatrixOk (setValue b r c v) (3 * (r / 3)) (3 * (c / 3))); reflexivity.
Qed.

Lemma wouldWork_fst (b : Board) (v : Z) (r c : nat) :
  r < 9 -> c < 9 ->
  fst (wouldWork b v r c) = true <->
  rowDistinct (setValue b r c v) r /\ colDistinct (setValue b r c v) c /\
  boxDistinct (setValue b r c v) (r / 3) (c / 3).
Proof.
  intros Hr Hc.
  rewrite <- isRowOrColOk_ROW, <- isRowOrColOk_COL, <- isSubmatrixOk_spec by dlia.
  unfold wouldWork; cbv zeta.
  destruct (isRowOrColOk (setValue b r c v) r ROW),
    (isRowOrColOk (setValue b r c v) c COL),
    (isSubmatrixOk (setValue b r c v) (3 * (r / 3)) (3 * (c / 3)));
    cbn [negb fst]; intuition congruence.
Qed.

Lemma wouldWork_blank_restores (b : Board) (v : Z) (r c : nat) :
  wfBoard b -> r < 9 -> c < 9 -> getValue b r c = 0%Z ->
  snd (wouldWork b v r c) = b.
Proof.
  intros Hw Hr Hc H0. rewrite wouldWork_snd, <- H0. now apply setValue_restore.
Qed.

Lemma isPeerb_spec (r c r' c' : nat) : isPeerb r c r' c' = true <-> isPeer r c r' c'.
Proof.
  unfold isPeerb, isPeer.
  rewrite !andb_true_iff, !orb_true_iff, negb_true_iff, andb_false_iff,
    !andb_true_iff, !Nat.ltb_lt, !Nat.eqb_eq, !Nat.eqb_neq.
  tauto.
Qed.

Lemma createsNoDuplicateb_spec (b : Board) (v : Z) (r c : nat) :
  createsNoDuplicateb b v r c = true <-> createsNoDuplicate b v r c.
Proof.
  unfold createsNoDuplicateb, createsNoDuplicate. rewrite forallb_seq. split.
  - intros H r' c' Hp. pose proof Hp as (Hr' & Hc' & _).
    specialize (H r' Hr'). rewrite forallb_seq in H. specialize (H c' Hc').
    apply isPeerb_spec in Hp. rewrite Hp in H. simpl in H.
    apply negb_true_iff, Z.eqb_neq in H. exact H.
  - intros H r' Hr'. rewrite forallb_seq. intros c' Hc'.
    destruct (isPeerb r c r' c') eqn:E; simpl; auto.
    apply isPeerb_spec in E. apply negb_true_iff, Z.eqb_neq. now apply H.
Qed.

(** On a board whose units through the blank cell [(r, c)] are free of
    duplicates, the units stay so with [v] in the cell exactly when no peer
    holds [v]. *)
Lemma placement_units (b : Board) (v : Z) (r c : nat) :
  wfBoard b -> r < 9 -> c < 9 -> getValue b r c = 0%Z -> v <> 0%Z ->
  rowDistinct b r -> colDistinct b c -> boxDistinct b (r / 3) (c / 3) ->
  (rowDistinct (setValue b r c v) r /\ colDistinct (setValue b r c v) c /\
   boxDistinct (setValue b r c v) (r / 3) (c / 3))
  <-> createsNoDuplicate b v r c.
Proof.
  intros Hw Hr Hc H0 Hv HR HC HB.
  assert (Same : getValue (setValue b r c v) r c = v)
    by now apply getValue_setValue_same.
  assert (Other : forall r' c', r <> r' \/ c <> c' ->
            getValue (setValue b r c v) r' c' = getValue b r' c')
    by (intros; now apply getValue_setValue_other).
  split.
  - intros (R1 & C1 & B1) r' c' (Hr' & Hc' & Hne & Hunit) E.
    destruct Hunit as [->|[->|[Hq1 Hq2]]].
    + apply (R1 c c'); auto; rewrite ?Same, ?Other by lia; auto; lia.
    + apply (C1 r r'); auto; rewrite ?Same, ?Other by lia; auto; lia.
    + apply (B1 r c r' c'); auto; rewrite ?Same, ?Other by lia; auto; lia.
  - intros Hfree.
    assert (Peer : forall r' c', r' < 9 -> c' < 9 -> (r' <> r \/ c' <> c) ->
              (r' = r \/ c' = c \/ (r' / 3 = r / 3 /\ c' / 3 = c / 3)) ->
              getValue b r' c' <> v).
    { intros r' c' L1 L2 L3 L4. apply Hfree. unfold isPeer. tauto. }
    split; [|split].
    + intros c1 c2 Hc1 Hc2 Hne Hnz.
      destruct (Nat.eq_dec c1 c) as [->|N1].
      * rewrite Same, Other by lia. intros E. apply (Peer r c2); auto; lia.
      * rewrite Other in * by lia.
        destruct (Nat.eq_dec c2 c) as [->|N2].
        -- rewrite Same. apply Peer; auto; lia.
        -- rewrite Other by lia. now apply HR.
    + intros r1 r2 Hr1 Hr2 Hne Hnz.
      destruct (Nat.eq_dec r1 r) as [->|N1].
      * rewrite Same, Other by lia. intros E. apply (Peer r2 c); auto; lia.
      * rewrite Other in * by lia.
        destruct (Nat.eq_dec r2 r) as [->|N2].
        -- rewrite Same. apply Peer; auto; lia.
        -- rewrite Other by lia. now apply HC.
    + intros r1 c1 r2 c2 Hr1 Hr2 Hc1 Hc2 Hne Hnz.
      assert (r1 < 9 /\ r2 < 9 /\ c1 < 9 /\ c2 < 9) as (L1 & L2 & L3 & L4) by dlia.
      destruct (Nat.eq_dec r1 r) as [E1|N1];
        [destruct (Nat.eq_dec c1 c) as [E1'|N1']|].
      * subst r1 c1. rewrite Same, Other by lia. intros E.
        apply (Peer r2 c2); auto; lia.
      * rewrite Other in * by lia.
        destruct (Nat.eq_dec r2 r) as [E2|N2];
          [destruct (Nat.eq_dec c2 c) as [E2'|N2']|].
        -- subst r2 c2. rewrite Same. apply Peer; auto; lia.
        -- rewrite Other by lia. now apply HB.
        -- rewrite Other by lia. now apply HB.
      * rewrite Other in * by lia.
        destruct (Nat.eq_dec r2 r) as [E2|N2];
          [destruct (Nat.eq_dec c2 c) as [E2'|N2']|].
        -- subst r2 c2. rewrite Same. apply Peer; auto; lia.
        -- rewrite Other by lia. now apply HB.
        -- rewrite Other by lia. now apply HB.
Qed.

Lemma wfBoard_concrete (b : Board) :
  (length b =? 9) && forallb (fun r => length r =? 9) b = true -> wfBoard b.
Proof.
  intros H. apply andb_true_iff in H. destruct H as [H1 H2].
  split; [now apply Nat.eqb_eq|].
  rewrite Forall_forall. rewrite forallb_forall in H2.
  intros r Hr. now apply Nat.eqb_eq, H2.
Qed.

(** C5, as the code has it: on a blank cell and a value in 1..9, [wouldWork]
    leaves the board as it found it, and it answers true exactly when, with
    the value in the cell, the cell's row, column and box hold no non-zero
    digit twice.  When these three units hold no duplicate beforehand, that
    is the case exactly when no other cell of the row, the column or the box
    holds the value. *)
Theorem wouldWork_blank_cell (b : Board) (v : Z) (r c : nat) :
  wfBoard b -> r < 9 -> c < 9 -> getValue b r c = 0%Z -> (1 <= v <= 9)%Z ->
  snd (wouldWork b v r c) = b /\
  (fst (wouldWork b v r c) = true <->
     rowDistinct (setValue b r c v) r /\ colDistinct (setValue b r c v) c /\
     boxDistinct (setValue b r c v) (r / 3) (c / 3)) /\
  (rowDistinct b r -> colDistinct b c -> boxDistinct b (r / 3) (c / 3) ->
     (fst (wouldWork b v r c) = true <-> createsNoDuplicate b v r c)).
Proof.
  intros Hw Hr Hc H0 Hv. split; [|split].
  - now apply wouldWork_blank_restores.
  - now apply wouldWork_fst.
  - intros HR HC HB. rewrite wouldWork_fst by auto.
    apply placement_units; auto. lia.
Qed.

Lemma wouldWork_blank_cell_witness :
  snd (wouldWork forcedThenStuck 1 0 0) = forcedThenStuck /\
  (fst (wouldWork forcedThenStuck 1 0 0) = true <->
     rowDistinct (setValue forcedThenStuck 0 0 1) 0 /\
     colDistinct (setValue forcedThenStuck 0 0 1) 0 /\
     boxDistinct (setValue forcedThenStuck 0 0 1) (0 / 3) (0 / 3)) /\
  (rowDistinct forcedThenStuck 0 -> colDistinct forcedThenStuck 0 ->
   boxDistinct forcedThenStuck (0 / 3) (0 / 3) ->
     (fst (wouldWork forcedThenStuck 1 0 0) = true <->
      createsNoDuplicate forcedThenStuck 1 0 0)).
Proof.
  apply (@wouldWork_blank_cell forcedThenStuck 1%Z 0 0).
  - apply wfBoard_concrete. reflexivity.
  - lia.
  - lia.
  - reflexivity.
  - lia.
Defined.

(** C5 as stated fails where a unit of the cell already holds a duplicate:
    on [repeatInRow] no cell holds 1, so placing 1 at (0,0) creates no
    duplicate, and [wouldWork] still answers false, because the check of
    row 0 meets the two 5s. *)
Lemma wouldWork_rejects_fresh_digit :
  wfBoard repeatInRow /\ getValue repeatInRow 0 0 = 0%Z /\
  ~ (fst (wouldWork repeatInRow 1 0 0) = true <->
     createsNoDuplicate repeatInRow 1 0 0).
Proof.
  split; [apply wfBoard_concrete; reflexivity|]. split; [reflexivity|].
  intros [_ H].
  assert (F : fst (wouldWork repeatInRow 1 0 0) = false) by reflexivity.
  rewrite F in H. apply Bool.diff_false_true, H.
  apply createsNoDuplicateb_spec. reflexivity.
Qed.

(** ** One cell of a pass *)

Lemma eraseUnworkable_blank (b : Board) (r c : nat) (s : IntSet) :
  wfBoard b -> r < 9 -> c < 9 -> getValue b r c = 0%Z ->
  eraseUnworkable b r c s = (filter (fun v => fst (wouldWork b v r c)) s, b).
Proof.
  intros Hw Hr Hc H0. induction s as [|v s IH]; simpl; auto.
  pose proof (wouldWork_blank_restores v Hw Hr Hc H0) as E.
  destruct (wouldWork b v r c) as [ok b1]. simpl in *. subst b1.
  rewrite IH. now destruct ok.
Qed.

Lemma candidateSet_filter (f : Z -> bool) (s : IntSet) :
  candidateSet s -> candidateSet (filter f s).
Proof.
  intros [Hs Hd]. split.
  - clear Hd. induction Hs as [|a l Hl IH Ha]; simpl; [constructor|].
    destruct (f a); auto. constructor; auto.
    rewrite Forall_forall in *. intros x Hx. apply Ha.
    apply filter_In in Hx. tauto.
  - intros v Hv. apply filter_In in Hv. apply Hd. tauto.
Qed.

Lemma candidateSet_oneToNine : candidateSet oneToNine.
Proof.
  split.
  - unfold oneToNine. repeat (constructor; [|repeat constructor; lia]). constructor.
  - unfold oneToNine. simpl. intros v H. lia.
Qed.

(** The four ways through the body of the loops at a cell, on an object
    that satisfies the invariant. *)
Lemma trimCell_cases (pz : SudokuPuzzle) (n : Z) (r c : nat) :
  puzzleInv pz -> r < 9 -> c < 9 ->
  (getPoss (possibilities pz) r c = None /\ trimCell pz n r c = Next pz n) \/
  (exists s, getPoss (possibilities pz) r c = Some s /\
     let kept := workable (board pz) r c s in
     (kept = [] /\
      trimCell pz n r c =
        Contradiction (mkPuzzle (board pz)
                         (setPoss (possibilities pz) r c (Some []))
                         (minPossibilities pz) (minRow pz) (minCol pz))) \/
     (exists v, kept = [v] /\
      trimCell pz n r c =
        Next (mkPuzzle (setValue (board pz) r c v)
                (setPoss (setPoss (possibilities pz) r c (Some [v])) r c None)
                (minPossibilities pz) (minRow pz) (minCol pz)) n) \/
     (2 <= length kept /\
      trimCell pz n r c =
        Next (if (Z.of_nat (length kept) <? minPossibilities pz)%Z
              then mkPuzzle (board pz) (setPoss (possibilities pz) r c (Some kept))
                     (Z.of_nat (length kept)) r c
              else mkPuzzle (board pz) (setPoss (possibilities pz) r c (Some kept))
                     (minPossibilities pz) (minRow pz) (minCol pz))
             (n + 1)%Z)).
Proof.
  intros Hinv Hr Hc. unfold trimCell.
  destruct (getPoss (possibilities pz) r c) as [s|] eqn:Eg; [right|left; auto].
  exists s. split; auto. cbv zeta.
  rewrite (eraseUnworkable_blank s (inv_board Hinv) Hr Hc (inv_blank Hinv Hr Hc Eg)).
  fold (workable (board pz) r c s).
  destruct (workable (board pz) r c s) as [|v [|w kept]] eqn:Ek.
  - left. split; auto.
  - right; left. exists v. split; auto.
  - right; right. split; [simpl; lia|]. cbn [length Nat.eqb].
    unfold withPossibilities, withBoard, withMin. cbn [board possibilities minPossibilities minRow minCol].
    now destruct (_ <? _)%Z.
Qed.

Lemma cell_eq_dec (i j r c : nat) : {i = r /\ j = c} + {i <> r \/ j <> c}.
Proof.
  destruct (Nat.eq_dec i r); destruct (Nat.eq_dec j c); auto.
Qed.

Lemma workable_candidateSet (b : Board) (r c : nat) (s : IntSet) :
  candidateSet s -> candidateSet (workable b r c s).
Proof. apply candidateSet_filter. Qed.

(** The step keeps the invariant, touches no other cell and no clue. *)
Lemma trimCell_inv (pz : SudokuPuzzle) (n : Z) (r c : nat) :
  puzzleInv pz -> r < 9 -> c < 9 -> puzzleInv (stepPuzzle (trimCell pz n r c)).
Proof.
  intros Hinv Hr Hc.
  destruct (trimCell_cases n Hinv Hr Hc) as [[Eg ->]|(s & Eg & Hcase)]; auto.
  cbv zeta in Hcase.
  pose proof (workable_candidateSet (board pz) r c (inv_digits Hinv Hr Hc Eg)) as Hk.
  destruct Hinv as [Hb Hp Hbl Hd].
  assert (G : forall x i j t, i < 9 -> j < 9 ->
            getPoss (setPoss (possibilities pz) r c (Some x)) i j = Some t ->
            (i = r /\ j = c /\ t = x) \/ getPoss (possibilities pz) i j = Some t).
  { intros x i j t Hi Hj Ht. destruct (cell_eq_dec i j r c) as [[-> ->]|Hne].
    - rewrite getPoss_setPoss_same in Ht by auto. left. repeat split; congruence.
    - rewrite getPoss_setPoss_other in Ht by lia. now right. }
  destruct Hcase as [[Ek ->]|[(v & Ek & ->)|[Hlen ->]]]; simpl.
  - constructor; simpl; auto using setPoss_wf.
    + intros i j t Hi Hj Ht. destruct (G _ _ _ _ Hi Hj Ht) as [(-> & -> & _)|H]; eauto.
    + intros i j t Hi Hj Ht. destruct (G _ _ _ _ Hi Hj Ht) as [(-> & -> & ->)|H]; eauto.
      rewrite <- Ek. exact Hk.
  - constructor; simpl; auto using setPoss_wf, setValue_wf.
    + intros i j t Hi Hj Ht. destruct (cell_eq_dec i j r c) as [[-> ->]|Hne].
      * rewrite getPoss_setPoss_same in Ht by auto using setPoss_wf. discriminate.
      * rewrite getPoss_setPoss_other in Ht by lia.
        rewrite getValue_setValue_other by lia.
        destruct (G _ _ _ _ Hi Hj Ht) as [(-> & -> & _)|H]; eauto; lia.
    + intros i j t Hi Hj Ht. destruct (cell_eq_dec i j r c) as [[-> ->]|Hne].
      * rewrite getPoss_setPoss_same in Ht by auto using setPoss_wf. discriminate.
      * rewrite getPoss_setPoss_other in Ht by lia.
        destruct (G _ _ _ _ Hi Hj Ht) as [(-> & -> & _)|H]; eauto; lia.
  - destruct (_ <? _)%Z; constructor; simpl; auto using setPoss_wf.
    + intros i j t Hi Hj Ht. destruct (G _ _ _ _ Hi Hj Ht) as [(-> & -> & _)|H]; eauto.
    + intros i j t Hi Hj Ht. destruct (G _ _ _ _ Hi Hj Ht) as [(-> & -> & ->)|H]; eauto.
    + intros i j t Hi Hj Ht. destruct (G _ _ _ _ Hi Hj Ht) as [(-> & -> & _)|H]; eauto.
    + intros i j t Hi Hj Ht. destruct (G _ _ _ _ Hi Hj Ht) as [(-> & -> & ->)|H]; eauto.
Qed.

Lemma trimCell_frame (pz : SudokuPuzzle) (n : Z) (r c i j : nat) :
  puzzleInv pz -> r < 9 -> c < 9 -> i <> r \/ j <> c ->
  getValue (board (stepPuzzle (trimCell pz n r c))) i j = getValue (board pz) i j /\
  getPoss (possibilities (stepPuzzle (trimCell pz n r c))) i j
    = getPoss (possibilities pz) i j.
Proof.
  intros Hinv Hr Hc Hne.
  destruct (trimCell_cases n Hinv Hr Hc) as [[Eg ->]|(s & Eg & Hcase)]; auto.
  cbv zeta in Hcase.
  destruct Hcase as [[Ek ->]|[(v & Ek & ->)|[Hlen ->]]]; simpl.
  - rewrite getPoss_setPoss_other by lia. auto.
  - rewrite getValue_setValue_other, !getPoss_setPoss_other by lia. auto.
  - destruct (_ <? _)%Z; simpl; rewrite getPoss_setPoss_other by lia; auto.
Qed.

(** What the step does at its own cell. *)
Lemma trimCell_here (pz : SudokuPuzzle) (n : Z) (r c : nat) :
  puzzleInv pz -> r < 9 -> c < 9 ->
  let st := trimCell pz n r c in
  let here := getPoss (possibilities (stepPuzzle st)) r c in
  let value := getValue (board (stepPuzzle st)) r c in
  match st with
  | Contradiction _ =>
      exists s, getPoss (possibilities pz) r c = Some s /\
                workable (board pz) r c s = [] /\ here = Some [] /\
                board (stepPuzzle st) = board pz
  | Next _ n' =>
      cellOutcome (board pz) r c (getPoss (possibilities pz) r c) here value /\
      n' = (n + if hasSet (possibilities (stepPuzzle st)) (r, c) then 1 else 0)%Z /\
      (here = None \/ exists s, here = Some s /\ 2 <= length s)
  end.
Proof.
  intros Hinv Hr Hc.
  destruct (trimCell_cases n Hinv Hr Hc) as [[Eg ->]|(s & Eg & Hcase)].
  - cbv zeta. unfold cellOutcome, hasSet. simpl. rewrite Eg.
    repeat split; auto. lia.
  - cbv zeta in *. pose proof (inv_board Hinv) as Hb. pose proof (inv_poss Hinv) as Hp.
    destruct Hcase as [[Ek ->]|[(v & Ek & ->)|[Hlen ->]]].
    + simpl. exists s. rewrite getPoss_setPoss_same by auto. auto.
    + unfold cellOutcome, hasSet. simpl. rewrite Eg, Ek.
      rewrite getPoss_setPoss_same by auto using setPoss_wf.
      rewrite getValue_setValue_same by auto. repeat split; auto. lia.
    + assert (E : forall a b0 : SudokuPuzzle, forall t : bool,
                 possibilities a = possibilities b0 -> board a = board b0 ->
                 possibilities (if t then a else b0) = possibilities b0 /\
                 board (if t then a else b0) = board b0)
        by (intros a b0 [] ? ?; auto).
      unfold cellOutcome, hasSet. cbn [stepPuzzle fst snd].
      match goal with |- context [if ?t then ?a else ?b0] =>
        destruct (E a b0 t eq_refl eq_refl) as [-> ->] end.
      simpl. rewrite Eg. rewrite getPoss_setPoss_same by auto.
      rewrite (inv_blank Hinv Hr Hc Eg).
      destruct (workable (board pz) r c s) as [|x [|y l]] eqn:Ek; simpl in Hlen; try lia.
      repeat split; auto. right. eexists; split; eauto.
Qed.

Lemma trimCell_clue (pz : SudokuPuzzle) (n : Z) (r c i j : nat) :
  puzzleInv pz -> r < 9 -> c < 9 -> i < 9 -> j < 9 ->
  getValue (board pz) i j <> 0%Z ->
  getValue (board (stepPuzzle (trimCell pz n r c))) i j = getValue (board pz) i j.
Proof.
  intros Hinv Hr Hc Hi Hj Hnz.
  destruct (cell_eq_dec i j r c) as [[-> ->]|Hne].
  - destruct (trimCell_cases n Hinv Hr Hc) as [[Eg ->]|(s & Eg & _)]; auto.
    exfalso. apply Hnz. exact (inv_blank Hinv Hr Hc Eg).
  - now apply trimCell_frame.
Qed.

Lemma trimCell_tracked (pz : SudokuPuzzle) (n : Z) (r c : nat) :
  puzzleInv pz -> r < 9 -> c < 9 -> allTracked pz ->
  allTracked (stepPuzzle (trimCell pz n r c)).
Proof.
  intros Hinv Hr Hc Ht i j Hi Hj H0.
  destruct (cell_eq_dec i j r c) as [[-> ->]|Hne].
  - pose proof (trimCell_here n Hinv Hr Hc) as Hh. cbv zeta in Hh.
    destruct (trimCell pz n r c) as [pz'|pz' n'] eqn:Est; simpl in *.
    + destruct Hh as (s & _ & _ & -> & _). discriminate.
    + destruct Hh as (Hout & _ & _). unfold cellOutcome in Hout.
      destruct (getPoss (possibilities pz) r c) as [s|] eqn:Eg.
      * pose proof (workable_candidateSet (board pz) r c (inv_digits Hinv Hr Hc Eg)) as [_ Hd].
        destruct (workable (board pz) r c s) as [|v [|w l]]; try tauto.
        -- destruct Hout as [_ Hv]. specialize (Hd v (or_introl eq_refl)). lia.
        -- destruct Hout as [-> _]. discriminate.
      * destruct Hout as [_ Hv]. exfalso. apply (Ht r c Hr Hc); congruence.
  - destruct (trimCell_frame n (i:=i) (j:=j) Hinv Hr Hc Hne) as [Eb Ep].
    rewrite Ep. apply Ht; auto. congruence.
Qed.

(** ** The loops of a pass *)

Lemma cellOfKey_range (k : nat) : k < 81 -> k / 9 < 9 /\ k mod 9 < 9 /\ key (k / 9) (k mod 9) = k.
Proof. unfold key. intros. dlia. Qed.

Lemma key_range (i j : nat) : i < 9 -> j < 9 -> key i j < 81 /\ key i j / 9 = i /\ key i j mod 9 = j.
Proof. unfold key. intros. dlia. Qed.

Lemma allCells_keys : allCells = map cellOfKey (seq 0 81).
Proof. reflexivity. Qed.

Lemma trimCells_cons (k0 m : nat) (pz : SudokuPuzzle) (n : Z) :
  trimCells (map cellOfKey (seq k0 (S m))) pz n =
  match trimCell pz n (k0 / 9) (k0 mod 9) with
  | Contradiction pz' => Contradiction pz'
  | Next pz' n' => trimCells (map cellOfKey (seq (S k0) m)) pz' n'
  end.
Proof. reflexivity. Qed.

Lemma trimCells_inv (m : nat) : forall (k0 : nat) (pz : SudokuPuzzle) (n : Z),
  k0 + m <= 81 -> puzzleInv pz ->
  puzzleInv (stepPuzzle (trimCells (map cellOfKey (seq k0 m)) pz n)).
Proof.
  induction m as [|m IH]; intros k0 pz n Hk Hinv; [exact Hinv|].
  rewrite trimCells_cons.
  destruct (@cellOfKey_range k0) as (Hr & Hc & _); [lia|].
  pose proof (trimCell_inv n Hinv Hr Hc) as H1.
  destruct (trimCell pz n (k0 / 9) (k0 mod 9)) as [pz'|pz' n']; simpl in *; auto.
  apply IH; auto. lia.
Qed.

(** A pass changes nothing outside the cells it walks. *)
Lemma trimCells_frame (m : nat) : forall (k0 : nat) (pz : SudokuPuzzle) (n : Z) (i j : nat),
  k0 + m <= 81 -> puzzleInv pz -> i < 9 -> j < 9 ->
  key i j < k0 \/ k0 + m <= key i j ->
  let pz' := stepPuzzle (trimCells (map cellOfKey (seq k0 m)) pz n) in
  getValue (board pz') i j = getValue (board pz) i j /\
  getPoss (possibilities pz') i j = getPoss (possibilities pz) i j.
Proof.
  induction m as [|m IH]; intros k0 pz n i j Hk Hinv Hi Hj Hout; cbv zeta; [simpl; auto|].
  rewrite trimCells_cons.
  destruct (@cellOfKey_range k0) as (Hr & Hc & Hkey); [lia|].
  pose proof (trimCell_inv n Hinv Hr Hc) as H1.
  assert (Hne : i <> k0 / 9 \/ j <> k0 mod 9).
  { destruct (cell_eq_dec i j (k0 / 9) (k0 mod 9)) as [[-> ->]|]; auto; lia. }
  pose proof (trimCell_frame n Hinv Hr Hc Hne) as [F1 F2].
  destruct (trimCell pz n (k0 / 9) (k0 mod 9)) as [pz'|pz' n']; simpl in *; auto.
  destruct (IH (S k0) pz' n' i j) as [G1 G2]; auto; try lia.
  cbv zeta in *. split; congruence.
Qed.

(** A pass never changes a cell that holds a digit. *)
Lemma trimCells_clue (m : nat) : forall (k0 : nat) (pz : SudokuPuzzle) (n : Z) (i j : nat),
  k0 + m <= 81 -> puzzleInv pz -> i < 9 -> j < 9 ->
  getValue (board pz) i j <> 0%Z ->
  getValue (board (stepPuzzle (trimCells (map cellOfKey (seq k0 m)) pz n))) i j
    = getValue (board pz) i j.
Proof.
  induction m as [|m IH]; intros k0 pz n i j Hk Hinv Hi Hj Hnz; [reflexivity|].
  rewrite trimCells_cons.
  destruct (@cellOfKey_range k0) as (Hr & Hc & Hkey); [lia|].
  pose proof (trimCell_inv n Hinv Hr Hc) as H1.
  pose proof (trimCell_clue n Hinv Hr Hc Hi Hj Hnz) as H2.
  destruct (trimCell pz n (k0 / 9) (k0 mod 9)) as [pz'|pz' n']; simpl in *; auto.
  rewrite IH; auto; try lia; congruence.
Qed.

Lemma trimCells_tracked (m : nat) : forall (k0 : nat) (pz : SudokuPuzzle) (n : Z),
  k0 + m <= 81 -> puzzleInv pz -> allTracked pz ->
  allTracked (stepPuzzle (trimCells (map cellOfKey (seq k0 m)) pz n)).
Proof.
  induction m as [|m IH]; intros k0 pz n Hk Hinv Ht; [exact Ht|].
  rewrite trimCells_cons.
  destruct (@cellOfKey_range k0) as (Hr & Hc & _); [lia|].
  pose proof (trimCell_inv n Hinv Hr Hc) as H1.
  pose proof (trimCell_tracked n Hinv Hr Hc Ht) as H2.
  destruct (trimCell pz n (k0 / 9) (k0 mod 9)) as [pz'|pz' n']; simpl in *; auto.
  apply IH; auto. lia.
Qed.

(** What a pass over the places [k0 .. k0+m-1] does at each of them. *)
Lemma trimCells_visit (m : nat) : forall (k0 : nat) (pz : SudokuPuzzle) (n : Z),
  k0 + m <= 81 -> puzzleInv pz ->
  let st := trimCells (map cellOfKey (seq k0 m)) pz n in
  let pz' := stepPuzzle st in
  let visited k :=
    exists bv, visitBoard (board pz) (board pz') bv k /\
      cellOutcome bv (k / 9) (k mod 9)
        (getPoss (possibilities pz) (k / 9) (k mod 9))
        (getPoss (possibilities pz') (k / 9) (k mod 9))
        (getValue (board pz') (k / 9) (k mod 9)) in
  match st with
  | Next _ _ => forall k, k0 <= k < k0 + m -> visited k
  | Contradiction _ =>
      exists K, k0 <= K < k0 + m /\ (forall k, k0 <= k < K -> visited k) /\
        exists s, getPoss (possibilities pz) (K / 9) (K mod 9) = Some s /\
                  workable (board pz') (K / 9) (K mod 9) s = [] /\
                  getPoss (possibilities pz') (K / 9) (K mod 9) = Some []
  end.
Proof.
  induction m as [|m IH]; intros k0 pz n Hk Hinv; cbv zeta.
  - simpl. intros k Hk'. lia.
  - destruct (@cellOfKey_range k0) as (Hr & Hc & Hkey); [lia|].
    pose proof (trimCell_inv n Hinv Hr Hc) as Hinv1.
    pose proof (trimCell_here n Hinv Hr Hc) as Hhere. cbv zeta in Hhere.
    assert (Hfr : forall i j, i < 9 -> j < 9 -> key i j <> k0 ->
              getValue (board (stepPuzzle (trimCell pz n (k0 / 9) (k0 mod 9)))) i j
                = getValue (board pz) i j /\
              getPoss (possibilities (stepPuzzle (trimCell pz n (k0 / 9) (k0 mod 9)))) i j
                = getPoss (possibilities pz) i j).
    { intros i j Hi Hj Hne. apply trimCell_frame; auto.
      destruct (cell_eq_dec i j (k0 / 9) (k0 mod 9)) as [[-> ->]|]; auto; lia. }
    rewrite trimCells_cons.
    destruct (trimCell pz n (k0 / 9) (k0 mod 9)) as [pz1|pz1 n1] eqn:Est;
      cbn [stepPuzzle] in *.
    + destruct Hhere as (s & Eg & Ew & Ep & Eb).
      exists k0. split; [lia|]. split; [intros k Hk'; lia|].
      exists s. rewrite Eb. auto.
    + destruct Hhere as (Hout & _ & _).
      pose proof (IH (S k0) pz1 n1 ltac:(lia) Hinv1) as IH1. cbv zeta in IH1.
      pose proof (fun i j Hi Hj Ho =>
                    @trimCells_frame m (S k0) pz1 n1 i j ltac:(lia) Hinv1 Hi Hj Ho) as Hfr2.
      cbv zeta in Hfr2.
      set (st' := trimCells (map cellOfKey (seq (S k0) m)) pz1 n1) in *.
      assert (First :
        exists bv, visitBoard (board pz) (board (stepPuzzle st')) bv k0 /\
          cellOutcome bv (k0 / 9) (k0 mod 9)
            (getPoss (possibilities pz) (k0 / 9) (k0 mod 9))
            (getPoss (possibilities (stepPuzzle st')) (k0 / 9) (k0 mod 9))
            (getValue (board (stepPuzzle st')) (k0 / 9) (k0 mod 9))).
      { exists (board pz). split.
        - split; [apply (inv_board Hinv)|]. intros i j Hi Hj.
          destruct (Nat.ltb_spec (key i j) k0) as [Hlt|Hge]; auto.
          destruct (Hfr2 i j Hi Hj) as [E1 _]; [lia|].
          destruct (Hfr i j Hi Hj) as [E2 _]; [lia|]. congruence.
        - destruct (Hfr2 (k0 / 9) (k0 mod 9) Hr Hc) as [E1 E2]; [lia|].
          rewrite E1, E2. exact Hout. }
      assert (Later : forall k, S k0 <= k ->
        (exists bv, visitBoard (board pz1) (board (stepPuzzle st')) bv k /\
          cellOutcome bv (k / 9) (k mod 9)
            (getPoss (possibilities pz1) (k / 9) (k mod 9))
            (getPoss (possibilities (stepPuzzle st')) (k / 9) (k mod 9))
            (getValue (board (stepPuzzle st')) (k / 9) (k mod 9))) ->
        k < 81 ->
        exists bv, visitBoard (board pz) (board (stepPuzzle st')) bv k /\
          cellOutcome bv (k / 9) (k mod 9)
            (getPoss (possibilities pz) (k / 9) (k mod 9))
            (getPoss (possibilities (stepPuzzle st')) (k / 9) (k mod 9))
            (getValue (board (stepPuzzle st')) (k / 9) (k mod 9))).
      { intros k Hk1 (bv & [Hw Hv] & Ho) Hk2. exists bv.
        destruct (@cellOfKey_range k) as (Hr' & Hc' & Hkey'); [lia|].
        split.
        - split; auto. intros i j Hi Hj. rewrite (Hv i j Hi Hj).
          destruct (Nat.ltb_spec (key i j) k) as [Hlt|Hge]; auto.
          apply Hfr; auto. lia.
        - destruct (Hfr (k / 9) (k mod 9) Hr' Hc') as [_ E2]; [lia|].
          rewrite <- E2. exact Ho. }
      destruct st' as [pz2|pz2 n2] eqn:Est'; cbn [stepPuzzle] in *.
      * destruct IH1 as (K & HK & Hvis & s & Eg & Ew & Ep).
        exists K. split; [lia|]. split.
        -- intros k Hk'. destruct (Nat.eq_dec k k0) as [->|Hne]; auto.
           apply Later; try lia. apply Hvis. lia.
        -- exists s. split; auto.
           destruct (@cellOfKey_range K) as (Hr' & Hc' & Hkey'); [lia|].
           destruct (Hfr (K / 9) (K mod 9) Hr' Hc') as [_ E2]; [lia|]. congruence.
      * intros k Hk'. destruct (Nat.eq_dec k k0) as [->|Hne]; auto.
        apply Later; try lia. apply IH1. lia.
Qed.

(** The count a pass returns, and the size of the sets it leaves. *)
Lemma trimCells_count (m : nat) : forall (k0 : nat) (pz : SudokuPuzzle) (n : Z),
  k0 + m <= 81 -> puzzleInv pz ->
  match trimCells (map cellOfKey (seq k0 m)) pz n with
  | Contradiction _ => True
  | Next pz' n' =>
      n' = (n + Z.of_nat (length (filter (hasSet (possibilities pz'))
                                         (map cellOfKey (seq k0 m)))))%Z /\
      (forall k s, k0 <= k < k0 + m ->
         getPoss (possibilities pz') (k / 9) (k mod 9) = Some s -> 2 <= length s)
  end.
Proof.
  induction m as [|m IH]; intros k0 pz n Hk Hinv.
  - simpl. split; [lia|]. intros k s Hk'. lia.
  - destruct (@cellOfKey_range k0) as (Hr & Hc & Hkey); [lia|].
    pose proof (trimCell_inv n Hinv Hr Hc) as Hinv1.
    pose proof (trimCell_here n Hinv Hr Hc) as Hhere. cbv zeta in Hhere.
    rewrite trimCells_cons.
    destruct (trimCell pz n (k0 / 9) (k0 mod 9)) as [pz1|pz1 n1] eqn:Est;
      cbn [stepPuzzle] in *; auto.
    destruct Hhere as (_ & Hn1 & Hsz).
    pose proof (IH (S k0) pz1 n1 ltac:(lia) Hinv1) as IH1.
    pose proof (fun i j Hi Hj Ho =>
                  @trimCells_frame m (S k0) pz1 n1 i j ltac:(lia) Hinv1 Hi Hj Ho) as Hfr2.
    cbv zeta in Hfr2.
    destruct (trimCells (map cellOfKey (seq (S k0) m)) pz1 n1) as [pz2|pz2 n2];
      cbn [stepPuzzle] in *; auto.
    destruct IH1 as [Hn2 Hsz2].
    destruct (Hfr2 (k0 / 9) (k0 mod 9) Hr Hc) as [_ E2]; [lia|].
    split.
    + change (map cellOfKey (seq k0 (S m)))
        with ((k0 / 9, k0 mod 9) :: map cellOfKey (seq (S k0) m)).
      cbn [filter]. unfold hasSet at 1. cbn [fst snd]. rewrite E2.
      unfold hasSet in Hn1. cbn [fst snd] in Hn1.
      destruct (getPoss (possibilities pz1) (k0 / 9) (k0 mod 9)); cbn [length]; lia.
    + intros k s Hk' Hs. destruct (Nat.eq_dec k k0) as [->|Hne].
      * rewrite E2 in Hs. destruct Hsz as [Hn|(t & Ht & Hl)]; congruence.
      * apply (Hsz2 k s); auto. lia.
Qed.

(** ** The tracked minimum *)

Lemma ascending_length (s : IntSet) : forall lo : Z,
  StronglySorted Z.lt s -> (forall v, In v s -> (lo <= v <= 9)%Z) ->
  (lo <= 10)%Z -> (Z.of_nat (length s) <= 10 - lo)%Z.
Proof.
  induction s as [|a s IH]; intros lo Hs Hd Hlo; simpl length; [lia|].
  inversion Hs as [|? ? Hs' Hall]; subst. rewrite Forall_forall in Hall.
  assert (Ha : (lo <= a <= 9)%Z) by (apply Hd; now left).
  specialize (IH (a + 1)%Z Hs').
  assert ((Z.of_nat (length s) <= 10 - (a + 1))%Z).
  { apply IH; [|lia]. intros v Hv. specialize (Hall v Hv).
    specialize (Hd v (or_intror Hv)). lia. }
  lia.
Qed.

Lemma candidateSet_length (s : IntSet) : candidateSet s -> length s <= 9.
Proof.
  intros [Hs Hd]. pose proof (@ascending_length s 1 Hs Hd ltac:(lia)). lia.
Qed.

Lemma trimCell_minTracked (pz : SudokuPuzzle) (n : Z) (k0 : nat) :
  puzzleInv pz -> k0 < 81 -> minTracked pz k0 ->
  match trimCell pz n (k0 / 9) (k0 mod 9) with
  | Contradiction _ => True
  | Next pz1 _ => minTracked pz1 (S k0)
  end.
Proof.
  intros Hinv Hk [Hall Hmin].
  destruct (@cellOfKey_range k0 Hk) as (Hr & Hc & Hkey).
  assert (Hoth : forall p k x, k < k0 ->
            getPoss (setPoss p (k0 / 9) (k0 mod 9) x) (k / 9) (k mod 9)
            = getPoss p (k / 9) (k mod 9)).
  { intros p k x Hlt. apply getPoss_setPoss_other.
    destruct (@cellOfKey_range k) as (Hr' & Hc' & Hkey'); [lia|].
    destruct (cell_eq_dec (k0 / 9) (k0 mod 9) (k / 9) (k mod 9)) as [[E1 E2]|]; auto.
    rewrite E1, E2 in Hkey. lia. }
  assert (Hoth' : forall p x, key (minRow pz) (minCol pz) < k0 ->
            minRow pz < 9 -> minCol pz < 9 ->
            getPoss (setPoss p (k0 / 9) (k0 mod 9) x) (minRow pz) (minCol pz)
            = getPoss p (minRow pz) (minCol pz)).
  { intros p x Hlt H1 H2. apply getPoss_setPoss_other.
    destruct (cell_eq_dec (k0 / 9) (k0 mod 9) (minRow pz) (minCol pz)) as [[E1 E2]|]; auto.
    rewrite E1, E2 in Hkey. lia. }
  destruct (trimCell_cases n Hinv Hr Hc) as [[Eg ->]|(s & Eg & Hcase)].
  - split.
    + intros k t Hlt Ht. destruct (Nat.eq_dec k k0) as [->|Hne]; [congruence|].
      apply Hall; auto. lia.
    + destruct Hmin as [H10|(H1 & H2 & H3 & H4)]; auto. right. repeat split; auto.
  - cbv zeta in Hcase.
    pose proof (workable_candidateSet (board pz) (k0 / 9) (k0 mod 9)
                  (inv_digits Hinv Hr Hc Eg)) as Hcs.
    apply candidateSet_length in Hcs.
    pose proof (inv_poss Hinv) as Hp.
    destruct Hcase as [[Ek ->]|[(v & Ek & ->)|[Hlen ->]]]; auto.
    + split; cbn [possibilities minPossibilities minRow minCol].
      * intros k t Hlt Ht. destruct (Nat.eq_dec k k0) as [->|Hne].
        -- rewrite getPoss_setPoss_same in Ht by auto using setPoss_wf. discriminate.
        -- rewrite !Hoth in Ht by lia. apply Hall; auto. lia.
      * destruct Hmin as [H10|(H1 & H2 & H3 & t & H4 & H5)]; auto. right.
        repeat split; auto. exists t. rewrite !Hoth' by auto. auto.
    + destruct (Z.ltb_spec (Z.of_nat (length (workable (board pz) (k0 / 9) (k0 mod 9) s)))
                  (minPossibilities pz)) as [Hlt|Hge];
        split; cbn [possibilities minPossibilities minRow minCol].
      * intros k t Hk' Ht. destruct (Nat.eq_dec k k0) as [->|Hne].
        -- rewrite getPoss_setPoss_same in Ht by auto. assert (Et : t = workable (board pz) (k0 / 9) (k0 mod 9) s) by congruence; rewrite Et. split; [lia | intros _; rewrite Hkey; lia].
        -- rewrite Hoth in Ht by lia. destruct (Hall k t ltac:(lia) Ht). split; lia.
      * right. repeat split; auto; try lia. eexists. split; eauto.
        now rewrite getPoss_setPoss_same.
      * intros k t Hk' Ht. destruct (Nat.eq_dec k k0) as [->|Hne].
        -- rewrite getPoss_setPoss_same in Ht by auto. assert (Et : t = workable (board pz) (k0 / 9) (k0 mod 9) s) by congruence; rewrite Et. split; [lia|].
           intros E. destruct Hmin as [H10|(H1 & H2 & H3 & _)]; lia.
        -- rewrite Hoth in Ht by lia. apply Hall; auto. lia.
      * destruct Hmin as [H10|(H1 & H2 & H3 & t & H4 & H5)]; auto. right.
        repeat split; auto. exists t. rewrite Hoth' by auto. auto.
Qed.

Lemma trimCells_minTracked (m : nat) : forall (k0 : nat) (pz : SudokuPuzzle) (n : Z),
  k0 + m <= 81 -> puzzleInv pz -> minTracked pz k0 ->
  match trimCells (map cellOfKey (seq k0 m)) pz n with
  | Contradiction _ => True
  | Next pz' _ => minTracked pz' (k0 + m)
  end.
Proof.
  induction m as [|m IH]; intros k0 pz n Hk Hinv Hmin.
  - simpl. now rewrite Nat.add_0_r.
  - destruct (@cellOfKey_range k0) as (Hr & Hc & Hkey); [lia|].
    pose proof (trimCell_inv n Hinv Hr Hc) as Hinv1.
    pose proof (@trimCell_minTracked pz n k0 Hinv ltac:(lia) Hmin) as H1.
    rewrite trimCells_cons.
    destruct (trimCell pz n (k0 / 9) (k0 mod 9)) as [pz1|pz1 n1]; auto.
    cbn [stepPuzzle] in *.
    replace (k0 + S m) with (S k0 + m) by lia. apply IH; auto. lia.
Qed.

(** ** A whole pass *)

Lemma withMin_inv (pz : SudokuPuzzle) (n : Z) (r c : nat) :
  puzzleInv pz -> puzzleInv (withMin pz n r c).
Proof. intros [H1 H2 H3 H4]. constructor; auto. Qed.

Lemma allCells_range (cell : nat * nat) :
  In cell allCells -> fst cell < 9 /\ snd cell < 9.
Proof.
  rewrite allCells_keys. intros H. apply in_map_iff in H.
  destruct H as (k & <- & Hk). apply in_seq in Hk.
  destruct (@cellOfKey_range k) as (Hr & Hc & _); [lia|]. simpl. auto.
Qed.

Lemma count_blank_sets (pz : SudokuPuzzle) :
  puzzleInv pz -> allTracked pz ->
  countBlank (board pz) = countSets (possibilities pz).
Proof.
  intros Hinv Ht. unfold countBlank, countSets. f_equal.
  apply filter_ext_in. intros [r c] Hin.
  destruct (allCells_range Hin) as [Hr Hc]. simpl in *. unfold hasSet. simpl.
  destruct (getPoss (possibilities pz) r c) as [s|] eqn:Eg.
  - rewrite (inv_blank Hinv Hr Hc Eg). reflexivity.
  - destruct (Z.eqb_spec (getValue (board pz) r c) 0) as [E|E]; auto.
    exfalso. now apply (Ht r c Hr Hc E).
Qed.

Lemma setAllPossibilities_inv (pz : SudokuPuzzle) :
  wfBoard (board pz) ->
  puzzleInv (setAllPossibilities pz) /\ allTracked (setAllPossibilities pz).
Proof.
  intros Hw. split.
  - constructor; simpl; auto using tabulate_wf.
    + intros r c s Hr Hc. unfold getPoss. rewrite get2_tabulate by auto.
      destruct (Z.eqb_spec (getValue (board pz) r c) 0); [auto|discriminate].
    + intros r c s Hr Hc. unfold getPoss. rewrite get2_tabulate by auto.
      destruct (Z.eqb_spec (getValue (board pz) r c) 0); [|discriminate].
      intros E. injection E as <-. apply candidateSet_oneToNine.
  - intros r c Hr Hc H0. simpl in *. unfold getPoss. rewrite get2_tabulate by auto.
    rewrite H0. discriminate.
Qed.

Lemma trimPossibilities_inv (pz : SudokuPuzzle) :
  puzzleInv pz -> puzzleInv (snd (trimPossibilities pz)).
Proof.
  intros Hinv. unfold trimPossibilities. rewrite allCells_keys.
  pose proof (@trimCells_inv 81 0 (withMin pz 10 10 10) 0 ltac:(lia)
                (withMin_inv 10 10 10 Hinv)) as H.
  destruct (trimCells _ _ _); exact H.
Qed.

Lemma trimPossibilities_tracked (pz : SudokuPuzzle) :
  puzzleInv pz -> allTracked pz -> allTracked (snd (trimPossibilities pz)).
Proof.
  intros Hinv Ht. unfold trimPossibilities. rewrite allCells_keys.
  pose proof (@trimCells_tracked 81 0 (withMin pz 10 10 10) 0 ltac:(lia)
                (withMin_inv 10 10 10 Hinv) Ht) as H.
  destruct (trimCells _ _ _); exact H.
Qed.

Lemma trimPossibilities_clue (pz : SudokuPuzzle) (r c : nat) :
  puzzleInv pz -> r < 9 -> c < 9 -> getValue (board pz) r c <> 0%Z ->
  getValue (board (snd (trimPossibilities pz))) r c = getValue (board pz) r c.
Proof.
  intros Hinv Hr Hc Hnz. unfold trimPossibilities. rewrite allCells_keys.
  pose proof (@trimCells_clue 81 0 (withMin pz 10 10 10) 0 r c ltac:(lia)
                (withMin_inv 10 10 10 Hinv) Hr Hc Hnz) as H.
  destruct (trimCells _ _ _); exact H.
Qed.

(** The int a pass returns: -1, or the number of sets it leaves, each of
    them with two candidates or more. *)
Lemma trimPossibilities_count (pz : SudokuPuzzle) :
  puzzleInv pz ->
  let (n, pz') := trimPossibilities pz in
  n = (-1)%Z \/
  (n = Z.of_nat (countSets (possibilities pz')) /\
   forall r c s, r < 9 -> c < 9 ->
     getPoss (possibilities pz') r c = Some s -> 2 <= length s).
Proof.
  intros Hinv. unfold trimPossibilities, countSets. rewrite allCells_keys.
  pose proof (@trimCells_count 81 0 (withMin pz 10 10 10) 0 ltac:(lia)
                (withMin_inv 10 10 10 Hinv)) as H.
  destruct (trimCells _ _ _) as [pz'|pz' n']; [now left|right].
  destruct H as [Hn Hs]. split; [lia|].
  intros r c s Hr Hc Hg. destruct (key_range Hr Hc) as (Hk & E1 & E2).
  apply (Hs (key r c) s); [lia|]. now rewrite E1, E2.
Qed.

Lemma countSets_le_81 p : countSets p <= 81.
Proof.
  unfold countSets. etransitivity; [apply filter_length_le|]. reflexivity.
Qed.

(** One pass over an object whose candidate sets stand exactly at the blank
    cells, cell by cell.  Either it returns -1 at a cell none of whose
    candidates is workable, the cells before it treated as [cellOutcome]
    says; or every cell was treated so, candidate sets stand again exactly
    at the blank cells, and the int returned is the number of blank
    cells. *)
Lemma trimPossibilities_outcomes (pz : SudokuPuzzle) :
  puzzleInv pz -> allTracked pz ->
  let n := fst (trimPossibilities pz) in
  let pz' := snd (trimPossibilities pz) in
  let visited r c :=
    exists bv, visitBoard (board pz) (board pz') bv (key r c) /\
      cellOutcome bv r c (getPoss (possibilities pz) r c)
        (getPoss (possibilities pz') r c) (getValue (board pz') r c) in
  (n = (-1)%Z /\
   exists r c, r < 9 /\ c < 9 /\
     (forall i j, i < 9 -> j < 9 -> key i j < key r c -> visited i j) /\
     exists s, getPoss (possibilities pz) r c = Some s /\
               workable (board pz') r c s = [] /\
               getPoss (possibilities pz') r c = Some [])
  \/
  (n = Z.of_nat (countBlank (board pz')) /\
   (forall r c, r < 9 -> c < 9 -> visited r c) /\
   puzzleInv pz' /\ allTracked pz').
Proof.
  intros Hinv Ht. cbv zeta.
  pose proof (withMin_inv 10 10 10 Hinv) as Hinv0.
  assert (Hle : 0 + 81 <= 81) by lia.
  pose proof (@trimCells_inv 81 0 _ 0 Hle Hinv0) as Hinv'.
  pose proof (@trimCells_tracked 81 0 _ 0 Hle Hinv0 Ht) as Ht'.
  pose proof (@trimCells_count 81 0 _ 0 Hle Hinv0) as Hcount.
  pose proof (@trimCells_visit 81 0 _ 0 Hle Hinv0) as Hv.
  cbv zeta in Hv.
  unfold trimPossibilities. rewrite allCells_keys.
  destruct (trimCells (map cellOfKey (seq 0 81)) (withMin pz 10 10 10) 0)
    as [pz'|pz' n']; cbn [fst snd stepPuzzle] in *.
  - left. split; auto. destruct Hv as (K & HK & Hvis & s & Eg & Ew & Ep).
    destruct (@cellOfKey_range K) as (Hr & Hc & Hkey); [lia|].
    exists (K / 9), (K mod 9). split; auto. split; auto.
    split; [|exists s; auto].
    intros i j Hi Hj Hlt. destruct (key_range Hi Hj) as (Hk & E1 & E2).
    specialize (Hvis (key i j) ltac:(lia)). now rewrite E1, E2 in Hvis.
  - right. split; [|split; auto].
    + destruct Hcount as [Hc _].
      rewrite (count_blank_sets Hinv' Ht'). unfold countSets.
      rewrite allCells_keys. lia.
    + intros r c Hr Hc. destruct (key_range Hr Hc) as (Hk & E1 & E2).
      specialize (Hv (key r c) ltac:(lia)). now rewrite E1, E2 in Hv.
Qed.


(** ** Cloning and copying back *)

Lemma tabulate_getValue (b : Board) :
  wfBoard b -> tabulate (fun row col => getValue b row col) = b.
Proof.
  intros Hw. apply board_ext; auto using tabulate_wf.
  - apply tabulate_wf.
  - intros r c Hr Hc. unfold getValue at 1. now rewrite get2_tabulate.
Qed.

Lemma newPuzzle_board (b : Board) : wfBoard b -> board (newPuzzle b) = b.
Proof. intros Hw. simpl. now apply tabulate_getValue. Qed.

Lemma subPuzzleFor_board (pz : SudokuPuzzle) (v : Z) :
  wfBoard (board pz) ->
  board (subPuzzleFor pz v) = setValue (board pz) (minRow pz) (minCol pz) v.
Proof.
  intros Hw. unfold subPuzzleFor. cbv zeta. cbn [board withBoard].
  now rewrite newPuzzle_board.
Qed.

Lemma copyLoop_spec (subBoard : Board) (m : nat) : forall (k0 : nat) (b : Board),
  k0 + m <= 81 -> wfBoard b ->
  let b' := fold_left (copyStep subBoard) (map cellOfKey (seq k0 m)) b in
  wfBoard b' /\
  forall r c, r < 9 -> c < 9 ->
    getValue b' r c =
      if (k0 <=? key r c) && (key r c <? k0 + m) && (getValue b r c =? 0)%Z
      then getValue subBoard r c else getValue b r c.
Proof.
  induction m as [|m IH]; intros k0 b Hk Hw; cbv zeta.
  - simpl. split; auto. intros r c Hr Hc.
    destruct (Nat.leb_spec k0 (key r c)); destruct (Nat.ltb_spec (key r c) (k0 + 0));
      simpl; auto; lia.
  - destruct (@cellOfKey_range k0) as (Hr0 & Hc0 & Hkey); [lia|].
    change (map cellOfKey (seq k0 (S m)))
      with ((k0 / 9, k0 mod 9) :: map cellOfKey (seq (S k0) m)).
    cbn [fold_left].
    set (b1 := copyStep subBoard b (k0 / 9, k0 mod 9)).
    assert (Eb1 : b1 = if (getValue b (k0 / 9) (k0 mod 9) =? 0)%Z
               then setValue b (k0 / 9) (k0 mod 9) (getValue subBoard (k0 / 9) (k0 mod 9))
               else b) by reflexivity.
    clearbody b1.
    assert (Hw1 : wfBoard b1) by (rewrite Eb1; destruct (_ =? _)%Z; auto using setValue_wf).
    destruct (IH (S k0) b1 ltac:(lia) Hw1) as [Hw' Hv]. split; auto.
    intros r c Hr Hc. rewrite (Hv r c Hr Hc).
    destruct (cell_eq_dec r c (k0 / 9) (k0 mod 9)) as [[-> ->]|Hne].
    + rewrite Hkey.
      replace (S k0 <=? k0) with false by (symmetry; apply Nat.leb_gt; lia).
      replace (k0 <=? k0) with true by (symmetry; apply Nat.leb_le; lia).
      replace (k0 <? k0 + S m) with true by (symmetry; apply Nat.ltb_lt; lia).
      cbn [andb]. rewrite Eb1.
      destruct (Z.eqb_spec (getValue b (k0 / 9) (k0 mod 9)) 0); auto.
      now rewrite getValue_setValue_same.
    + assert (Hk' : key r c <> k0).
      { intros E. rewrite <- E in Hne. destruct (key_range Hr Hc) as (_ & E1 & E2). lia. }
      assert (E1 : getValue b1 r c = getValue b r c).
      { rewrite Eb1. destruct (_ =? _)%Z; auto. apply getValue_setValue_other. lia. }
      rewrite E1. replace (k0 + S m) with (S k0 + m) by lia.
      destruct (Nat.leb_spec (S k0) (key r c)); destruct (Nat.leb_spec k0 (key r c));
        auto; lia.
Qed.

Lemma copyBack_spec (b subBoard : Board) :
  wfBoard b ->
  wfBoard (copyBack b subBoard) /\
  forall r c, r < 9 -> c < 9 ->
    getValue (copyBack b subBoard) r c =
      if (getValue b r c =? 0)%Z then getValue subBoard r c else getValue b r c.
Proof.
  intros Hw. unfold copyBack. rewrite allCells_keys.
  destruct (@copyLoop_spec subBoard 81 0 b ltac:(lia) Hw) as [Hw' Hv].
  split; [exact Hw'|]. intros r c Hr Hc.
  rewrite (Hv r c Hr Hc). destruct (key_range Hr Hc) as (Hk & _ & _).
  replace (0 <=? key r c) with true by (symmetry; apply Nat.leb_le; lia).
  replace (key r c <? 0 + 81) with true by (symmetry; apply Nat.ltb_lt; lia).
  reflexivity.
Qed.

(** ** The loop over the candidates of the tracked cell *)

Lemma tryCandidates_false (subsolve : SudokuPuzzle -> Outcome) (pz pz' : SudokuPuzzle)
    (cands : list Z) :
  tryCandidates subsolve pz cands = Returns false pz' <->
  pz' = pz /\
  forall u, In u cands -> exists x, subsolve (subPuzzleFor pz u) = Returns false x.
Proof.
  induction cands as [|v rest IH]; simpl.
  - split.
    + intros E. injection E as <-. split; auto. intros u [].
    + intros [-> _]. reflexivity.
  - destruct (subsolve (subPuzzleFor pz v)) as [[|] x| |] eqn:Es.
    + split; [discriminate|]. intros [_ H].
      destruct (H v (or_introl eq_refl)) as [y Hy]. congruence.
    + rewrite IH. split; intros [-> H]; split; auto.
      intros u [<-|Hu]; eauto.
    + split; [discriminate|]. intros [_ H].
      destruct (H v (or_introl eq_refl)) as [y Hy]. congruence.
    + split; [discriminate|]. intros [_ H].
      destruct (H v (or_introl eq_refl)) as [y Hy]. congruence.
Qed.

Lemma tryCandidates_true (subsolve : SudokuPuzzle -> Outcome) (pz pz' : SudokuPuzzle)
    (cands : list Z) :
  tryCandidates subsolve pz cands = Returns true pz' <->
  exists before v after solvedSub,
    cands = before ++ v :: after /\
    (forall u, In u before -> exists x, subsolve (subPuzzleFor pz u) = Returns false x) /\
    subsolve (subPuzzleFor pz v) = Returns true solvedSub /\
    pz' = withBoard pz (copyBack (board pz) (board solvedSub)).
Proof.
  induction cands as [|v rest IH]; simpl.
  - split; [discriminate|]. intros (before & v & after & s & E & _).
    destruct before; discriminate.
  - destruct (subsolve (subPuzzleFor pz v)) as [[|] x| |] eqn:Es.
    + split.
      * intros E. injection E as <-. exists [], v, rest, x. simpl. repeat split; auto.
        intros u [].
      * intros (before & w & after & s & E & Hb & Hs & ->).
        destruct before as [|u before]; simpl in E; injection E as E1 E2; subst.
        -- congruence.
        -- destruct (Hb _ (or_introl eq_refl)) as [y Hy]. congruence.
    + rewrite IH. split.
      * intros (before & w & after & s & -> & Hb & Hs & ->).
        exists (v :: before), w, after, s. simpl. repeat split; auto.
        intros u [<-|Hu]; eauto.
      * intros (before & w & after & s & E & Hb & Hs & ->).
        destruct before as [|u before]; simpl in E; injection E as E1 E2; subst.
        -- congruence.
        -- exists before, w, after, s. repeat split; auto.
           intros u' Hu'. apply Hb. now right.
    + split; [discriminate|].
      intros (before & w & after & s & E & Hb & Hs & ->).
      destruct before as [|u before]; simpl in E; injection E as E1 E2; subst.
      * congruence.
      * destruct (Hb _ (or_introl eq_refl)) as [y Hy]. congruence.
    + split; [discriminate|].
      intros (before & w & after & s & E & Hb & Hs & ->).
      destruct before as [|u before]; simpl in E; injection E as E1 E2; subst.
      * congruence.
      * destruct (Hb _ (or_introl eq_refl)) as [y Hy]. congruence.
Qed.

(** ** The loop of [solve] *)

(** What [solve]'s loop returns is the object as the passes leave it, or
    that object with the values of a solved sub-puzzle copied into its
    blanks. *)
Lemma whileLoop_propagate (subsolve : SudokuPuzzle -> Outcome) (iters : nat) :
  forall (pz : SudokuPuzzle) (prev : Z) (res : bool) (pz' : SudokuPuzzle),
  whileLoop iters subsolve pz prev = Returns res pz' ->
  exists pzp, propagate iters pz prev = Some pzp /\
    (pz' = pzp \/
     (res = true /\
      exists s v solvedSub,
        getPoss (possibilities pzp) (minRow pzp) (minCol pzp) = Some s /\ In v s /\
        subsolve (subPuzzleFor pzp v) = Returns true solvedSub /\
        pz' = withBoard pzp (copyBack (board pzp) (board solvedSub)))).
Proof.
  induction iters as [|k IH]; intros pz prev res pz' H; simpl in *; [discriminate|].
  destruct (trimPossibilities pz) as [n pz1].
  destruct (n =? -1)%Z; [injection H as <- <-; eauto|].
  destruct (n =? 0)%Z; [injection H as <- <-; eauto|].
  destruct (n =? prev)%Z; [|now apply IH].
  exists pz1. split; auto.
  destruct (getPoss (possibilities pz1) (minRow pz1) (minCol pz1)) as [s|] eqn:Eg;
    [|discriminate].
  destruct res.
  - right. split; auto. apply tryCandidates_true in H.
    destruct H as (before & v & after & solved & -> & _ & Hs & ->).
    exists (before ++ v :: after), v, solved. repeat split; auto.
    apply in_or_app. right. now left.
  - left. apply tryCandidates_false in H. tauto.
Qed.

Lemma propagate_inv (iters : nat) : forall (pz : SudokuPuzzle) (prev : Z) (pzp : SudokuPuzzle),
  puzzleInv pz -> propagate iters pz prev = Some pzp ->
  puzzleInv pzp /\ (allTracked pz -> allTracked pzp) /\
  forall r c, r < 9 -> c < 9 -> getValue (board pz) r c <> 0%Z ->
    getValue (board pzp) r c = getValue (board pz) r c.
Proof.
  induction iters as [|k IH]; intros pz prev pzp Hinv H; simpl in *; [discriminate|].
  pose proof (trimPossibilities_inv Hinv) as H1.
  pose proof (trimPossibilities_tracked Hinv) as H2.
  pose proof (fun r c => @trimPossibilities_clue pz r c Hinv) as H3.
  destruct (trimPossibilities pz) as [n pz1]. simpl in *.
  assert (Done : puzzleInv pz1 /\ (allTracked pz -> allTracked pz1) /\
            forall r c, r < 9 -> c < 9 -> getValue (board pz) r c <> 0%Z ->
              getValue (board pz1) r c = getValue (board pz) r c) by auto.
  destruct (n =? -1)%Z; [injection H as <-; exact Done|].
  destruct (n =? 0)%Z; [injection H as <-; exact Done|].
  destruct (n =? prev)%Z; [injection H as <-; exact Done|].
  destruct (IH pz1 n pzp H1 H) as (I1 & I2 & I3). split; auto. split; auto.
  intros r c Hr Hc Hnz. rewrite I3; auto. rewrite H3; auto.
Qed.

(** A cell that holds a digit when [solve] is called holds the same digit
    when it returns. *)
Lemma solve_clues_kept (depth iters : nat) (pz pz' : SudokuPuzzle) (res : bool) :
  wfBoard (board pz) ->
  solve depth iters pz = Returns res pz' ->
  forall r c, r < 9 -> c < 9 -> getValue (board pz) r c <> 0%Z ->
    getValue (board pz') r c = getValue (board pz) r c.
Proof.
  intros Hw H r c Hr Hc Hnz. destruct depth as [|d]; simpl in H; [discriminate|].
  destruct (setAllPossibilities_inv pz Hw) as [Hinv _].
  apply whileLoop_propagate in H. destruct H as (pzp & Hp & Hres).
  destruct (propagate_inv _ _ Hinv Hp) as (Hinvp & _ & Hclue).
  specialize (Hclue r c Hr Hc Hnz). simpl in Hclue.
  destruct Hres as [->|(_ & s & v & solved & _ & _ & _ & ->)]; auto.
  simpl. destruct (copyBack_spec (board solved) (inv_board Hinvp)) as [_ Hcopy].
  rewrite (Hcopy r c Hr Hc), Hclue.
  destruct (Z.eqb_spec (getValue (board pz) r c) 0); [contradiction|reflexivity].
Qed.

(** The object [solve] returns with, in terms of the object the passes
    leave. *)
Lemma solve_after_propagate (depth iters : nat) (pz pz' : SudokuPuzzle) (res : bool) :
  solve depth iters pz = Returns res pz' ->
  exists pzp, propagate iters (setAllPossibilities pz) 50 = Some pzp /\
    (res = false -> pz' = pzp) /\
    (pz' = pzp \/
     exists v solvedSub,
       solve (pred depth) iters (subPuzzleFor pzp v) = Returns true solvedSub /\
       pz' = withBoard pzp (copyBack (board pzp) (board solvedSub))).
Proof.
  intros H. destruct depth as [|d]; simpl in H; [discriminate|].
  apply whileLoop_propagate in H. destruct H as (pzp & Hp & Hres).
  exists pzp. split; auto. split.
  - intros ->. destruct Hres as [E|[E _]]; [auto|discriminate].
  - destruct Hres as [E|(_ & s & v & solved & _ & _ & Hs & E)]; auto.
    right. exists v, solved. auto.
Qed.

(** ** The cell the search branches on *)

Lemma filter_nonempty (A : Type) (f : A -> bool) (l : list A) :
  length (filter f l) <> 0 -> exists x, In x l /\ f x = true.
Proof.
  intros H. destruct (filter f l) as [|x t] eqn:E; [simpl in H; lia|].
  exists x. apply filter_In. rewrite E. now left.
Qed.

(** After a pass that leaves blank cells, [minRow], [minCol] is the first
    cell, in the order of the loops, among those with the smallest set. *)
Lemma trimPossibilities_min (pz : SudokuPuzzle) :
  puzzleInv pz ->
  let n := fst (trimPossibilities pz) in
  let pz1 := snd (trimPossibilities pz) in
  n <> (-1)%Z -> n <> 0%Z ->
  minRow pz1 < 9 /\ minCol pz1 < 9 /\
  exists s, getPoss (possibilities pz1) (minRow pz1) (minCol pz1) = Some s /\
    2 <= length s /\
    forall r c s', r < 9 -> c < 9 -> getPoss (possibilities pz1) r c = Some s' ->
      length s <= length s' /\
      (length s' = length s -> key (minRow pz1) (minCol pz1) <= key r c).
Proof.
  intros Hinv. cbv zeta.
  pose proof (withMin_inv 10 10 10 Hinv) as Hinv0.
  assert (Hle : 0 + 81 <= 81) by lia.
  pose proof (@trimCells_inv 81 0 _ 0 Hle Hinv0) as Hinv'.
  pose proof (@trimCells_count 81 0 _ 0 Hle Hinv0) as Hcount.
  assert (Hmin0 : minTracked (withMin pz 10 10 10) 0).
  { split; [intros k s Hk; lia | now left]. }
  pose proof (@trimCells_minTracked 81 0 _ 0 Hle Hinv0 Hmin0) as Hmin.
  unfold trimPossibilities. rewrite allCells_keys.
  destruct (trimCells (map cellOfKey (seq 0 81)) (withMin pz 10 10 10) 0)
    as [pz1|pz1 n]; cbn [fst snd stepPuzzle] in *; [congruence|].
  intros _ Hn0. destruct Hcount as [Hn Hsz]. destruct Hmin as [Hall Hm].
  assert (Hex : exists k s', k < 81 /\
            getPoss (possibilities pz1) (k / 9) (k mod 9) = Some s').
  { destruct (@filter_nonempty _ (hasSet (possibilities pz1)) (map cellOfKey (seq 0 81)))
      as ([r c] & Hin & Hs); [lia|].
    apply in_map_iff in Hin. destruct Hin as (k & E & Hk). apply in_seq in Hk.
    assert (r = k / 9 /\ c = k mod 9) as [-> ->]
      by (unfold cellOfKey in E; split; congruence).
    unfold hasSet in Hs. cbn [fst snd] in Hs.
    destruct (getPoss (possibilities pz1) (k / 9) (k mod 9)) as [s'|] eqn:Eg;
      [|discriminate].
    exists k, s'. split; [lia|auto]. }
  destruct Hex as (k & s' & Hk & Eg).
  destruct (@cellOfKey_range k Hk) as (Hr & Hc & _).
  pose proof (candidateSet_length (inv_digits Hinv' Hr Hc Eg)) as Hlen.
  destruct (Hall k s' ltac:(lia) Eg) as [Hle' _].
  destruct Hm as [H10|(H1 & H2 & H3 & s & Es & El)]; [lia|].
  split; auto. split; auto. exists s. split; auto. split.
  - destruct (key_range H1 H2) as (Hk2 & E1 & E2).
    apply (Hsz (key (minRow pz1) (minCol pz1)) s); [lia|]. now rewrite E1, E2.
  - intros r c t Hr' Hc' Et. destruct (key_range Hr' Hc') as (Hk2 & E1 & E2).
    destruct (Hall (key r c) t ltac:(lia)) as [A1 A2]; [now rewrite E1, E2|].
    split; [lia|]. intros E. apply A2. lia.
Qed.

(** C2: when a pass leaves as many blank cells as the pass before
    ([numBlank == prevNumBlank], with blank cells left), the loop of [solve]
    hands over to the loop over the candidates of the cell [minRow],
    [minCol].  That cell is blank, no blank cell has fewer candidates, and
    among those with as few it has the lowest row and then the lowest
    column.  Its candidates are tried in ascending order, each on a clone of
    the board with the candidate in that cell; the first clone whose [solve]
    returns true ends the loop, its values are copied into the blanks of this
    board and no further candidate is tried; false is returned when [solve]
    returned false for every candidate, and then the object is as the pass
    left it. *)
Theorem solve_branches_on_min_cell (subsolve : SudokuPuzzle -> Outcome)
    (iters : nat) (pz : SudokuPuzzle) (prevNumBlank : Z) :
  puzzleInv pz ->
  let n := fst (trimPossibilities pz) in
  let pz1 := snd (trimPossibilities pz) in
  n = prevNumBlank -> n <> (-1)%Z -> n <> 0%Z ->
  exists s,
    (minRow pz1 < 9 /\ minCol pz1 < 9 /\
     getPoss (possibilities pz1) (minRow pz1) (minCol pz1) = Some s /\
     getValue (board pz1) (minRow pz1) (minCol pz1) = 0%Z /\
     forall r c s', r < 9 -> c < 9 -> getPoss (possibilities pz1) r c = Some s' ->
       length s <= length s' /\
       (length s' = length s ->
        minRow pz1 < r \/ (minRow pz1 = r /\ minCol pz1 <= c))) /\
    StronglySorted Z.lt s /\
    whileLoop (S iters) subsolve pz prevNumBlank = tryCandidates subsolve pz1 s /\
    (forall v, board (subPuzzleFor pz1 v)
               = setValue (board pz1) (minRow pz1) (minCol pz1) v) /\
    (forall pz', tryCandidates subsolve pz1 s = Returns true pz' <->
       exists before v after solvedSub,
         s = before ++ v :: after /\
         (forall u, In u before ->
            exists x, subsolve (subPuzzleFor pz1 u) = Returns false x) /\
         subsolve (subPuzzleFor pz1 v) = Returns true solvedSub /\
         pz' = withBoard pz1 (copyBack (board pz1) (board solvedSub))) /\
    (forall pz', tryCandidates subsolve pz1 s = Returns false pz' <->
       pz' = pz1 /\
       forall u, In u s -> exists x, subsolve (subPuzzleFor pz1 u) = Returns false x) /\
    (forall sb r c, r < 9 -> c < 9 ->
       getValue (copyBack (board pz1) sb) r c =
         if (getValue (board pz1) r c =? 0)%Z then getValue sb r c
         else getValue (board pz1) r c).
Proof.
  intros Hinv. cbv zeta. intros Hprev Hn1 Hn0.
  pose proof (trimPossibilities_inv Hinv) as Hinv1.
  destruct (trimPossibilities_min Hinv Hn1 Hn0) as (Hr & Hc & s & Es & Hlen & Hmin).
  exists s. split; [|split; [|split; [|split; [|split; [|split]]]]].
  - repeat split; auto.
    + exact (inv_blank Hinv1 Hr Hc Es).
    + now apply (Hmin r c s').
    + intros E. destruct (Hmin r c s' H H0 H1) as [_ Hk]. specialize (Hk E).
      unfold key in Hk. lia.
  - exact (proj1 (inv_digits Hinv1 Hr Hc Es)).
  - simpl. destruct (trimPossibilities pz) as [n pz1]. cbn [fst snd] in *.
    destruct (Z.eqb_spec n (-1)); [contradiction|].
    destruct (Z.eqb_spec n 0); [contradiction|].
    destruct (Z.eqb_spec n prevNumBlank); [|contradiction].
    now rewrite Es.
  - intros v. apply subPuzzleFor_board. exact (inv_board Hinv1).
  - intros pz'. apply tryCandidates_true.
  - intros pz'. apply tryCandidates_false.
  - intros sb r c. apply copyBack_spec. exact (inv_board Hinv1).
Qed.

Lemma solve_branches_on_min_cell_witness :
  exists s,
    getPoss (possibilities (snd (trimPossibilities (setAllPossibilities (newPuzzle (repeat (repeat 0%Z 9) 9))))))
      0 0 = Some s /\ StronglySorted Z.lt s.
Proof.
  destruct (@solve_branches_on_min_cell (solve 0 0) 0
              (setAllPossibilities (newPuzzle (repeat (repeat 0%Z 9) 9))) 81)
    as (s & (_ & _ & Hs & _) & Hsorted & _).
  - apply setAllPossibilities_inv. apply tabulate_wf.
  - vm_compute. reflexivity.
  - vm_compute. discriminate.
  - vm_compute. discriminate.
  - exists s. split; [exact Hs | exact Hsorted].
Defined.

(** ** The constant 50 *)

(** C3 fails on the code: [prevNumBlank] starts at 50, which a board can
    exceed.  [fiftyAfterFirstPass] has 51 blank cells; the first pass fills
    (8,8) and returns 50, so the blanks went down, and one more pass would
    bring them to 49.  Yet [numBlank == prevNumBlank] holds and [solve]
    goes straight to the loop over the candidates of cell (0,8), whose set
    still holds the 6 that the pass has just written into its column. *)
Lemma solve_branches_after_progress :
  let pz := setAllPossibilities (newPuzzle fiftyAfterFirstPass) in
  let pz1 := snd (trimPossibilities pz) in
  isSolutionValid fiftyAfterFirstPass = true /\
  countBlank fiftyAfterFirstPass = 51 /\
  fst (trimPossibilities pz) = 50%Z /\
  countBlank (board pz1) = 50 /\
  fst (trimPossibilities pz1) = 49%Z /\
  (minRow pz1, minCol pz1) = (0, 8) /\
  getPoss (possibilities pz1) 0 8 = Some [6; 7]%Z /\
  getValue (board pz1) 8 8 = 6%Z /\
  solve 82 83 (newPuzzle fiftyAfterFirstPass)
    = tryCandidates (solve 81 83) pz1 [6; 7]%Z.
Proof.
  cbv zeta. repeat split; vm_compute; reflexivity.
Qed.

(** ** Counting blank cells and candidate sets *)

Section FilterCount.
Variable A : Type.
Variables f g : A -> bool.

Lemma filter_length_mono (l : list A) :
  (forall x, In x l -> f x = true -> g x = true) ->
  length (filter f l) <= length (filter g l).
Proof.
  induction l as [|a l IH]; intros H; simpl; auto.
  assert (IH' : length (filter f l) <= length (filter g l))
    by (apply IH; intros x Hx; apply H; now right).
  destruct (f a) eqn:Ef.
  - rewrite (H a (or_introl eq_refl) Ef). simpl. lia.
  - destruct (g a); simpl; lia.
Qed.

Lemma filter_length_strict (l : list A) (x : A) :
  (forall y, In y l -> f y = true -> g y = true) ->
  In x l -> f x = false -> g x = true ->
  length (filter f l) < length (filter g l).
Proof.
  induction l as [|a l IH]; intros H Hin Hf Hg; simpl; [destruct Hin|].
  assert (Hl : forall y, In y l -> f y = true -> g y = true)
    by (intros y Hy; apply H; now right).
  pose proof (@filter_length_mono l Hl) as Hm.
  destruct Hin as [->|Hin].
  - rewrite Hf, Hg. simpl. lia.
  - specialize (IH Hl Hin Hf Hg). destruct (f a) eqn:Ef.
    + rewrite (H a (or_introl eq_refl) Ef). simpl. lia.
    + destruct (g a); simpl; lia.
Qed.

Lemma filter_length_same (l : list A) :
  (forall x, In x l -> f x = true -> g x = true) ->
  length (filter f l) = length (filter g l) ->
  forall x, In x l -> f x = g x.
Proof.
  intros H E x Hin. destruct (f x) eqn:Ef; [symmetry; now apply H|].
  destruct (g x) eqn:Eg; auto.
  pose proof (@filter_length_strict l x H Hin Ef Eg). lia.
Qed.
End FilterCount.

Lemma In_allCells (r c : nat) : r < 9 -> c < 9 -> In (r, c) allCells.
Proof.
  intros Hr Hc. rewrite allCells_keys. apply in_map_iff. exists (key r c).
  destruct (key_range Hr Hc) as (Hk & E1 & E2). split.
  - unfold cellOfKey. now rewrite E1, E2.
  - apply in_seq. lia.
Qed.

Lemma countBlank_le_81 (b : Board) : countBlank b <= 81.
Proof.
  unfold countBlank. etransitivity; [apply filter_length_le|]. reflexivity.
Qed.

Lemma countBlank_mono (b b' : Board) :
  (forall r c, r < 9 -> c < 9 -> getValue b r c <> 0%Z -> getValue b' r c <> 0%Z) ->
  countBlank b' <= countBlank b.
Proof.
  intros H. apply filter_length_mono. intros [r c] Hin E. simpl in *.
  destruct (allCells_range Hin) as [Hr Hc]. simpl in *.
  apply Z.eqb_eq in E. apply Z.eqb_eq.
  destruct (Z.eq_dec (getValue b r c) 0); auto. exfalso. now apply (H r c Hr Hc).
Qed.

Lemma countBlank_setValue (b : Board) (r c : nat) (v : Z) :
  wfBoard b -> r < 9 -> c < 9 -> getValue b r c = 0%Z -> v <> 0%Z ->
  countBlank (setValue b r c v) < countBlank b.
Proof.
  intros Hw Hr Hc H0 Hv. apply filter_length_strict with (x := (r, c)).
  - intros [i j] Hin E. simpl in *. apply Z.eqb_eq in E. apply Z.eqb_eq.
    destruct (cell_eq_dec i j r c) as [[-> ->]|Hne]; auto.
    rewrite getValue_setValue_other in E by lia. exact E.
  - now apply In_allCells.
  - simpl. rewrite getValue_setValue_same by auto. now apply Z.eqb_neq.
  - simpl. now apply Z.eqb_eq.
Qed.

Lemma countBlank_zero (b : Board) (r c : nat) :
  countBlank b = 0 -> r < 9 -> c < 9 -> getValue b r c <> 0%Z.
Proof.
  intros E Hr Hc H0. unfold countBlank in E.
  assert (Hin : In (r, c) (filter (fun cell => (getValue b (fst cell) (snd cell) =? 0)%Z) allCells)).
  { apply filter_In. split; [now apply In_allCells|]. simpl. now apply Z.eqb_eq. }
  destruct (filter _ allCells); [destruct Hin|discriminate].
Qed.

(** A pass that does not return -1 creates no candidate set. *)
Lemma trimPossibilities_sets (pz : SudokuPuzzle) (r c : nat) :
  puzzleInv pz -> fst (trimPossibilities pz) <> (-1)%Z -> r < 9 -> c < 9 ->
  getPoss (possibilities pz) r c = None ->
  getPoss (possibilities (snd (trimPossibilities pz))) r c = None.
Proof.
  intros Hinv Hn Hr Hc Eg.
  pose proof (withMin_inv 10 10 10 Hinv) as Hinv0.
  pose proof (@trimCells_visit 81 0 _ 0 ltac:(lia) Hinv0) as Hv. cbv zeta in Hv.
  revert Hn. unfold trimPossibilities. rewrite allCells_keys.
  destruct (trimCells (map cellOfKey (seq 0 81)) (withMin pz 10 10 10) 0)
    as [pz1|pz1 n]; cbn [fst snd stepPuzzle] in *; [congruence|]. intros _.
  destruct (key_range Hr Hc) as (Hk & E1 & E2).
  destruct (Hv (key r c) ltac:(lia)) as (bv & _ & Ho).
  rewrite E1, E2 in Ho. simpl in Ho. rewrite Eg in Ho. simpl in Ho. tauto.
Qed.

Lemma trimPossibilities_countSets (pz : SudokuPuzzle) :
  puzzleInv pz -> fst (trimPossibilities pz) <> (-1)%Z ->
  fst (trimPossibilities pz)
    = Z.of_nat (countSets (possibilities (snd (trimPossibilities pz)))) /\
  countSets (possibilities (snd (trimPossibilities pz))) <= countSets (possibilities pz).
Proof.
  intros Hinv Hn. split.
  - pose proof (trimPossibilities_count Hinv) as H.
    destruct (trimPossibilities pz) as [n pz1]. simpl in *. tauto.
  - apply filter_length_mono. intros [r c] Hin. unfold hasSet. simpl.
    destruct (allCells_range Hin) as [Hr Hc]. simpl in *.
    destruct (getPoss (possibilities pz) r c) eqn:Eg; auto.
    now rewrite (trimPossibilities_sets Hinv Hn Hr Hc Eg).
Qed.

Lemma trimPossibilities_blanks (pz : SudokuPuzzle) :
  puzzleInv pz ->
  countBlank (board (snd (trimPossibilities pz))) <= countBlank (board pz).
Proof.
  intros Hinv. apply countBlank_mono. intros r c Hr Hc Hnz.
  now rewrite trimPossibilities_clue.
Qed.

(** ** Termination *)

Lemma tryCandidates_returns (subsolve : SudokuPuzzle -> Outcome) (pz : SudokuPuzzle)
    (cands : list Z) :
  (forall v, In v cands ->
     exists res p, subsolve (subPuzzleFor pz v) = Returns res p) ->
  exists res p, tryCandidates subsolve pz cands = Returns res p.
Proof.
  induction cands as [|v rest IH]; intros H; simpl; eauto.
  destruct (H v (or_introl eq_refl)) as (res & p & ->).
  destruct res; eauto. apply IH. intros u Hu. apply H. now right.
Qed.

(** Every candidate of the tracked cell gives a sub-puzzle with fewer blank
    cells. *)
Lemma subPuzzleFor_blanks (pz : SudokuPuzzle) (s : IntSet) (v : Z) :
  puzzleInv pz -> minRow pz < 9 -> minCol pz < 9 ->
  getPoss (possibilities pz) (minRow pz) (minCol pz) = Some s -> In v s ->
  wfBoard (board (subPuzzleFor pz v)) /\
  countBlank (board (subPuzzleFor pz v)) < countBlank (board pz).
Proof.
  intros Hinv Hr Hc Es Hv. rewrite subPuzzleFor_board by apply (inv_board Hinv).
  split; [apply setValue_wf, (inv_board Hinv)|].
  apply countBlank_setValue; auto.
  - apply (inv_board Hinv).
  - exact (inv_blank Hinv Hr Hc Es).
  - destruct (inv_digits Hinv Hr Hc Es) as [_ Hd]. specialize (Hd v Hv). lia.
Qed.

Lemma whileLoop_returns (subsolve : SudokuPuzzle -> Outcome) (iters : nat) :
  forall (pz : SudokuPuzzle) (prev : Z),
  puzzleInv pz ->
  (forall spz, wfBoard (board spz) ->
     countBlank (board spz) < countBlank (board pz) ->
     exists res p, subsolve spz = Returns res p) ->
  (prev = Z.of_nat (countSets (possibilities pz)) /\
   countSets (possibilities pz) < iters) \/
  countSets (possibilities pz) + 1 < iters ->
  exists res p, whileLoop iters subsolve pz prev = Returns res p.
Proof.
  induction iters as [|k IH]; intros pz prev Hinv Hsub Hfuel; [lia|].
  simpl.
  pose proof (trimPossibilities_inv Hinv) as Hinv1.
  pose proof (trimPossibilities_blanks Hinv) as Hbl.
  pose proof (trimPossibilities_countSets Hinv) as Hcs.
  pose proof (trimPossibilities_min Hinv) as Hmin. cbv zeta in Hmin.
  destruct (trimPossibilities pz) as [n pz1]. cbn [fst snd] in *.
  destruct (Z.eqb_spec n (-1)); [eauto|].
  destruct (Z.eqb_spec n 0); [eauto|].
  destruct (Hcs ltac:(auto)) as [En Hle].
  destruct (Z.eqb_spec n prev) as [Ep|Hp].
  - destruct (Hmin ltac:(auto) ltac:(auto)) as (Hr & Hc & s & Es & _).
    rewrite Es. apply tryCandidates_returns. intros v Hv.
    destruct (subPuzzleFor_blanks v Hinv1 Hr Hc Es Hv) as [Hw Hlt].
    apply Hsub; auto. lia.
  - apply IH; auto.
    + intros spz Hw Hlt. apply Hsub; auto. lia.
    + left. split; auto. lia.
Qed.

Lemma solve_returns (iters : nat) (depth : nat) : forall pz : SudokuPuzzle,
  wfBoard (board pz) -> countBlank (board pz) < depth -> 83 <= iters ->
  exists res p, solve depth iters pz = Returns res p.
Proof.
  induction depth as [|d IH]; intros pz Hw Hd Hi; [lia|].
  simpl. destruct (setAllPossibilities_inv pz Hw) as [Hinv _].
  apply whileLoop_returns; auto.
  - intros spz Hws Hlt. apply IH; auto. simpl in Hlt. lia.
  - right. pose proof (countSets_le_81 (possibilities (setAllPossibilities pz))). lia.
Qed.

(** ** Boards that stay free of duplicates *)

Lemma placement_noDuplicates (b : Board) (v : Z) (r c : nat) :
  r < 9 -> c < 9 -> noDuplicates b -> fst (wouldWork b v r c) = true ->
  noDuplicates (setValue b r c v).
Proof.
  intros Hr Hc (HR & HC & HB) Hok.
  apply wouldWork_fst in Hok; auto. destruct Hok as (R1 & C1 & B1).
  assert (Other : forall r' c', r <> r' \/ c <> c' ->
            getValue (setValue b r c v) r' c' = getValue b r' c')
    by (intros; now apply getValue_setValue_other).
  split; [|split].
  - intros r' Hr'. destruct (Nat.eq_dec r' r) as [->|Hne]; auto.
    intros c1 c2 Hc1 Hc2 Hc12. rewrite !Other by lia. now apply (HR r' Hr').
  - intros c' Hc'. destruct (Nat.eq_dec c' c) as [->|Hne]; auto.
    intros r1 r2 Hr1 Hr2 Hr12. rewrite !Other by lia. now apply (HC c' Hc').
  - intros R C HR' HC'.
    destruct (Nat.eq_dec R (r / 3)) as [->|HneR];
      [destruct (Nat.eq_dec C (c / 3)) as [->|HneC]; auto|];
      intros r1 c1 r2 c2 E1 E2 E3 E4 Hne;
      rewrite !Other by (destruct (cell_eq_dec r c r1 c1) as [[? ?]|]; try lia;
                         destruct (cell_eq_dec r c r2 c2) as [[? ?]|]; try lia;
                         subst; congruence);
      now apply (HB _ _ HR' HC').
Qed.

Lemma trimCell_valid (pz : SudokuPuzzle) (n : Z) (r c : nat) :
  puzzleInv pz -> r < 9 -> c < 9 ->
  (noDuplicates (board pz) -> noDuplicates (board (stepPuzzle (trimCell pz n r c)))) /\
  (digitsOnly (board pz) -> digitsOnly (board (stepPuzzle (trimCell pz n r c)))).
Proof.
  intros Hinv Hr Hc.
  destruct (trimCell_cases n Hinv Hr Hc) as [[Eg ->]|(s & Eg & Hcase)]; auto.
  cbv zeta in Hcase.
  destruct Hcase as [[Ek ->]|[(v & Ek & ->)|[Hlen ->]]]; simpl; auto.
  - assert (Hin : In v (workable (board pz) r c s)) by (rewrite Ek; now left).
    apply filter_In in Hin. destruct Hin as [Hin Hok]. split.
    + intros Hnd. now apply placement_noDuplicates.
    + intros Hd i j Hi Hj. destruct (cell_eq_dec i j r c) as [[-> ->]|Hne].
      * rewrite getValue_setValue_same by (auto; apply (inv_board Hinv)).
        destruct (inv_digits Hinv Hr Hc Eg) as [_ Hdig]. specialize (Hdig v Hin). lia.
      * rewrite getValue_setValue_other by lia. now apply Hd.
  - destruct (_ <? _)%Z; simpl; auto.
Qed.

Lemma trimCells_valid (m : nat) : forall (k0 : nat) (pz : SudokuPuzzle) (n : Z),
  k0 + m <= 81 -> puzzleInv pz ->
  let pz' := stepPuzzle (trimCells (map cellOfKey (seq k0 m)) pz n) in
  (noDuplicates (board pz) -> noDuplicates (board pz')) /\
  (digitsOnly (board pz) -> digitsOnly (board pz')).
Proof.
  induction m as [|m IH]; intros k0 pz n Hk Hinv; cbv zeta; [simpl; auto|].
  rewrite trimCells_cons.
  destruct (@cellOfKey_range k0) as (Hr & Hc & _); [lia|].
  pose proof (trimCell_inv n Hinv Hr Hc) as H1.
  pose proof (trimCell_valid n Hinv Hr Hc) as [H2 H3].
  destruct (trimCell pz n (k0 / 9) (k0 mod 9)) as [pz'|pz' n']; simpl in *; auto.
  destruct (IH (S k0) pz' n' ltac:(lia) H1) as [I1 I2]. cbv zeta in *. auto.
Qed.

Lemma trimPossibilities_valid (pz : SudokuPuzzle) :
  puzzleInv pz ->
  (noDuplicates (board pz) -> noDuplicates (board (snd (trimPossibilities pz)))) /\
  (digitsOnly (board pz) -> digitsOnly (board (snd (trimPossibilities pz)))).
Proof.
  intros Hinv. unfold trimPossibilities. rewrite allCells_keys.
  pose proof (@trimCells_valid 81 0 (withMin pz 10 10 10) 0 ltac:(lia)
                (withMin_inv 10 10 10 Hinv)) as H. cbv zeta in H.
  destruct (trimCells _ _ _); exact H.
Qed.

(** ** A pass that fills no cell *)

Lemma trimPossibilities_visit (pz : SudokuPuzzle) (r c : nat) :
  puzzleInv pz -> fst (trimPossibilities pz) <> (-1)%Z -> r < 9 -> c < 9 ->
  exists bv,
    visitBoard (board pz) (board (snd (trimPossibilities pz))) bv (key r c) /\
    cellOutcome bv r c (getPoss (possibilities pz) r c)
      (getPoss (possibilities (snd (trimPossibilities pz))) r c)
      (getValue (board (snd (trimPossibilities pz))) r c).
Proof.
  intros Hinv Hn Hr Hc.
  pose proof (withMin_inv 10 10 10 Hinv) as Hinv0.
  pose proof (@trimCells_visit 81 0 _ 0 ltac:(lia) Hinv0) as Hv. cbv zeta in Hv.
  revert Hn. unfold trimPossibilities. rewrite allCells_keys.
  destruct (trimCells (map cellOfKey (seq 0 81)) (withMin pz 10 10 10) 0)
    as [pz1|pz1 n]; cbn [fst snd stepPuzzle] in *; [congruence|]. intros _.
  destruct (key_range Hr Hc) as (Hk & E1 & E2).
  specialize (Hv (key r c) ltac:(lia)). now rewrite E1, E2 in Hv.
Qed.

(** When a pass leaves as many candidate sets as it found, it has written
    nothing, and every candidate it leaves is workable on the board. *)
Lemma trimPossibilities_stalled (pz : SudokuPuzzle) :
  puzzleInv pz -> allTracked pz -> fst (trimPossibilities pz) <> (-1)%Z ->
  countSets (possibilities (snd (trimPossibilities pz))) = countSets (possibilities pz) ->
  board (snd (trimPossibilities pz)) = board pz /\
  forall r c s v, r < 9 -> c < 9 ->
    getPoss (possibilities (snd (trimPossibilities pz))) r c = Some s -> In v s ->
    fst (wouldWork (board pz) v r c) = true.
Proof.
  intros Hinv Ht Hn Hcount.
  pose proof (trimPossibilities_inv Hinv) as Hinv1.
  pose proof (fun r c => @trimPossibilities_visit pz r c Hinv Hn) as Hvis.
  pose proof (fun r c => @trimPossibilities_clue pz r c Hinv) as Hclue.
  assert (Hsame : forall r c, r < 9 -> c < 9 ->
            hasSet (possibilities (snd (trimPossibilities pz))) (r, c)
            = hasSet (possibilities pz) (r, c)).
  { intros r c Hr Hc.
    apply (@filter_length_same _ _ _ allCells); auto using In_allCells.
    intros [i j] Hin. unfold hasSet. simpl.
    destruct (allCells_range Hin) as [Hi Hj]. simpl in *.
    destruct (getPoss (possibilities pz) i j) eqn:Eg; auto.
    now rewrite (trimPossibilities_sets Hinv Hn Hi Hj Eg). }
  set (pz1 := snd (trimPossibilities pz)) in *.
  assert (Kept : forall r c s1, r < 9 -> c < 9 ->
            getPoss (possibilities pz1) r c = Some s1 ->
            exists bv s, visitBoard (board pz) (board pz1) bv (key r c) /\
              getPoss (possibilities pz) r c = Some s /\
              s1 = workable bv r c s /\ getValue (board pz1) r c = 0%Z).
  { intros r c s1 Hr Hc Es1. destruct (Hvis r c Hr Hc) as (bv & Hb & Ho).
    unfold cellOutcome in Ho. rewrite Es1 in Ho.
    destruct (getPoss (possibilities pz) r c) as [s|] eqn:Es;
      [|destruct Ho; discriminate].
    exists bv, s. split; auto. split; auto.
    destruct (workable bv r c s) as [|x [|y l]]; try tauto.
    - destruct Ho; discriminate.
    - destruct Ho as [E ?]. split; congruence. }
  assert (Hb : board pz1 = board pz).
  { apply board_ext; [apply (inv_board Hinv1)|apply (inv_board Hinv)|].
    intros r c Hr Hc.
    destruct (Z.eq_dec (getValue (board pz) r c) 0) as [E0|Hnz]; [|now apply Hclue].
    rewrite E0. specialize (Hsame r c Hr Hc). unfold hasSet in Hsame. simpl in Hsame.
    destruct (getPoss (possibilities pz) r c) eqn:Eg; [|now apply Ht in Eg].
    destruct (getPoss (possibilities pz1) r c) as [s1|] eqn:Eg1; [|discriminate].
    destruct (Kept r c s1 Hr Hc Eg1) as (_ & _ & _ & _ & _ & E). exact E. }
  split; auto. intros r c s1 v Hr Hc Es1 Hv.
  destruct (Kept r c s1 Hr Hc Es1) as (bv & s & [Hw Hbv] & Es & -> & _).
  assert (bv = board pz).
  { apply board_ext; auto; [apply (inv_board Hinv)|].
    intros i j Hi Hj. rewrite (Hbv i j Hi Hj), Hb. now destruct (_ <? _). }
  subst bv. apply filter_In in Hv. tauto.
Qed.

(** ** What [solve] returns with true *)

Lemma validCompletion_trans (b b1 full : Board) :
  (forall r c, r < 9 -> c < 9 -> getValue b r c <> 0%Z ->
     getValue b1 r c = getValue b r c) ->
  validCompletion b1 full -> validCompletion b full.
Proof.
  intros Hext (Hw & Hnd & Hd & He).
  split; [exact Hw|]. split; [exact Hnd|]. split; [exact Hd|].
  intros r c Hr Hc Hnz. rewrite He; auto; rewrite Hext; auto.
Qed.

Lemma whileLoop_sound (subsolve : SudokuPuzzle -> Outcome) (iters : nat) :
  forall (pz : SudokuPuzzle) (prev : Z) (pz' : SudokuPuzzle),
  puzzleInv pz -> allTracked pz ->
  noDuplicates (board pz) -> digitsOnly (board pz) ->
  (Z.of_nat (countSets (possibilities pz)) <= prev)%Z ->
  (forall spz spz', wfBoard (board spz) -> noDuplicates (board spz) ->
     digitsOnly (board spz) -> countBlank (board spz) < countBlank (board pz) ->
     subsolve spz = Returns true spz' -> validCompletion (board spz) (board spz')) ->
  whileLoop iters subsolve pz prev = Returns true pz' ->
  validCompletion (board pz) (board pz').
Proof.
  induction iters as [|k IH]; intros pz prev pz' Hinv Ht Hnd Hdig Hprev Hsub H;
    simpl in H; [discriminate|].
  pose proof (trimPossibilities_inv Hinv) as Hinv1.
  pose proof (trimPossibilities_tracked Hinv Ht) as Ht1.
  pose proof (trimPossibilities_blanks Hinv) as Hbl.
  pose proof (trimPossibilities_countSets Hinv) as Hcs.
  pose proof (trimPossibilities_valid Hinv) as [Hnd1 Hdig1].
  pose proof (fun r c => @trimPossibilities_clue pz r c Hinv) as Hclue.
  pose proof (trimPossibilities_min Hinv) as Hmin. cbv zeta in Hmin.
  pose proof (trimPossibilities_stalled Hinv Ht) as Hstall.
  destruct (trimPossibilities pz) as [n pz1]. cbn [fst snd] in *.
  specialize (Hnd1 Hnd). specialize (Hdig1 Hdig).
  destruct (Z.eqb_spec n (-1)); [discriminate|].
  destruct (Hcs ltac:(auto)) as [En Hle].
  destruct (Z.eqb_spec n 0) as [E0|Hn0].
  - injection H as <-.
    split; [apply (inv_board Hinv1)|]. split; [exact Hnd1|]. split; [|auto].
    intros r c Hr Hc. pose proof (Hdig1 r c Hr Hc).
    assert (getValue (board pz1) r c <> 0%Z); [|lia].
    apply countBlank_zero; auto. rewrite (count_blank_sets Hinv1 Ht1). lia.
  - destruct (Z.eqb_spec n prev) as [Ep|Hp].
    + destruct (Hmin ltac:(auto) ltac:(auto)) as (Hr & Hc & s & Es & _).
      rewrite Es in H. apply tryCandidates_true in H.
      destruct H as (before & v & after & solved & Esplit & _ & Hs & ->).
      assert (Hv : In v s) by (rewrite Esplit; apply in_or_app; right; now left).
      destruct (Hstall ltac:(auto) ltac:(lia)) as [Hb Hwork].
      pose proof (inv_board Hinv1) as Hw1.
      pose proof (inv_blank Hinv1 Hr Hc Es) as Hblank.
      destruct (inv_digits Hinv1 Hr Hc Es) as [_ Hd]. specialize (Hd v Hv).
      destruct (subPuzzleFor_blanks v Hinv1 Hr Hc Es Hv) as [Hws Hlt].
      pose proof (@subPuzzleFor_board pz1 v Hw1) as Esub.
      assert (Hcomp : validCompletion (board (subPuzzleFor pz1 v)) (board solved)).
      { apply Hsub; auto; try lia.
        - rewrite Esub. apply placement_noDuplicates; auto.
          rewrite Hb. now apply (Hwork _ _ s).
        - rewrite Esub. intros i j Hi Hj.
          destruct (cell_eq_dec i j (minRow pz1) (minCol pz1)) as [[-> ->]|Hne].
          + rewrite getValue_setValue_same by auto. lia.
          + rewrite getValue_setValue_other by lia. now apply Hdig1. }
      destruct Hcomp as (Hwf & Hndf & Hdf & Hef). rewrite Esub in Hef.
      destruct (copyBack_spec (board solved) Hw1) as [Hwc Hcopy].
      assert (Ecopy : copyBack (board pz1) (board solved) = board solved).
      { apply board_ext; auto. intros i j Hi Hj. rewrite (Hcopy i j Hi Hj).
        destruct (Z.eqb_spec (getValue (board pz1) i j) 0) as [Ez|Hnz]; auto.
        rewrite Hef; auto.
        - symmetry. apply getValue_setValue_other.
          destruct (cell_eq_dec (minRow pz1) (minCol pz1) i j) as [[? ?]|]; auto.
          subst. contradiction.
        - rewrite getValue_setValue_other; auto.
          destruct (cell_eq_dec (minRow pz1) (minCol pz1) i j) as [[? ?]|]; auto.
          subst. contradiction. }
      cbn [board withBoard]. rewrite Ecopy.
      split; [exact Hwf|]. split; [exact Hndf|]. split; [exact Hdf|].
      intros i j Hi Hj Hnz. rewrite <- Hb in *. rewrite Hef; auto.
      * apply getValue_setValue_other.
        destruct (cell_eq_dec (minRow pz1) (minCol pz1) i j) as [[? ?]|]; auto.
        subst. contradiction.
      * rewrite getValue_setValue_other; auto.
        destruct (cell_eq_dec (minRow pz1) (minCol pz1) i j) as [[? ?]|]; auto.
        subst. contradiction.
    + apply validCompletion_trans with (b1 := board pz1); auto.
      apply (IH pz1 n pz'); auto; try lia.
      intros spz spz' A1 A2 A3 A4. apply Hsub; auto. lia.
Qed.

Lemma solve_sound (iters : nat) (depth : nat) : forall pz pz' : SudokuPuzzle,
  wfBoard (board pz) -> noDuplicates (board pz) -> digitsOnly (board pz) ->
  countBlank (board pz) <= 50 ->
  solve depth iters pz = Returns true pz' ->
  validCompletion (board pz) (board pz').
Proof.
  induction depth as [|d IH]; intros pz pz' Hw Hnd Hdig H50 H; simpl in H;
    [discriminate|].
  destruct (setAllPossibilities_inv pz Hw) as [Hinv Ht].
  apply (@whileLoop_sound (solve d iters) iters (setAllPossibilities pz) 50 pz'
           Hinv Ht) in H; auto.
  - rewrite <- (count_blank_sets Hinv Ht). simpl. lia.
  - intros spz spz' A1 A2 A3 A4. apply IH; auto. simpl in A4. lia.
Qed.

(** ** A board without blank cells *)

(** A pass returns -1 only at a cell with a candidate set. *)
Lemma trimPossibilities_contradiction (pz : SudokuPuzzle) :
  puzzleInv pz -> fst (trimPossibilities pz) = (-1)%Z ->
  exists r c s, r < 9 /\ c < 9 /\ getPoss (possibilities pz) r c = Some s /\
                workable (board (snd (trimPossibilities pz))) r c s = [].
Proof.
  intros Hinv.
  pose proof (withMin_inv 10 10 10 Hinv) as Hinv0.
  pose proof (@trimCells_visit 81 0 _ 0 ltac:(lia) Hinv0) as Hv. cbv zeta in Hv.
  pose proof (@trimCells_count 81 0 _ 0 ltac:(lia) Hinv0) as Hc.
  unfold trimPossibilities. rewrite allCells_keys.
  destruct (trimCells (map cellOfKey (seq 0 81)) (withMin pz 10 10 10) 0)
    as [pz1|pz1 n]; cbn [fst snd stepPuzzle] in *.
  - intros _. destruct Hv as (K & HK & _ & s & Es & Ew & _).
    destruct (@cellOfKey_range K) as (Hr & Hc' & _); [lia|].
    exists (K / 9), (K mod 9), s. auto.
  - destruct Hc as [Hn _]. lia.
Qed.

(** [solve] makes no candidate set, the first pass returns 0 and the board
    stays as it is. *)
Lemma solve_full_board (depth iters : nat) (pz : SudokuPuzzle) :
  wfBoard (board pz) -> countBlank (board pz) = 0 -> 0 < depth -> 0 < iters ->
  exists pz', solve depth iters pz = Returns true pz' /\ board pz' = board pz.
Proof.
  intros Hw H0 Hd Hi. destruct depth as [|d]; [lia|]. destruct iters as [|k]; [lia|].
  simpl. destruct (setAllPossibilities_inv pz Hw) as [Hinv Ht].
  pose proof (count_blank_sets Hinv Ht) as Hcount.
  set (pz0 := setAllPossibilities pz) in *.
  assert (Hb0 : board pz0 = board pz) by reflexivity.
  assert (Hfull : forall r c, r < 9 -> c < 9 -> getValue (board pz0) r c <> 0%Z)
    by (intros r c; rewrite Hb0; now apply countBlank_zero).
  pose proof (trimPossibilities_inv Hinv) as Hinv1.
  pose proof (trimPossibilities_countSets Hinv) as Hcs.
  pose proof (trimPossibilities_contradiction Hinv) as Hcontra.
  pose proof (fun r c => @trimPossibilities_clue pz0 r c Hinv) as Hclue.
  destruct (trimPossibilities pz0) as [n pz1]. cbn [fst snd] in *.
  destruct (Z.eqb_spec n (-1)) as [E|Hn].
  - exfalso. destruct (Hcontra E) as (r & c & s & Hr & Hc & Es & _).
    apply (Hfull r c Hr Hc). exact (inv_blank Hinv Hr Hc Es).
  - destruct (Hcs Hn) as [En Hle].
    replace (n =? 0)%Z with true
      by (symmetry; apply Z.eqb_eq; rewrite Hb0 in Hcount; lia).
    exists pz1. split; auto. rewrite <- Hb0.
    apply board_ext; [apply (inv_board Hinv1)|apply (inv_board Hinv)|].
    intros r c Hr Hc. apply Hclue; auto.
Qed.


(** ** What [solve] leaves on the caller's board *)

(** C10: [solve] never overwrites a clue.  It returns, and a cell that holds
    a digit when [solve] is called holds the same digit when it returns,
    with true or with false. *)
Theorem solve_keeps_clues (depth iters : nat) (pz : SudokuPuzzle) :
  wfBoard (board pz) -> countBlank (board pz) < depth -> 83 <= iters ->
  exists res pz', solve depth iters pz = Returns res pz' /\
    forall r c, r < 9 -> c < 9 -> getValue (board pz) r c <> 0%Z ->
      getValue (board pz') r c = getValue (board pz) r c.
Proof.
  intros Hw Hd Hi.
  destruct (@solve_returns iters depth pz Hw Hd Hi) as (res & pz' & H).
  exists res, pz'. split; [exact H|].
  intros r c Hr Hc Hnz. now apply (@solve_clues_kept depth iters pz pz' res Hw H).
Qed.

Lemma solve_keeps_clues_witness :
  exists res pz', solve 82 83 (newPuzzle forcedThenStuck) = Returns res pz' /\
    getValue (board pz') 0 1 = getValue (board (newPuzzle forcedThenStuck)) 0 1.
Proof.
  destruct (@solve_keeps_clues 82 83 (newPuzzle forcedThenStuck))
    as (res & pz' & H & Hkept).
  - apply tabulate_wf.
  - vm_compute. lia.
  - lia.
  - exists res, pz'. split; [exact H|]. apply Hkept; [lia|lia|].
    vm_compute. discriminate.
Defined.

(** C7, as the code has it: the values a search tries are written to
    sub-puzzles only.  [solve] returns, and the caller's object is then the
    one the passes of that call leave, or that object with the board of a
    sub-puzzle whose own [solve] returned true copied into its blanks; when
    [solve] returns false it is the former.  The passes write the forced
    digits in place and nothing undoes them; they keep every digit that was
    on the board. *)
Theorem solve_writes_after_success (depth iters : nat) (pz : SudokuPuzzle) :
  wfBoard (board pz) -> countBlank (board pz) < depth -> 83 <= iters ->
  exists res pz' pzp,
    solve depth iters pz = Returns res pz' /\
    propagate iters (setAllPossibilities pz) 50 = Some pzp /\
    (res = false -> pz' = pzp) /\
    (pz' = pzp \/
     exists v solvedSub,
       solve (pred depth) iters (subPuzzleFor pzp v) = Returns true solvedSub /\
       pz' = withBoard pzp (copyBack (board pzp) (board solvedSub))) /\
    (forall r c, r < 9 -> c < 9 -> getValue (board pz) r c <> 0%Z ->
       getValue (board pzp) r c = getValue (board pz) r c).
Proof.
  intros Hw Hd Hi.
  destruct (@solve_returns iters depth pz Hw Hd Hi) as (res & pz' & H).
  destruct (@solve_after_propagate depth iters pz pz' res H) as (pzp & Hp & Hfalse & Hcopy).
  exists res, pz', pzp. repeat (split; [assumption|]).
  destruct (setAllPossibilities_inv pz Hw) as [Hinv _].
  destruct (propagate_inv _ _ Hinv Hp) as (_ & _ & Hclue). exact Hclue.
Qed.

Lemma solve_writes_after_success_witness :
  exists res pz' pzp,
    solve 82 83 (newPuzzle forcedThenStuck) = Returns res pz' /\
    propagate 83 (setAllPossibilities (newPuzzle forcedThenStuck)) 50 = Some pzp /\
    (res = false -> pz' = pzp).
Proof.
  destruct (@solve_writes_after_success 82 83 (newPuzzle forcedThenStuck))
    as (res & pz' & pzp & H & Hp & Hfalse & _).
  - apply tabulate_wf.
  - vm_compute. lia.
  - lia.
  - exists res, pz', pzp. repeat (split; [assumption|]). exact Hfalse.
Defined.

(** C7 as stated fails: on [forcedThenStuck], a board without duplicates,
    the first pass writes 1 into the blank cell (0,0) and then meets cell
    (3,0), for which nothing is workable; [solve] returns false and the 1
    stays on the caller's board. *)
Lemma solve_false_changes_board :
  isSolutionValid forcedThenStuck = true /\
  exists pz', solve 82 83 (newPuzzle forcedThenStuck) = Returns false pz' /\
    getValue (board (newPuzzle forcedThenStuck)) 0 0 = 0%Z /\
    getValue (board pz') 0 0 = 1%Z.
Proof.
  split; [reflexivity|]. eexists. split; [vm_compute; reflexivity|].
  split; reflexivity.
Qed.

(** ** Reading a board from a file *)

(** The inner loop on a line that fits into the row: it ends at the end of
    the line with the value of each token in its cell, or at the first
    token that [stoi] rejects. *)
Lemma fillRow_cases (tokens : list string) : forall (b : Board) (row col : nat),
  wfBoard b -> row < 9 -> col + length tokens <= 9 ->
  match fillRow b row col tokens with
  | Filled b' =>
      wfBoard b' /\ (forall t, In t tokens -> tokenValue t <> None) /\
      forall r c, r < 9 -> c < 9 ->
        getValue b' r c =
          if (r =? row) && (col <=? c) && (c <? col + length tokens)
          then match tokenValue (nth (c - col) tokens EmptyString) with
               | Some z => z
               | None => 0%Z
               end
          else getValue b r c
  | Threw b' => wfBoard b' /\ exists t, In t tokens /\ tokenValue t = None
  | Overran => False
  end.
Proof.
  induction tokens as [|t rest IH]; intros b row col Hw Hr Hc; simpl in *.
  - split; auto. split; [tauto|]. intros r c _ _.
    destruct (r =? row); destruct (col <=? c) eqn:E1; destruct (c <? col + 0) eqn:E2;
      simpl; auto.
    apply Nat.leb_le in E1. apply Nat.ltb_lt in E2. lia.
  - destruct (tokenValue t) as [z|] eqn:Et.
    + replace (row <? 9) with true by (symmetry; apply Nat.ltb_lt; lia).
      replace (col <? 9) with true by (symmetry; apply Nat.ltb_lt; lia).
      cbn [andb].
      specialize (IH (setValue b row col z) row (S col) (setValue_wf row col z Hw) Hr
                    ltac:(lia)).
      destruct (fillRow (setValue b row col z) row (S col) rest) as [b'|b'|]; auto.
      * destruct IH as (Hw' & Hall & Hv). split; auto. split.
        -- intros u [<-|Hu]; [congruence|auto].
        -- intros r c Hr' Hc'. rewrite (Hv r c Hr' Hc').
           destruct (Nat.eqb_spec r row) as [->|Hne]; cbn [andb].
           ++ destruct (Nat.leb_spec (S col) c); destruct (Nat.leb_spec col c);
                try lia; cbn [andb].
              ** replace (c <? col + S (length rest)) with (c <? S col + length rest)
                   by (f_equal; lia).
                 destruct (c <? S col + length rest).
                 --- replace (c - col) with (S (c - S col)) by lia. reflexivity.
                 --- apply getValue_setValue_other. lia.
              ** assert (c = col) by lia. subst c.
                 replace (col <? col + S (length rest)) with true
                   by (symmetry; apply Nat.ltb_lt; lia).
                 rewrite Nat.sub_diag. simpl. rewrite Et.
                 now apply getValue_setValue_same.
              ** apply getValue_setValue_other. lia.
           ++ apply getValue_setValue_other. lia.
      * destruct IH as (Hw' & u & Hu & Eu). split; auto. exists u. auto.
    + split; auto. exists t. auto.
Qed.

Lemma fillRows_cases (lines : list string) : forall (b : Board) (row : nat),
  wfBoard b -> row + length lines <= 9 ->
  (forall l, In l lines -> length (getlines "," l) <= 9) ->
  match fillRows b row lines with
  | Filled b' =>
      wfBoard b' /\
      (forall l t, In l lines -> In t (getlines "," l) -> tokenValue t <> None) /\
      forall r c, r < 9 -> c < 9 ->
        getValue b' r c =
          if (row <=? r) && (r <? row + length lines) &&
             (c <? length (getlines "," (nth (r - row) lines EmptyString)))
          then match tokenValue (nth c (getlines "," (nth (r - row) lines EmptyString))
                                     EmptyString) with
               | Some z => z
               | None => 0%Z
               end
          else getValue b r c
  | Threw b' =>
      wfBoard b' /\
      exists l t, In l lines /\ In t (getlines "," l) /\ tokenValue t = None
  | Overran => False
  end.
Proof.
  induction lines as [|l rest IH]; intros b row Hw Hr Hlen; simpl in *.
  - split; auto. split; [tauto|]. intros r c _ _.
    destruct (row <=? r) eqn:E1; destruct (r <? row + 0) eqn:E2; cbn [andb]; auto.
    apply Nat.leb_le in E1. apply Nat.ltb_lt in E2. lia.
  - pose proof (@fillRow_cases (getlines "," l) b row 0 Hw ltac:(lia)
                  ltac:(specialize (Hlen l (or_introl eq_refl)); lia)) as H1.
    destruct (fillRow b row 0 (getlines "," l)) as [b1|b1|]; auto.
    + destruct H1 as (Hw1 & Hall1 & Hv1).
      specialize (IH b1 (S row) Hw1 ltac:(lia) (fun l' Hl' => Hlen l' (or_intror Hl'))).
      destruct (fillRows b1 (S row) rest) as [b'|b'|]; auto.
      * destruct IH as (Hw' & Hall & Hv). split; auto. split.
        -- intros l' t [<-|Hl'] Ht; eauto.
        -- intros r c Hr' Hc'. rewrite (Hv r c Hr' Hc'), (Hv1 r c Hr' Hc').
           destruct (Nat.leb_spec (S row) r); destruct (Nat.leb_spec row r);
             try lia; cbn [andb].
           ++ replace (r - row) with (S (r - S row)) by lia. cbn [nth].
              replace (r <? row + S (length rest)) with (r <? S row + length rest)
                by (f_equal; lia).
              destruct (r <? S row + length rest); cbn [andb]; auto.
              ** destruct (c <? length (getlines "," (nth (r - S row) rest EmptyString)));
                   auto.
                 replace (r =? row) with false by (symmetry; apply Nat.eqb_neq; lia).
                 reflexivity.
              ** replace (r =? row) with false by (symmetry; apply Nat.eqb_neq; lia).
                 reflexivity.
           ++ assert (r = row) by lia. subst r.
              replace (row <? row + S (length rest)) with true
                by (symmetry; apply Nat.ltb_lt; lia).
              rewrite Nat.eqb_refl, Nat.sub_diag, Nat.sub_0_r. cbn [andb nth Nat.leb].
              reflexivity.
           ++ replace (r =? row) with false by (symmetry; apply Nat.eqb_neq; lia).
              reflexivity.
      * destruct IH as (Hw' & l' & t & Hl' & Ht & Et). split; auto.
        exists l', t. auto.
    + destruct H1 as (Hw1 & t & Ht & Et). split; auto. exists l, t. auto.
Qed.

(** C8, as the code has it: the constructor reports no failure to its
    caller.  For every text of at most nine lines of at most nine tokens
    (so that no write leaves the array) it yields an object.  Nothing is
    written to [cerr] exactly when [stoi] accepts every token that is not
    blank or "0"; then each cell for which the text has a token holds the
    value of that token, whatever its size, and every other cell holds what
    the storage held before.  A token that [stoi] rejects ends the reading
    with a message on [cerr], and the object is yielded all the same. *)
Theorem fromFile_never_fails (text : string) (garbage : Board) :
  wfBoard garbage ->
  length (getlines LF text) <= 9 ->
  (forall l, In l (getlines LF text) -> length (getlines "," l) <= 9) ->
  exists pz cerr,
    fromFile (Some text) garbage = Built pz cerr /\ wfBoard (board pz) /\
    (cerr = [] <->
     forall l t, In l (getlines LF text) -> In t (getlines "," l) ->
                 tokenValue t <> None) /\
    (cerr = [] ->
     forall r c, r < 9 -> c < 9 ->
       getValue (board pz) r c =
         if (r <? length (getlines LF text)) &&
            (c <? length (getlines "," (nth r (getlines LF text) EmptyString)))
         then match tokenValue (tokenAt text r c) with
              | Some z => z
              | None => 0%Z
              end
         else getValue garbage r c).
Proof.
  intros Hw Hlines Htokens. unfold fromFile.
  pose proof (@fillRows_cases (getlines LF text) garbage 0 Hw ltac:(lia) Htokens) as H.
  destruct (fillRows garbage 0 (getlines LF text)) as [b|b|]; [| |destruct H].
  - destruct H as (Hw' & Hall & Hv). eexists. exists []. split; [reflexivity|].
    split; [exact Hw'|]. split; [split; auto|].
    intros _ r c Hr Hc. cbn [board]. rewrite (Hv r c Hr Hc).
    rewrite Nat.sub_0_r. cbn [Nat.leb andb Nat.add]. reflexivity.
  - destruct H as (Hw' & l & t & Hl & Ht & Et). eexists. eexists.
    split; [reflexivity|]. split; [exact Hw'|]. split.
    + split; [discriminate|]. intros Hall. exfalso. now apply (Hall l t).
    + discriminate.
Qed.

Lemma fromFile_never_fails_witness :
  exists pz cerr,
    fromFile (Some shortWithLetter) sevens = Built pz cerr /\ wfBoard (board pz).
Proof.
  destruct (@fromFile_never_fails shortWithLetter sevens) as (pz & cerr & H1 & H2 & _).
  - apply wfBoard_concrete. reflexivity.
  - vm_compute. lia.
  - intros l Hl. vm_compute in Hl.
    repeat (destruct Hl as [<-|Hl]; [vm_compute; lia|]). destruct Hl.
  - exists pz, cerr. split; [exact H1 | exact H2].
Defined.

(** C8 as stated fails.  A token out of range is stored as it is: the file
    [twelveInCell] has nine lines of nine numbers, the constructor writes
    nothing to [cerr] and yields a board with 12 in cell (0,0).  A token
    that is no number does not stop the construction either: for
    [shortWithLetter] the caller gets an object whose board holds the four
    values read before the letter and, everywhere else, what the storage
    held. *)
Lemma fromFile_yields_invalid_grid :
  (exists pz, fromFile (Some twelveInCell) sevens = Built pz [] /\
              getValue (board pz) 0 0 = 12%Z /\ ~ digitsOnly (board pz)) /\
  (exists pz msg, fromFile (Some shortWithLetter) sevens = Built pz [msg] /\
     board pz = [[1; 2; 3; 7; 7; 7; 7; 7; 7]; [4; 7; 7; 7; 7; 7; 7; 7; 7];
                 [7; 7; 7; 7; 7; 7; 7; 7; 7]; [7; 7; 7; 7; 7; 7; 7; 7; 7];
                 [7; 7; 7; 7; 7; 7; 7; 7; 7]; [7; 7; 7; 7; 7; 7; 7; 7; 7];
                 [7; 7; 7; 7; 7; 7; 7; 7; 7]; [7; 7; 7; 7; 7; 7; 7; 7; 7];
                 [7; 7; 7; 7; 7; 7; 7; 7; 7]]%Z).
Proof.
  split.
  - eexists. split; [vm_compute; reflexivity|]. split; [reflexivity|].
    intros H. specialize (H 0 0 ltac:(lia) ltac:(lia)). vm_compute in H.
    destruct H as [_ H]. apply H. reflexivity.
  - eexists. eexists. split; vm_compute; reflexivity.
Qed.

(** ** The output does not steer the program *)

Lemma firstRepeat_noRepeat (unit : list Z) : forall values : IntSet,
  noRepeat unit values =
  match Traced.firstRepeat unit values with None => true | Some _ => false end.
Proof.
  induction unit as [|value rest IH]; intros values; simpl; auto.
  destruct (value =? 0)%Z; auto.
  destruct (set_insert value values) as [values' fresh]. destruct fresh; auto.
Qed.

Lemma isRowOrColOk_erase (verbose : bool) (b : Board) (row : nat) (which : RowOrCol) :
  fst (Traced.isRowOrColOk verbose b row which) = isRowOrColOk b row which.
Proof.
  unfold Traced.isRowOrColOk, isRowOrColOk. rewrite firstRepeat_noRepeat.
  now destruct (Traced.firstRepeat _ _).
Qed.

Lemma isSubmatrixOk_erase (verbose : bool) (b : Board) (sr sc : nat) :
  fst (Traced.isSubmatrixOk verbose b sr sc) = isSubmatrixOk b sr sc.
Proof.
  unfold Traced.isSubmatrixOk, isSubmatrixOk. rewrite firstRepeat_noRepeat.
  now destruct (Traced.firstRepeat _ _).
Qed.

Lemma wouldWork_erase (verbose : bool) (b : Board) (value : Z) (r c : nat) :
  fst (Traced.wouldWork verbose b value r c) = wouldWork b value r c.
Proof.
  unfold Traced.wouldWork, wouldWork. cbv zeta.
  rewrite <- (isRowOrColOk_erase verbose (setValue b r c value) r ROW).
  rewrite <- (isRowOrColOk_erase verbose (setValue b r c value) c COL).
  rewrite <- (isSubmatrixOk_erase verbose (setValue b r c value) (3 * (r / 3)) (3 * (c / 3))).
  destruct (Traced.isRowOrColOk verbose (setValue b r c value) r ROW) as [[|] o1];
    cbn [fst negb]; auto.
  destruct (Traced.isRowOrColOk verbose (setValue b r c value) c COL) as [[|] o2];
    cbn [fst negb]; auto.
  destruct (Traced.isSubmatrixOk verbose (setValue b r c value) (3 * (r / 3)) (3 * (c / 3)))
    as [[|] o3]; cbn [fst]; auto.
Qed.

Lemma eraseUnworkable_erase (verbose : bool) (r c : nat) (s : IntSet) : forall b : Board,
  fst (Traced.eraseUnworkable verbose b r c s) = eraseUnworkable b r c s.
Proof.
  induction s as [|v rest IH]; intros b; simpl; auto.
  rewrite <- (wouldWork_erase verbose b v r c).
  destruct (Traced.wouldWork verbose b v r c) as [[ok b1] o1]. cbn [fst].
  rewrite <- (IH b1).
  destruct (Traced.eraseUnworkable verbose b1 r c rest) as [[rest' b2] o2]. reflexivity.
Qed.

Lemma trimCell_erase (verbose : bool) (pz : SudokuPuzzle) (n : Z) (r c : nat) :
  fst (Traced.trimCell verbose pz n r c) = trimCell pz n r c.
Proof.
  unfold Traced.trimCell, trimCell.
  destruct (getPoss (possibilities pz) r c) as [s|]; auto.
  rewrite <- (eraseUnworkable_erase verbose r c s (board pz)).
  destruct (Traced.eraseUnworkable verbose (board pz) r c s) as [[s' b'] o1].
  cbn [fst]. destruct (length s' =? 0); auto. destruct (length s' =? 1); auto.
Qed.

Lemma trimCells_erase (verbose : bool) (cells : list (nat * nat)) :
  forall (pz : SudokuPuzzle) (n : Z),
  fst (Traced.trimCells verbose cells pz n) = trimCells cells pz n.
Proof.
  induction cells as [|[r c] rest IH]; intros pz n; simpl; auto.
  rewrite <- (trimCell_erase verbose pz n r c).
  destruct (Traced.trimCell verbose pz n r c) as [[pz'|pz' n'] o1]; cbn [fst]; auto.
  rewrite <- (IH pz' n'). now destruct (Traced.trimCells verbose rest pz' n').
Qed.

Lemma trimPossibilities_erase (verbose : bool) (pz : SudokuPuzzle) :
  fst (Traced.trimPossibilities verbose pz) = trimPossibilities pz.
Proof.
  unfold Traced.trimPossibilities, trimPossibilities. cbv zeta.
  rewrite <- (trimCells_erase verbose allCells (withMin pz 10 10 10) 0).
  now destruct (Traced.trimCells verbose allCells (withMin pz 10 10 10) 0) as [[pz'|pz' n'] o1].
Qed.

Lemma tryCandidates_erase (verbose : bool)
    (tsub : SudokuPuzzle -> Outcome * list Out) (sub : SudokuPuzzle -> Outcome)
    (pz : SudokuPuzzle) (cands : list Z) :
  (forall spz, fst (tsub spz) = sub spz) ->
  fst (Traced.tryCandidates verbose tsub pz cands) = tryCandidates sub pz cands.
Proof.
  intros Hsub. induction cands as [|v rest IH]; simpl; auto.
  rewrite <- (Hsub (subPuzzleFor pz v)).
  destruct (tsub (subPuzzleFor pz v)) as [[[|] solved| |] o2]; cbn [fst]; auto.
  rewrite <- IH. now destruct (Traced.tryCandidates verbose tsub pz rest).
Qed.

Lemma whileLoop_erase (verbose : bool)
    (tsub : SudokuPuzzle -> Outcome * list Out) (sub : SudokuPuzzle -> Outcome)
    (iters : nat) :
  (forall spz, fst (tsub spz) = sub spz) ->
  forall (pz : SudokuPuzzle) (prev : Z),
  fst (Traced.whileLoop verbose iters tsub pz prev) = whileLoop iters sub pz prev.
Proof.
  intros Hsub. induction iters as [|k IH]; intros pz prev; simpl; auto.
  rewrite <- (trimPossibilities_erase verbose pz).
  destruct (Traced.trimPossibilities verbose pz) as [[n pz1] o1]. cbn [fst].
  destruct (n =? -1)%Z; auto. destruct (n =? 0)%Z; auto.
  destruct (n =? prev)%Z.
  - destruct (getPoss (possibilities pz1) (minRow pz1) (minCol pz1)) as [s|]; auto.
    rewrite <- (tryCandidates_erase verbose tsub sub pz1 s Hsub).
    now destruct (Traced.tryCandidates verbose tsub pz1 s).
  - rewrite <- (IH pz1 n). now destruct (Traced.whileLoop verbose k tsub pz1 n).
Qed.

Lemma solve_erase (iters : nat) (depth : nat) : forall (verbose : bool) (pz : SudokuPuzzle),
  fst (Traced.solve verbose depth iters pz) = solve depth iters pz.
Proof.
  induction depth as [|d IH]; intros verbose pz; simpl; auto.
  apply whileLoop_erase. intros spz. apply IH.
Qed.

(** The answer depends on the board alone, not on what earlier calls left
    in the other fields of the object. *)
Lemma solve_board_only (depth iters : nat) (pz1 pz2 : SudokuPuzzle) :
  board pz1 = board pz2 -> solve depth iters pz1 = solve depth iters pz2.
Proof.
  intros Hb. destruct depth as [|d]; simpl; auto.
  destruct iters as [|k]; simpl; auto.
  assert (E : trimPossibilities (setAllPossibilities pz1)
              = trimPossibilities (setAllPossibilities pz2)).
  { unfold trimPossibilities, setAllPossibilities, withMin, withPossibilities.
    cbn [board possibilities]. now rewrite Hb. }
  now rewrite E.
Qed.

(** C9: [solve] is a function of the board, and [verbose] only adds
    output.  Two calls on objects with the same board, with any values of
    [verbose], return the same bool and leave the same object, board
    included. *)
Theorem solve_verbose_observer (verbose1 verbose2 : bool) (depth iters : nat)
    (pz1 pz2 : SudokuPuzzle) :
  board pz1 = board pz2 ->
  fst (Traced.solve verbose1 depth iters pz1)
  = fst (Traced.solve verbose2 depth iters pz2).
Proof.
  intros Hb. rewrite !solve_erase. now apply solve_board_only.
Qed.

Lemma solve_verbose_observer_witness :
  fst (Traced.solve true 82 83 (newPuzzle forcedThenStuck))
  = fst (Traced.solve false 82 83 (withMin (newPuzzle forcedThenStuck) 2 0 8)).
Proof.
  apply (@solve_verbose_observer true false 82 83).
  reflexivity.
Defined.

(** With [verbose] the same call writes more. *)
Lemma verbose_adds_output :
  snd (Traced.solve false 82 83 (newPuzzle forcedThenStuck)) = [] /\
  snd (Traced.solve true 82 83 (newPuzzle forcedThenStuck)) <> [].
Proof.
  split; [vm_compute; reflexivity|]. intros H. vm_compute in H. discriminate.
Qed.

(** * More of the program *)

(** ** The accessors and the constructor from an array *)

(** [setValue] and [getValue]: the cell written holds the value, every other
    cell holds what it held, the board keeps its shape, and writing back
    what a cell holds changes nothing. *)
Theorem setValue_getValue (b : Board) (r c : nat) (v : Z) :
  wfBoard b -> r < 9 -> c < 9 ->
  getValue (setValue b r c v) r c = v /\
  (forall r' c', r' <> r \/ c' <> c ->
     getValue (setValue b r c v) r' c' = getValue b r' c') /\
  wfBoard (setValue b r c v) /\
  setValue b r c (getValue b r c) = b /\
  (forall w, setValue (setValue b r c v) r c w = setValue b r c w).
Proof.
  intros Hw Hr Hc. split; [|split; [|split; [|split]]].
  - now apply getValue_setValue_same.
  - intros r' c' Hne. apply getValue_setValue_other. lia.
  - now apply setValue_wf.
  - apply board_ext; auto using setValue_wf. intros i j Hi Hj.
    destruct (cell_eq_dec i j r c) as [[-> ->]|Hne].
    + now apply getValue_setValue_same.
    + apply getValue_setValue_other. lia.
  - intros w. apply board_ext; auto using setValue_wf. intros i j Hi Hj.
    destruct (cell_eq_dec i j r c) as [[-> ->]|Hne].
    + rewrite !getValue_setValue_same; auto using setValue_wf.
    + rewrite !getValue_setValue_other by lia. reflexivity.
Qed.

Lemma setValue_getValue_witness :
  getValue (setValue puzzle3 4 4 0) 4 4 = 0%Z.
Proof.
  apply (@setValue_getValue puzzle3 4 4 0%Z).
  - apply wfBoard_concrete. reflexivity.
  - lia.
  - lia.
Defined.

Lemma forallb_ext_on (A : Type) (f g : A -> bool) (l : list A) :
  (forall x, In x l -> f x = g x) -> forallb f l = forallb g l.
Proof.
  induction l as [|a l IH]; intros H; simpl; auto.
  rewrite (H a (or_introl eq_refl)), IH; auto. intros x Hx. apply H. now right.
Qed.

(** [SudokuPuzzle(const int[9][9])]: the object holds the values of the
    array, no cell has a candidate set, and the [min...] fields hold 10; a
    check of the object's board is a check of the array. *)
Theorem newPuzzle_copies (b : Board) :
  wfBoard b ->
  board (newPuzzle b) = b /\
  (forall r c, r < 9 -> c < 9 -> getPoss (possibilities (newPuzzle b)) r c = None) /\
  countSets (possibilities (newPuzzle b)) = 0 /\
  (minPossibilities (newPuzzle b), minRow (newPuzzle b), minCol (newPuzzle b))
    = (10%Z, 10, 10) /\
  isSolutionValid (board (newPuzzle b)) = isSolutionValid b.
Proof.
  intros Hw.
  assert (Hnone : forall r c, r < 9 -> c < 9 ->
            getPoss (possibilities (newPuzzle b)) r c = None).
  { intros r c Hr Hc. simpl. unfold getPoss. now rewrite get2_tabulate. }
  split; [now apply newPuzzle_board|]. split; [exact Hnone|]. split; [|split].
  - unfold countSets.
    rewrite (@filter_ext_in _ (hasSet (possibilities (newPuzzle b))) (fun _ => false)).
    + clear. induction allCells; simpl; auto.
    + intros [r c] Hin. destruct (allCells_range Hin) as [Hr Hc]. unfold hasSet.
      simpl fst. simpl snd. simpl in Hr, Hc. now rewrite Hnone.
  - reflexivity.
  - now rewrite newPuzzle_board.
Qed.

Lemma newPuzzle_copies_witness : board (newPuzzle puzzle3) = puzzle3.
Proof.
  apply (@newPuzzle_copies puzzle3). apply wfBoard_concrete. reflexivity.
Defined.

(** ** Candidate sets *)

(** [setAllPossibilities] leaves the board alone and gives a set to exactly
    the blank cells, each time the nine digits, whatever sets the object
    held before: there are as many sets as blank cells, and a second call
    changes nothing. *)
Theorem setAllPossibilities_fresh (pz : SudokuPuzzle) :
  wfBoard (board pz) ->
  board (setAllPossibilities pz) = board pz /\
  (forall r c, r < 9 -> c < 9 ->
     getPoss (possibilities (setAllPossibilities pz)) r c
       = if (getValue (board pz) r c =? 0)%Z then Some [1; 2; 3; 4; 5; 6; 7; 8; 9]%Z
         else None) /\
  countSets (possibilities (setAllPossibilities pz)) = countBlank (board pz) /\
  setAllPossibilities (setAllPossibilities pz) = setAllPossibilities pz.
Proof.
  intros Hw. split; [reflexivity|]. split; [|split].
  - intros r c Hr Hc. simpl. unfold getPoss. now rewrite get2_tabulate.
  - destruct (setAllPossibilities_inv pz Hw) as [Hinv Ht].
    symmetry. exact (count_blank_sets Hinv Ht).
  - reflexivity.
Qed.

Lemma setAllPossibilities_fresh_witness :
  countSets (possibilities (setAllPossibilities (newPuzzle forcedThenStuck)))
  = countBlank (board (newPuzzle forcedThenStuck)).
Proof.
  apply (@setAllPossibilities_fresh (newPuzzle forcedThenStuck)). apply tabulate_wf.
Defined.

(** A pass that does not return -1 only takes candidates away: a set it
    leaves was a set before and holds none but values of that set, between 2
    and 9 of them, at a cell that is still blank; no blank cell is added. *)
Theorem trimPossibilities_shrinks (pz : SudokuPuzzle) :
  puzzleInv pz -> fst (trimPossibilities pz) <> (-1)%Z ->
  let pz' := snd (trimPossibilities pz) in
  (forall r c s', r < 9 -> c < 9 ->
     getPoss (possibilities pz') r c = Some s' ->
     exists s, getPoss (possibilities pz) r c = Some s /\
       (forall v, In v s' -> In v s) /\
       2 <= length s' <= 9 /\ getValue (board pz') r c = 0%Z) /\
  countSets (possibilities pz') <= countSets (possibilities pz) /\
  countBlank (board pz') <= countBlank (board pz).
Proof.
  intros Hinv Hn. cbv zeta.
  pose proof (trimPossibilities_inv Hinv) as Hinv1.
  split; [|split].
  - intros r c s' Hr Hc Es'.
    destruct (trimPossibilities_visit Hinv Hn Hr Hc) as (bv & _ & Ho).
    unfold cellOutcome in Ho. rewrite Es' in Ho.
    destruct (getPoss (possibilities pz) r c) as [s|] eqn:Es;
      [|destruct Ho; discriminate].
    exists s. split; auto.
    pose proof (candidateSet_length (inv_digits Hinv1 Hr Hc Es')) as Hlen.
    assert (E : s' = workable bv r c s /\ 2 <= length s').
    { destruct (workable bv r c s) as [|x [|y l]]; try tauto.
      - destruct Ho; discriminate.
      - destruct Ho as [E _]. injection E as ->. split; auto. simpl. lia. }
    destruct E as [E Hl]. split; [|split; [lia|]].
    + intros v Hv. rewrite E in Hv. apply filter_In in Hv. tauto.
    + exact (inv_blank Hinv1 Hr Hc Es').
  - apply (trimPossibilities_countSets Hinv Hn).
  - now apply trimPossibilities_blanks.
Qed.

Lemma trimPossibilities_shrinks_witness :
  countBlank (board (snd (trimPossibilities
                            (setAllPossibilities (newPuzzle fiftyAfterFirstPass)))))
  <= countBlank (board (setAllPossibilities (newPuzzle fiftyAfterFirstPass))).
Proof.
  apply (@trimPossibilities_shrinks (setAllPossibilities (newPuzzle fiftyAfterFirstPass))).
  - apply setAllPossibilities_inv. apply tabulate_wf.
  - vm_compute. discriminate.
Defined.

(** [wouldWork] always leaves 0 in the cell it tests and touches no other
    cell: called on a cell that holds a digit, it erases the digit. *)
Theorem wouldWork_leaves_zero (b : Board) (v : Z) (r c : nat) :
  wfBoard b -> r < 9 -> c < 9 ->
  getValue (snd (wouldWork b v r c)) r c = 0%Z /\
  (forall r' c', r' <> r \/ c' <> c ->
     getValue (snd (wouldWork b v r c)) r' c' = getValue b r' c') /\
  (getValue b r c <> 0%Z -> snd (wouldWork b v r c) <> b).
Proof.
  intros Hw Hr Hc. rewrite wouldWork_snd.
  assert (H0 : getValue (setValue (setValue b r c v) r c 0) r c = 0%Z)
    by (apply getValue_setValue_same; auto using setValue_wf).
  split; [exact H0|]. split.
  - intros r' c' Hne. rewrite !getValue_setValue_other by lia. reflexivity.
  - intros Hnz E. rewrite E in H0. contradiction.
Qed.

Lemma wouldWork_leaves_zero_witness :
  getValue (snd (wouldWork puzzle3 5 0 0)) 0 0 = 0%Z.
Proof.
  apply (@wouldWork_leaves_zero puzzle3 5%Z 0 0).
  - apply wfBoard_concrete. reflexivity.
  - lia.
  - lia.
Defined.

(** ** What a true answer leaves on the board *)

Lemma countBlank_full (b : Board) :
  (forall r c, r < 9 -> c < 9 -> getValue b r c <> 0%Z) -> countBlank b = 0.
Proof.
  intros H. unfold countBlank.
  rewrite (@filter_ext_in _ _ (fun _ => false)).
  - clear. induction allCells; simpl; auto.
  - intros [r c] Hin. destruct (allCells_range Hin) as [Hr Hc]. simpl in *.
    apply Z.eqb_neq. auto.
Qed.

Lemma subPuzzleFor_digits (pz : SudokuPuzzle) (s : IntSet) (v : Z) :
  puzzleInv pz -> minRow pz < 9 -> minCol pz < 9 ->
  getPoss (possibilities pz) (minRow pz) (minCol pz) = Some s -> In v s ->
  digitsOnly (board pz) -> digitsOnly (board (subPuzzleFor pz v)).
Proof.
  intros Hinv Hr Hc Es Hv Hd. rewrite (@subPuzzleFor_board pz v (inv_board Hinv)).
  destruct (inv_digits Hinv Hr Hc Es) as [_ Hdig]. specialize (Hdig v Hv).
  intros i j Hi Hj. destruct (cell_eq_dec i j (minRow pz) (minCol pz)) as [[-> ->]|Hne].
  - rewrite getValue_setValue_same by (auto; apply (inv_board Hinv)). lia.
  - rewrite getValue_setValue_other by lia. now apply Hd.
Qed.

Lemma whileLoop_fills (subsolve : SudokuPuzzle -> Outcome) (iters : nat) :
  forall (pz : SudokuPuzzle) (prev : Z) (pz' : SudokuPuzzle),
  puzzleInv pz -> allTracked pz ->
  (forall spz spz', wfBoard (board spz) -> subsolve spz = Returns true spz' ->
     wfBoard (board spz') /\ countBlank (board spz') = 0 /\
     (digitsOnly (board spz) -> digitsOnly (board spz'))) ->
  whileLoop iters subsolve pz prev = Returns true pz' ->
  wfBoard (board pz') /\ countBlank (board pz') = 0 /\
  (digitsOnly (board pz) -> digitsOnly (board pz')).
Proof.
  induction iters as [|k IH]; intros pz prev pz' Hinv Ht Hsub H;
    simpl in H; [discriminate|].
  pose proof (trimPossibilities_inv Hinv) as Hinv1.
  pose proof (trimPossibilities_tracked Hinv Ht) as Ht1.
  pose proof (trimPossibilities_countSets Hinv) as Hcs.
  pose proof (trimPossibilities_valid Hinv) as [_ Hdig1].
  pose proof (trimPossibilities_min Hinv) as Hmin. cbv zeta in Hmin.
  destruct (trimPossibilities pz) as [n pz1]. cbn [fst snd] in *.
  destruct (Z.eqb_spec n (-1)); [discriminate|].
  destruct (Hcs ltac:(auto)) as [En Hle].
  destruct (Z.eqb_spec n 0) as [E0|Hn0].
  - injection H as <-. split; [apply (inv_board Hinv1)|]. split; auto.
    rewrite (count_blank_sets Hinv1 Ht1). lia.
  - destruct (Z.eqb_spec n prev) as [Ep|Hp].
    + destruct (Hmin ltac:(auto) ltac:(auto)) as (Hr & Hc & s & Es & _).
      rewrite Es in H. apply tryCandidates_true in H.
      destruct H as (before & v & after & solved & Esplit & _ & Hs & ->).
      assert (Hv : In v s) by (rewrite Esplit; apply in_or_app; right; now left).
      pose proof (inv_board Hinv1) as Hw1.
      destruct (subPuzzleFor_blanks v Hinv1 Hr Hc Es Hv) as [Hws _].
      destruct (Hsub _ _ Hws Hs) as (Hwf & Hfull & Hdsub).
      destruct (copyBack_spec (board solved) Hw1) as [Hwc Hcopy].
      cbn [board withBoard]. split; [exact Hwc|]. split.
      * apply countBlank_full. intros i j Hi Hj. rewrite (Hcopy i j Hi Hj).
        destruct (Z.eqb_spec (getValue (board pz1) i j) 0); auto.
        now apply countBlank_zero.
      * intros Hd i j Hi Hj. rewrite (Hcopy i j Hi Hj).
        destruct (Z.eqb_spec (getValue (board pz1) i j) 0); [|now apply Hdig1].
        apply Hdsub; auto. apply (subPuzzleFor_digits v Hinv1 Hr Hc Es Hv); auto.
    + destruct (IH pz1 n pz' Hinv1 Ht1 Hsub H) as (I1 & I2 & I3). auto.
Qed.

Lemma solve_fills (iters : nat) (depth : nat) : forall pz pz' : SudokuPuzzle,
  wfBoard (board pz) -> solve depth iters pz = Returns true pz' ->
  wfBoard (board pz') /\ countBlank (board pz') = 0 /\
  (digitsOnly (board pz) -> digitsOnly (board pz')).
Proof.
  induction depth as [|d IH]; intros pz pz' Hw H; simpl in H; [discriminate|].
  destruct (setAllPossibilities_inv pz Hw) as [Hinv Ht].
  apply (@whileLoop_fills (solve d iters) iters (setAllPossibilities pz) 50 pz'
           Hinv Ht); auto.
Qed.

(** When [solve] returns true, whatever the number of blank cells and
    whether or not the given values clash, no cell of the board is blank,
    the cells that held a value hold it still, and if the board held only
    0..9 then every cell holds one of 1..9. *)
Theorem solve_true_fills_board (depth iters : nat) (pz pz' : SudokuPuzzle) :
  wfBoard (board pz) -> solve depth iters pz = Returns true pz' ->
  wfBoard (board pz') /\
  (forall r c, r < 9 -> c < 9 -> getValue (board pz') r c <> 0%Z) /\
  (forall r c, r < 9 -> c < 9 -> getValue (board pz) r c <> 0%Z ->
     getValue (board pz') r c = getValue (board pz) r c) /\
  (digitsOnly (board pz) ->
   forall r c, r < 9 -> c < 9 -> (1 <= getValue (board pz') r c <= 9)%Z).
Proof.
  intros Hw H. destruct (@solve_fills iters depth pz pz' Hw H) as (Hw' & Hfull & Hd).
  assert (Hnz : forall r c, r < 9 -> c < 9 -> getValue (board pz') r c <> 0%Z)
    by (intros r c; now apply countBlank_zero).
  split; [exact Hw'|]. split; [exact Hnz|]. split.
  - exact (@solve_clues_kept depth iters pz pz' true Hw H).
  - intros Hdig r c Hr Hc. specialize (Hd Hdig r c Hr Hc).
    specialize (Hnz r c Hr Hc). lia.
Qed.

Lemma solve_true_fills_board_witness :
  exists pz', solve 82 83 (newPuzzle fiftyAfterFirstPass) = Returns true pz' /\
    forall r c, r < 9 -> c < 9 -> getValue (board pz') r c <> 0%Z.
Proof.
  assert (H : solve 82 83 (newPuzzle fiftyAfterFirstPass)
              = Returns true (returned (solve 82 83 (newPuzzle fiftyAfterFirstPass))))
    by (vm_compute; reflexivity).
  exists (returned (solve 82 83 (newPuzzle fiftyAfterFirstPass))).
  split; [exact H|].
  exact (proj1 (proj2 (@solve_true_fills_board 82 83 (newPuzzle fiftyAfterFirstPass) _
                          (tabulate_wf _) H))).
Defined.

(** A second call of [solve] on an object for which it returned true
    returns true again and leaves the board as the first call left it. *)
Theorem solve_again (depth iters depth' iters' : nat) (pz pz' : SudokuPuzzle) :
  wfBoard (board pz) -> solve depth iters pz = Returns true pz' ->
  0 < depth' -> 0 < iters' ->
  exists pz'', solve depth' iters' pz' = Returns true pz'' /\
               board pz'' = board pz'.
Proof.
  intros Hw H Hd Hi. destruct (@solve_fills iters depth pz pz' Hw H) as (Hw' & Hfull & _).
  now apply solve_full_board.
Qed.

Lemma solve_again_witness :
  exists pz' pz'', solve 82 83 (newPuzzle fiftyAfterFirstPass) = Returns true pz' /\
    solve 1 1 pz' = Returns true pz'' /\ board pz'' = board pz'.
Proof.
  assert (H : solve 82 83 (newPuzzle fiftyAfterFirstPass)
              = Returns true (returned (solve 82 83 (newPuzzle fiftyAfterFirstPass))))
    by (vm_compute; reflexivity).
  destruct (@solve_again 82 83 1 1 (newPuzzle fiftyAfterFirstPass) _
              (tabulate_wf _) H ltac:(lia) ltac:(lia)) as (pz'' & H1 & H2).
  exists (returned (solve 82 83 (newPuzzle fiftyAfterFirstPass))), pz''.
  split; [exact H|]. split; [exact H1|exact H2].
Defined.

(** ** What a false answer leaves on the board *)

Lemma propagate_valid (iters : nat) : forall (pz : SudokuPuzzle) (prev : Z) (pzp : SudokuPuzzle),
  puzzleInv pz -> propagate iters pz prev = Some pzp ->
  (noDuplicates (board pz) -> noDuplicates (board pzp)) /\
  (digitsOnly (board pz) -> digitsOnly (board pzp)).
Proof.
  induction iters as [|k IH]; intros pz prev pzp Hinv H; simpl in *; [discriminate|].
  pose proof (trimPossibilities_inv Hinv) as H1.
  pose proof (trimPossibilities_valid Hinv) as H2.
  destruct (trimPossibilities pz) as [n pz1]. simpl in *.
  destruct (n =? -1)%Z; [injection H as <-; exact H2|].
  destruct (n =? 0)%Z; [injection H as <-; exact H2|].
  destruct (n =? prev)%Z; [injection H as <-; exact H2|].
  destruct (IH pz1 n pzp H1 H) as (I1 & I2). tauto.
Qed.

(** [solve] returns for every 9x9 board, and when it returns false the
    values it has written stay: the board it leaves is 9x9, holds no
    duplicate if the given board held none, and only 0..9 if the given
    board held only 0..9. *)
Theorem solve_false_leaves_consistent_board (depth iters : nat) (pz : SudokuPuzzle) :
  wfBoard (board pz) -> countBlank (board pz) < depth -> 83 <= iters ->
  exists res pz', solve depth iters pz = Returns res pz' /\
    (res = false ->
     wfBoard (board pz') /\
     (noDuplicates (board pz) -> noDuplicates (board pz')) /\
     (digitsOnly (board pz) -> digitsOnly (board pz')) /\
     countBlank (board pz') <= countBlank (board pz)).
Proof.
  intros Hw Hd Hi.
  destruct (@solve_returns iters depth pz Hw Hd Hi) as (res & pz' & H).
  exists res, pz'. split; [exact H|]. intros ->.
  destruct (@solve_after_propagate depth iters pz pz' false H) as (pzp & Hp & Hf & _).
  rewrite (Hf eq_refl).
  destruct (setAllPossibilities_inv pz Hw) as [Hinv _].
  destruct (@propagate_inv iters _ 50%Z pzp Hinv Hp) as (Hinvp & _ & Hclue).
  destruct (@propagate_valid iters _ 50%Z pzp Hinv Hp) as [V1 V2].
  split; [apply (inv_board Hinvp)|]. split; [exact V1|]. split; [exact V2|].
  apply countBlank_mono. intros r c Hr Hc Hnz.
  rewrite (Hclue r c Hr Hc Hnz). exact Hnz.
Qed.

Lemma solve_false_leaves_consistent_board_witness :
  exists res pz', solve 82 83 (newPuzzle forcedThenStuck) = Returns res pz' /\
    (res = false ->
     wfBoard (board pz') /\
     (noDuplicates (board (newPuzzle forcedThenStuck)) -> noDuplicates (board pz')) /\
     (digitsOnly (board (newPuzzle forcedThenStuck)) -> digitsOnly (board pz')) /\
     countBlank (board pz') <= countBlank (board (newPuzzle forcedThenStuck))).
Proof.
  apply (@solve_false_leaves_consistent_board 82 83 (newPuzzle forcedThenStuck)).
  - apply tabulate_wf.
  - vm_compute. lia.
  - lia.
Defined.

(** * A board with a valid completion *)

(** A board whose values stand in a board without duplicates holds no
    duplicate. *)
Lemma noDuplicates_sub (b full : Board) :
  noDuplicates full ->
  (forall r c, r < 9 -> c < 9 -> getValue b r c <> 0%Z ->
     getValue b r c = getValue full r c) ->
  noDuplicates b.
Proof.
  intros (HR & HC & HB) Hsub. split; [|split].
  - intros r Hr c1 c2 Hc1 Hc2 Hne Hnz.
    destruct (Z.eq_dec (getValue b r c2) 0) as [E|Hnz2]; [congruence|].
    rewrite (Hsub r c1), (Hsub r c2) by auto. apply HR; auto.
    rewrite <- Hsub; auto.
  - intros c Hc r1 r2 Hr1 Hr2 Hne Hnz.
    destruct (Z.eq_dec (getValue b r2 c) 0) as [E|Hnz2]; [congruence|].
    rewrite (Hsub r1 c), (Hsub r2 c) by auto. apply HC; auto.
    rewrite <- Hsub; auto.
  - intros R C HR' HC' r1 c1 r2 c2 E1 E2 E3 E4 Hne Hnz.
    assert (r1 < 9 /\ c1 < 9 /\ r2 < 9 /\ c2 < 9) as (Hr1 & Hc1 & Hr2 & Hc2) by dlia.
    destruct (Z.eq_dec (getValue b r2 c2) 0) as [E|Hnz2]; [congruence|].
    rewrite (Hsub r1 c1), (Hsub r2 c2) by auto. apply (HB R C); auto.
    rewrite <- Hsub; auto.
Qed.

(** The value of a completion is workable at a blank cell, and with it in
    the cell the completion is still one of the board. *)
Lemma completion_workable (b full : Board) (r c : nat) :
  wfBoard b -> validCompletion b full -> r < 9 -> c < 9 ->
  fst (wouldWork b (getValue full r c) r c) = true /\
  (getValue b r c = 0%Z ->
   validCompletion (setValue b r c (getValue full r c)) full).
Proof.
  intros Hw (Hwf & Hnd & Hdig & Hext) Hr Hc.
  assert (Hsub : forall i j, i < 9 -> j < 9 ->
            getValue (setValue b r c (getValue full r c)) i j <> 0%Z ->
            getValue (setValue b r c (getValue full r c)) i j = getValue full i j).
  { intros i j Hi Hj. destruct (cell_eq_dec i j r c) as [[-> ->]|Hne].
    - now rewrite getValue_setValue_same.
    - rewrite getValue_setValue_other by lia. intros Hnz. symmetry. now apply Hext. }
  split.
  - apply wouldWork_fst; auto.
    destruct (@noDuplicates_sub _ full Hnd Hsub) as (HR & HC & HB).
    split; [now apply HR|]. split; [now apply HC|]. apply HB; dlia.
  - intros H0. split; [exact Hwf|]. split; [exact Hnd|]. split; [exact Hdig|].
    intros i j Hi Hj Hnz. symmetry. now apply Hsub.
Qed.

(** A step of a pass never meets a contradiction on an object that admits
    a completion, and the object it leaves admits it still. *)
Lemma trimCell_admits (pz : SudokuPuzzle) (full : Board) (n : Z) (r c : nat) :
  puzzleInv pz -> admits pz full -> r < 9 -> c < 9 ->
  exists pz' n', trimCell pz n r c = Next pz' n' /\ admits pz' full.
Proof.
  intros Hinv [Hcomp Hsets] Hr Hc.
  destruct (trimCell_cases n Hinv Hr Hc) as [[Eg ->]|(s & Eg & Hcase)].
  { eexists. eexists. split; [reflexivity|]. split; auto. }
  cbv zeta in Hcase.
  pose proof (inv_board Hinv) as Hw. pose proof (inv_poss Hinv) as Hp.
  pose proof (inv_blank Hinv Hr Hc Eg) as H0.
  destruct (completion_workable Hw Hcomp Hr Hc) as [Hok Hnext].
  assert (Hin : In (getValue full r c) (workable (board pz) r c s)).
  { apply filter_In. split; [now apply (Hsets r c)|exact Hok]. }
  assert (G : forall x i j t, i < 9 -> j < 9 ->
            getPoss (setPoss (possibilities pz) r c x) i j = Some t ->
            (i = r /\ j = c /\ x = Some t) \/
            ((i <> r \/ j <> c) /\ getPoss (possibilities pz) i j = Some t)).
  { intros x i j t Hi Hj Ht. destruct (cell_eq_dec i j r c) as [[-> ->]|Hne].
    - rewrite getPoss_setPoss_same in Ht by auto. left. auto.
    - rewrite getPoss_setPoss_other in Ht by lia. right. auto. }
  destruct Hcase as [[Ek _]|[(v & Ek & ->)|[Hlen ->]]].
  - rewrite Ek in Hin. destruct Hin.
  - rewrite Ek in Hin. destruct Hin as [E|[]]. subst v.
    eexists. eexists. split; [reflexivity|]. split; cbn [board possibilities].
    + now apply Hnext.
    + intros i j t Hi Hj Ht. destruct (cell_eq_dec i j r c) as [[-> ->]|Hne].
      * rewrite getPoss_setPoss_same in Ht by auto using setPoss_wf. discriminate.
      * rewrite !getPoss_setPoss_other in Ht by lia. now apply (Hsets i j).
  - eexists. eexists. split; [reflexivity|].
    assert (A : forall i j t, i < 9 -> j < 9 ->
              getPoss (setPoss (possibilities pz) r c
                         (Some (workable (board pz) r c s))) i j = Some t ->
              In (getValue full i j) t).
    { intros i j t Hi Hj Ht. apply G in Ht; auto.
      destruct Ht as [(-> & -> & E)|[_ Ht]]; [|now apply (Hsets i j)].
      injection E as <-. exact Hin. }
    destruct (_ <? _)%Z; split; cbn [board possibilities]; auto.
Qed.

Lemma trimCells_admits (full : Board) (m : nat) :
  forall (k0 : nat) (pz : SudokuPuzzle) (n : Z),
  k0 + m <= 81 -> puzzleInv pz -> admits pz full ->
  exists pz' n', trimCells (map cellOfKey (seq k0 m)) pz n = Next pz' n' /\
                 admits pz' full.
Proof.
  induction m as [|m IH]; intros k0 pz n Hk Hinv Ha.
  - exists pz, n. split; [reflexivity|exact Ha].
  - rewrite trimCells_cons.
    destruct (@cellOfKey_range k0) as (Hr & Hc & _); [lia|].
    pose proof (trimCell_inv n Hinv Hr Hc) as Hinv1.
    destruct (trimCell_admits n Hinv Ha Hr Hc) as (pz1 & n1 & E & Ha1).
    rewrite E in *. cbn [stepPuzzle] in Hinv1. apply IH; auto. lia.
Qed.

(** A pass over an object that admits a completion does not return -1. *)
Lemma trimPossibilities_admits (pz : SudokuPuzzle) (full : Board) :
  puzzleInv pz -> admits pz full ->
  fst (trimPossibilities pz) <> (-1)%Z /\ admits (snd (trimPossibilities pz)) full.
Proof.
  intros Hinv Ha.
  pose proof (withMin_inv 10 10 10 Hinv) as Hinv0.
  assert (Ha0 : admits (withMin pz 10 10 10) full) by exact Ha.
  destruct (@trimCells_admits full 81 0 _ 0 ltac:(lia) Hinv0 Ha0) as (pz' & n' & E & Ha').
  pose proof (@trimCells_count 81 0 _ 0 ltac:(lia) Hinv0) as Hc.
  unfold trimPossibilities. rewrite allCells_keys. rewrite E in *.
  cbn [fst snd]. split; [|exact Ha']. destruct Hc as [-> _]. lia.
Qed.

Lemma whileLoop_not_false (full : Board) (subsolve : SudokuPuzzle -> Outcome)
    (iters : nat) :
  (forall spz x, wfBoard (board spz) -> validCompletion (board spz) full ->
     subsolve spz <> Returns false x) ->
  forall (pz : SudokuPuzzle) (prev : Z) (p : SudokuPuzzle),
  puzzleInv pz -> admits pz full ->
  whileLoop iters subsolve pz prev <> Returns false p.
Proof.
  intros Hsub. induction iters as [|k IH]; intros pz prev p Hinv Ha H;
    simpl in H; [discriminate|].
  pose proof (trimPossibilities_inv Hinv) as Hinv1.
  pose proof (trimPossibilities_min Hinv) as Hmin. cbv zeta in Hmin.
  destruct (trimPossibilities_admits Hinv Ha) as [Hn Ha1].
  destruct (trimPossibilities pz) as [n pz1]. cbn [fst snd] in *.
  destruct (Z.eqb_spec n (-1)); [contradiction|].
  destruct (Z.eqb_spec n 0); [discriminate|].
  destruct (Z.eqb_spec n prev) as [Ep|Hp]; [|exact (IH pz1 n p Hinv1 Ha1 H)].
  destruct (Hmin ltac:(auto) ltac:(auto)) as (Hr & Hc & s & Es & _).
  rewrite Es in H. apply tryCandidates_false in H. destruct H as [_ H].
  destruct Ha1 as [Hcomp Hsets].
  destruct (H (getValue full (minRow pz1) (minCol pz1)) (Hsets _ _ s Hr Hc Es))
    as [x Hx].
  pose proof (inv_board Hinv1) as Hw1.
  apply (Hsub _ x) in Hx; auto.
  - rewrite subPuzzleFor_board by exact Hw1. now apply setValue_wf.
  - rewrite subPuzzleFor_board by exact Hw1.
    apply (completion_workable Hw1 Hcomp Hr Hc). exact (inv_blank Hinv1 Hr Hc Es).
Qed.

Lemma solve_not_false (full : Board) (iters : nat) (depth : nat) :
  forall pz p : SudokuPuzzle,
  wfBoard (board pz) -> validCompletion (board pz) full ->
  solve depth iters pz <> Returns false p.
Proof.
  induction depth as [|d IH]; intros pz p Hw Hcomp; simpl; [discriminate|].
  destruct (setAllPossibilities_inv pz Hw) as [Hinv _].
  apply whileLoop_not_false with (full := full); auto.
  split; [exact Hcomp|]. intros r c s Hr Hc. simpl. unfold getPoss.
  rewrite get2_tabulate by auto.
  destruct (getValue (board pz) r c =? 0)%Z; [|discriminate].
  intros E. injection E as <-. destruct Hcomp as (_ & _ & Hdig & _).
  specialize (Hdig r c Hr Hc). unfold oneToNine. simpl. lia.
Qed.

(** [solve] finds a solution whenever there is one: on a board that has a
    valid completion it returns true, with no blank cell left and the given
    values in place; when the board has 50 blank cells or fewer, the board
    it leaves is a valid completion of the given one.  It need not be the
    completion assumed, when the board has several. *)
Theorem solve_finds_completion (full : Board) (depth iters : nat) (pz : SudokuPuzzle) :
  wfBoard (board pz) -> validCompletion (board pz) full ->
  countBlank (board pz) < depth -> 83 <= iters ->
  exists pz', solve depth iters pz = Returns true pz' /\
    (forall r c, r < 9 -> c < 9 -> getValue (board pz') r c <> 0%Z) /\
    (forall r c, r < 9 -> c < 9 -> getValue (board pz) r c <> 0%Z ->
       getValue (board pz') r c = getValue (board pz) r c) /\
    (countBlank (board pz) <= 50 -> validCompletion (board pz) (board pz')).
Proof.
  intros Hw Hcomp Hd Hi.
  destruct (@solve_returns iters depth pz Hw Hd Hi) as (res & pz' & H).
  destruct res; [|exfalso; exact (@solve_not_false full iters depth pz pz' Hw Hcomp H)].
  exists pz'. split; [exact H|].
  destruct (@solve_fills iters depth pz pz' Hw H) as (Hw' & Hfull & _).
  split; [intros r c; now apply countBlank_zero|]. split.
  - exact (@solve_clues_kept depth iters pz pz' true Hw H).
  - intros H50. apply (@solve_sound iters depth pz pz'); auto.
    + destruct Hcomp as (_ & Hnd & _ & Hext). apply (@noDuplicates_sub (board pz) full Hnd).
      intros r c Hr Hc Hnz. symmetry. now apply Hext.
    + destruct Hcomp as (_ & _ & Hdig & Hext). intros r c Hr Hc.
      destruct (Z.eq_dec (getValue (board pz) r c) 0) as [->|Hnz]; [lia|].
      rewrite <- Hext by auto. specialize (Hdig r c Hr Hc). lia.
Qed.

Lemma solve_finds_completion_witness :
  exists pz', solve 82 83 (newPuzzle puzzle3WithBlanks) = Returns true pz' /\
    (forall r c, r < 9 -> c < 9 -> getValue (board pz') r c <> 0%Z) /\
    (forall r c, r < 9 -> c < 9 ->
       getValue (board (newPuzzle puzzle3WithBlanks)) r c <> 0%Z ->
       getValue (board pz') r c = getValue (board (newPuzzle puzzle3WithBlanks)) r c) /\
    (countBlank (board (newPuzzle puzzle3WithBlanks)) <= 50 ->
     validCompletion (board (newPuzzle puzzle3WithBlanks)) (board pz')).
Proof.
  apply (@solve_finds_completion puzzle3 82 83 (newPuzzle puzzle3WithBlanks)).
  - apply tabulate_wf.
  - split; [apply wfBoard_concrete; reflexivity|]. split; [|split].
    + split; [apply rowsOk_spec; reflexivity|].
      split; [apply colsOk_spec; reflexivity|apply boxesOk_spec; reflexivity].
    + intros r c Hr Hc.
      do 9 (destruct r as [|r];
            [do 9 (destruct c as [|c]; [vm_compute; intuition congruence|]); lia|]).
      lia.
    + intros r c Hr Hc.
      do 9 (destruct r as [|r];
            [do 9 (destruct c as [|c]; [vm_compute; intuition congruence|]); lia|]).
      lia.
  - vm_compute. lia.
  - lia.
Defined.

(** ** More than 50 blank cells *)

(** Beyond 50 blank cells a true answer can come with a board that is no
    solution.  [fiftyAfterTwoForced] holds no duplicate and has the valid
    completion [puzzle3].  The first pass returns 50, which is the initial
    [prevNumBlank], so [solve] searches at once on cell (0,0) with the set
    {2, 8} as it stood before the pass wrote 2 into (0,1) and (8,0).  The
    sub-puzzle with 2 at (0,0) has no blank cell left in row 0, column 0 and
    box 0, so no check looks at these units again; it is solved, and [solve]
    returns true with 2 standing twice in row 0, in column 0 and in box 0. *)
Lemma solve_true_with_duplicates :
  noDuplicates fiftyAfterTwoForced /\ countBlank fiftyAfterTwoForced = 52 /\
  validCompletion fiftyAfterTwoForced puzzle3 /\
  fst (trimPossibilities (setAllPossibilities (newPuzzle fiftyAfterTwoForced))) = 50%Z /\
  exists pz',
    solve 82 83 (newPuzzle fiftyAfterTwoForced) = Returns true pz' /\
    getValue (board pz') 0 0 = 2%Z /\ getValue (board pz') 0 1 = 2%Z /\
    getValue (board pz') 8 0 = 2%Z /\
    isSolutionValid (board pz') = false /\ ~ noDuplicates (board pz').
Proof.
  split; [|split; [reflexivity|split; [|split; [vm_compute; reflexivity|]]]].
  - split; [apply rowsOk_spec; reflexivity|].
    split; [apply colsOk_spec; reflexivity|apply boxesOk_spec; reflexivity].
  - split; [apply wfBoard_concrete; reflexivity|]. split; [|split].
    + split; [apply rowsOk_spec; reflexivity|].
      split; [apply colsOk_spec; reflexivity|apply boxesOk_spec; reflexivity].
    + intros r c Hr Hc.
      do 9 (destruct r as [|r];
            [do 9 (destruct c as [|c]; [vm_compute; intuition congruence|]); lia|]).
      lia.
    + intros r c Hr Hc.
      do 9 (destruct r as [|r];
            [do 9 (destruct c as [|c]; [vm_compute; intuition congruence|]); lia|]).
      lia.
  - eexists. split; [vm_compute; reflexivity|].
    split; [reflexivity|]. split; [reflexivity|]. split; [reflexivity|].
    split; [vm_compute; reflexivity|].
    intros (HR & _). refine (HR 0 _ 0 1 _ _ _ _ _); try lia.
    + vm_compute. discriminate.
    + reflexivity.
Qed.

(** ** What [solve] writes without [verbose] *)

Lemma isRowOrColOk_quiet (b : Board) (row : nat) (which : RowOrCol) :
  snd (Traced.isRowOrColOk false b row which) = [].
Proof. unfold Traced.isRowOrColOk. now destruct (Traced.firstRepeat _ _). Qed.

Lemma isSubmatrixOk_quiet (b : Board) (sr sc : nat) :
  snd (Traced.isSubmatrixOk false b sr sc) = [].
Proof. unfold Traced.isSubmatrixOk. now destruct (Traced.firstRepeat _ _). Qed.

Lemma wouldWork_quiet (b : Board) (value : Z) (r c : nat) :
  snd (Traced.wouldWork false b value r c) = [].
Proof.
  unfold Traced.wouldWork. cbv zeta.
  pose proof (isRowOrColOk_quiet (setValue b r c value) r ROW) as H1.
  pose proof (isRowOrColOk_quiet (setValue b r c value) c COL) as H2.
  pose proof (isSubmatrixOk_quiet (setValue b r c value) (3 * (r / 3)) (3 * (c / 3))) as H3.
  destruct (Traced.isRowOrColOk false (setValue b r c value) r ROW) as [[|] o1];
    cbn [snd negb] in *; subst; auto.
  destruct (Traced.isRowOrColOk false (setValue b r c value) c COL) as [[|] o2];
    cbn [snd negb] in *; subst; auto.
  destruct (Traced.isSubmatrixOk false (setValue b r c value) (3 * (r / 3)) (3 * (c / 3)))
    as [[|] o3]; cbn [snd] in *; subst; auto.
Qed.

Lemma eraseUnworkable_quiet (r c : nat) (s : IntSet) : forall b : Board,
  snd (Traced.eraseUnworkable false b r c s) = [].
Proof.
  induction s as [|v rest IH]; intros b; simpl; auto.
  pose proof (wouldWork_quiet b v r c) as H1.
  destruct (Traced.wouldWork false b v r c) as [[ok b1] o1]. cbn [snd] in H1.
  specialize (IH b1).
  destruct (Traced.eraseUnworkable false b1 r c rest) as [[rest' b2] o2].
  cbn [snd] in *. now subst.
Qed.

Lemma trimCell_quiet (pz : SudokuPuzzle) (n : Z) (r c : nat) :
  snd (Traced.trimCell false pz n r c) = [].
Proof.
  unfold Traced.trimCell.
  destruct (getPoss (possibilities pz) r c) as [s|]; auto.
  pose proof (eraseUnworkable_quiet r c s (board pz)) as H.
  destruct (Traced.eraseUnworkable false (board pz) r c s) as [[s' b'] o1].
  cbn [snd] in H. subst o1. cbn [Traced.say app].
  destruct (length s' =? 0); auto. destruct (length s' =? 1); auto.
Qed.

Lemma trimCells_quiet (cells : list (nat * nat)) : forall (pz : SudokuPuzzle) (n : Z),
  snd (Traced.trimCells false cells pz n) = [].
Proof.
  induction cells as [|[r c] rest IH]; intros pz n; simpl; auto.
  pose proof (trimCell_quiet pz n r c) as H.
  destruct (Traced.trimCell false pz n r c) as [[pz'|pz' n'] o1]; cbn [snd] in *; auto.
  specialize (IH pz' n'). destruct (Traced.trimCells false rest pz' n') as [st o2].
  cbn [snd] in *. now subst.
Qed.

Lemma trimPossibilities_quiet (pz : SudokuPuzzle) :
  snd (Traced.trimPossibilities false pz) = [].
Proof.
  unfold Traced.trimPossibilities. cbv zeta.
  pose proof (trimCells_quiet allCells (withMin pz 10 10 10) 0) as H.
  destruct (Traced.trimCells false allCells (withMin pz 10 10 10) 0) as [[pz'|pz' n'] o1];
    cbn [snd Traced.say app] in *; now subst.
Qed.

(** The values of a solved sub-puzzle copied into the blanks make the
    board of the sub-puzzle. *)
Lemma copyBack_solved (b sb : Board) (mr mc : nat) (v : Z) :
  wfBoard b -> wfBoard sb -> mr < 9 -> mc < 9 -> getValue b mr mc = 0%Z ->
  (forall r c, r < 9 -> c < 9 -> getValue (setValue b mr mc v) r c <> 0%Z ->
     getValue sb r c = getValue (setValue b mr mc v) r c) ->
  copyBack b sb = sb.
Proof.
  intros Hw Hws Hr Hc H0 Hk. destruct (copyBack_spec sb Hw) as [Hwc Hcopy].
  apply board_ext; auto. intros i j Hi Hj. rewrite (Hcopy i j Hi Hj).
  destruct (Z.eqb_spec (getValue b i j) 0) as [Ez|Hnz]; auto.
  assert (Hne : mr <> i \/ mc <> j).
  { destruct (cell_eq_dec mr mc i j) as [[? ?]|]; auto. subst. contradiction. }
  specialize (Hk i j Hi Hj). rewrite getValue_setValue_other in Hk by auto.
  symmetry. auto.
Qed.

Lemma tryCandidates_quiet (tsub : SudokuPuzzle -> Outcome * list Out)
    (pz : SudokuPuzzle) (cands : list Z) :
  (forall v x out, tsub (subPuzzleFor pz v) = (Returns false x, out) -> out = []) ->
  forall res pz' out,
  Traced.tryCandidates false tsub pz cands = (Returns res pz', out) ->
  if res then
    exists v solvedSub, In v cands /\
      tsub (subPuzzleFor pz v) = (Returns true solvedSub, out) /\
      pz' = withBoard pz (copyBack (board pz) (board solvedSub))
  else out = [].
Proof.
  intros Hf. induction cands as [|v rest IH]; intros res pz' out H; simpl in H.
  - injection H as <- <- <-. reflexivity.
  - destruct (tsub (subPuzzleFor pz v)) as [[[|] solved| |] o2] eqn:Es;
      try discriminate.
    + injection H as <- <- <-. exists v, solved. simpl. auto.
    + rewrite (Hf _ _ _ Es) in H.
      destruct (Traced.tryCandidates false tsub pz rest) as [o' o3].
      injection H as -> <-. specialize (IH res pz' o3 eq_refl).
      destruct res; auto.
      destruct IH as (u & solved' & Hu & Hs & E). exists u, solved'. simpl. auto.
Qed.

Lemma whileLoop_quiet (tsub : SudokuPuzzle -> Outcome * list Out) (iters : nat) :
  (forall spz res spz' out, wfBoard (board spz) ->
     tsub spz = (Returns res spz', out) ->
     out = (if res then [Text "Solution:"; Endl] ++ Traced.print (board spz') else []) /\
     (res = true -> wfBoard (board spz') /\
        forall r c, r < 9 -> c < 9 -> getValue (board spz) r c <> 0%Z ->
          getValue (board spz') r c = getValue (board spz) r c)) ->
  forall (pz : SudokuPuzzle) (prev : Z) (res : bool) (pz' : SudokuPuzzle) (out : list Out),
  puzzleInv pz ->
  Traced.whileLoop false iters tsub pz prev = (Returns res pz', out) ->
  out = if res then [Text "Solution:"; Endl] ++ Traced.print (board pz') else [].
Proof.
  intros Hsub. induction iters as [|k IH]; intros pz prev res pz' out Hinv H;
    simpl in H; [discriminate|].
  pose proof (trimPossibilities_inv Hinv) as Hinv1.
  pose proof (trimPossibilities_min Hinv) as Hmin. cbv zeta in Hmin.
  rewrite <- (trimPossibilities_erase false pz) in Hinv1, Hmin.
  pose proof (trimPossibilities_quiet pz) as Hq.
  destruct (Traced.trimPossibilities false pz) as [[n pz1] o1].
  cbn [fst snd] in *. subst o1.
  destruct (Z.eqb_spec n (-1)); [injection H as <- <- <-; reflexivity|].
  destruct (Z.eqb_spec n 0); [injection H as <- <- <-; reflexivity|].
  destruct (Z.eqb_spec n prev) as [Ep|Hp].
  - destruct (Hmin ltac:(auto) ltac:(auto)) as (Hr & Hc & s & Es & _).
    rewrite Es in H. cbn [Traced.say app] in H.
    destruct (Traced.tryCandidates false tsub pz1 s) as [o o3] eqn:Et.
    injection H as -> <-. pose proof (inv_board Hinv1) as Hw1.
    assert (Hws : forall v, wfBoard (board (subPuzzleFor pz1 v))).
    { intros v. rewrite subPuzzleFor_board by exact Hw1. now apply setValue_wf. }
    apply tryCandidates_quiet in Et.
    + destruct res; auto. destruct Et as (v & solved & Hv & Hs & ->).
      destruct (Hsub _ _ _ _ (Hws v) Hs) as [-> Ht].
      destruct (Ht eq_refl) as [Hwf Hk]. cbn [board withBoard].
      rewrite (@subPuzzleFor_board pz1 v Hw1) in Hk.
      rewrite (@copyBack_solved (board pz1) (board solved) (minRow pz1) (minCol pz1) v);
        auto.
      exact (inv_blank Hinv1 Hr Hc Es).
    + intros v x out' Hx. now destruct (Hsub _ _ _ _ (Hws v) Hx) as [-> _].
  - destruct (Traced.whileLoop false k tsub pz1 n) as [o o2] eqn:Ew.
    injection H as -> <-. now apply (IH pz1 n).
Qed.

Lemma solve_quiet (iters : nat) (depth : nat) :
  forall (pz : SudokuPuzzle) (res : bool) (pz' : SudokuPuzzle) (out : list Out),
  wfBoard (board pz) ->
  Traced.solve false depth iters pz = (Returns res pz', out) ->
  out = if res then [Text "Solution:"; Endl] ++ Traced.print (board pz') else [].
Proof.
  induction depth as [|d IH]; intros pz res pz' out Hw H; simpl in H;
    [discriminate|].
  destruct (setAllPossibilities_inv pz Hw) as [Hinv _].
  apply (@whileLoop_quiet (Traced.solve false d iters) iters) with
    (pz := setAllPossibilities pz) (prev := 50%Z); auto.
  intros spz r spz' o Hws Hs. split; [exact (IH spz r spz' o Hws Hs)|]. intros ->.
  assert (E : solve d iters spz = Returns true spz')
    by (rewrite <- (solve_erase iters d false spz), Hs; reflexivity).
  split.
  - destruct d as [|d']; [discriminate|]. simpl in E.
    destruct (setAllPossibilities_inv spz Hws) as [Hinvs _].
    apply whileLoop_propagate in E. destruct E as (pzp & Hp & Hres).
    destruct (@propagate_inv iters _ 50%Z pzp Hinvs Hp) as (Hinvp & _).
    destruct Hres as [->|(_ & s & v & solved & _ & _ & _ & ->)];
      [apply (inv_board Hinvp)|].
    apply copyBack_spec, (inv_board Hinvp).
  - exact (@solve_clues_kept d iters spz spz' true Hws E).
Qed.

(** Without [verbose], [solve] writes nothing when it returns false, and
    when it returns true it writes the line [Solution:] and the board, once,
    as the call leaves it: the print is made by the call whose pass returns
    0, the sub-puzzle solved last when there was a search, and the calls
    above it copy that board and write nothing. *)
Theorem solve_quiet_output (depth iters : nat) (pz : SudokuPuzzle) :
  wfBoard (board pz) -> countBlank (board pz) < depth -> 83 <= iters ->
  exists res pz',
    Traced.solve false depth iters pz
    = (Returns res pz',
       if res then [Text "Solution:"; Endl] ++ Traced.print (board pz') else []).
Proof.
  intros Hw Hd Hi.
  destruct (@solve_returns iters depth pz Hw Hd Hi) as (res & pz' & H).
  exists res, pz'. rewrite <- (solve_erase iters depth false pz) in H.
  destruct (Traced.solve false depth iters pz) as [o out] eqn:E. cbn [fst] in H. subst o.
  now rewrite (@solve_quiet iters depth pz res pz' out Hw E).
Qed.

Lemma solve_quiet_output_witness :
  exists res pz',
    Traced.solve false 82 83 (newPuzzle fiftyAfterFirstPass)
    = (Returns res pz',
       if res then [Text "Solution:"; Endl] ++ Traced.print (board pz') else []).
Proof.
  apply (@solve_quiet_output 82 83 (newPuzzle fiftyAfterFirstPass)).
  - apply tabulate_wf.
  - vm_compute. lia.
  - lia.
Defined.

(** * The validators *)

(** ** Loops that stop at the first failure *)

Lemma checkUnits_fst (A : Type) (check : A -> bool * list Out) (units : list A) :
  fst (checkUnits check units) = forallb (fun u => fst (check u)) units.
Proof.
  induction units as [|u rest IH]; simpl; auto.
  destruct (check u) as [[|] out1]; cbn [fst andb]; auto.
  rewrite <- IH. now destruct (checkUnits check rest).
Qed.

Lemma checkUnits_quiet (A : Type) (check : A -> bool * list Out) (units : list A) :
  (forall u, snd (check u) = []) -> snd (checkUnits check units) = [].
Proof.
  intros Hq. induction units as [|u rest IH]; simpl; auto.
  specialize (Hq u). destruct (check u) as [[|] out1]; cbn [snd] in *; auto.
  destruct (checkUnits check rest) as [ok' out2]. cbn [snd] in *. now subst.
Qed.

Lemma forallb_submatrixStarts (f : nat -> nat -> bool) :
  forallb (fun start => f (fst start) (snd start)) submatrixStarts
  = forallb (fun startRow => forallb (fun startCol => f startRow startCol) [0; 3; 6])
            [0; 3; 6].
Proof.
  cbn. repeat (destruct (f _ _); cbn; auto).
Qed.

(** ** [isSolutionValid] and [verbose] *)

Lemma areSubmatricesOk_erase (verbose : bool) (b : Board) :
  fst (Validator.areSubmatricesOk verbose b) = areSubmatricesOk b.
Proof.
  unfold Validator.areSubmatricesOk, areSubmatricesOk. rewrite checkUnits_fst.
  rewrite (forallb_submatrixStarts (fun sr sc => fst (Traced.isSubmatrixOk verbose b sr sc))).
  cbn [forallb]. now rewrite !isSubmatrixOk_erase.
Qed.

Lemma isSolutionValid_erase (verbose : bool) (b : Board) :
  fst (Validator.isSolutionValid verbose b) = isSolutionValid b.
Proof.
  unfold Validator.isSolutionValid, isSolutionValid.
  rewrite <- (areSubmatricesOk_erase verbose b).
  rewrite (@forallb_ext_on _ (fun row => isRowOrColOk b row ROW)
             (fun row => fst (Traced.isRowOrColOk verbose b row ROW)) (seq 0 9))
    by (intros; now rewrite isRowOrColOk_erase).
  rewrite (@forallb_ext_on _ (fun col => isRowOrColOk b col COL)
             (fun col => fst (Traced.isRowOrColOk verbose b col COL)) (seq 0 9))
    by (intros; now rewrite isRowOrColOk_erase).
  rewrite <- !checkUnits_fst.
  destruct (checkUnits (fun row => Traced.isRowOrColOk verbose b row ROW) (seq 0 9))
    as [[|] out1]; cbn [fst negb]; auto.
  destruct (checkUnits (fun col => Traced.isRowOrColOk verbose b col COL) (seq 0 9))
    as [[|] out2]; cbn [fst negb]; auto.
  now destruct (Validator.areSubmatricesOk verbose b).
Qed.

(** [isSolutionValid] answers the same with and without [verbose], the
    answer of the checks taken without their output, and without [verbose]
    it writes nothing. *)
Theorem isSolutionValid_verbose_observer (verbose : bool) (b : Board) :
  fst (Validator.isSolutionValid verbose b) = isSolutionValid b /\
  snd (Validator.isSolutionValid false b) = [].
Proof.
  split; [apply isSolutionValid_erase|].
  unfold Validator.isSolutionValid.
  pose proof (@checkUnits_quiet _ (fun row => Traced.isRowOrColOk false b row ROW)
                (seq 0 9) (fun row => isRowOrColOk_quiet b row ROW)) as H1.
  pose proof (@checkUnits_quiet _ (fun col => Traced.isRowOrColOk false b col COL)
                (seq 0 9) (fun col => isRowOrColOk_quiet b col COL)) as H2.
  pose proof (@checkUnits_quiet _
                (fun start => Traced.isSubmatrixOk false b (fst start) (snd start))
                submatrixStarts
                (fun start => isSubmatrixOk_quiet b (fst start) (snd start))) as H3.
  unfold Validator.areSubmatricesOk.
  destruct (checkUnits (fun row => Traced.isRowOrColOk false b row ROW) (seq 0 9))
    as [[|] out1]; cbn [snd negb] in *; auto.
  destruct (checkUnits (fun col => Traced.isRowOrColOk false b col COL) (seq 0 9))
    as [[|] out2]; cbn [snd negb] in *; subst; auto.
  destruct (checkUnits _ submatrixStarts) as [ok3 out3]. cbn [snd] in *. now subst.
Qed.

(** ** The value reported as a repeat *)

Lemma firstRepeat_found (unit : list Z) : forall (values : IntSet) (value : Z),
  StronglySorted Z.lt values ->
  Traced.firstRepeat unit values = Some value ->
  exists before after,
    unit = before ++ value :: after /\ value <> 0%Z /\
    (In value before \/ In value values) /\
    noRepeat before values = true.
Proof.
  induction unit as [|x rest IH]; intros values value Hs H; simpl in H;
    [discriminate|].
  destruct (Z.eqb_spec x 0) as [->|Hx].
  - destruct (IH values value Hs H) as (before & after & -> & Hnz & Hin & Hno).
    exists (0%Z :: before), after. simpl. repeat split; auto. tauto.
  - destruct (set_insert_spec x Hs) as (S1 & S2 & S3).
    destruct (set_insert x values) as [values' fresh] eqn:Ei. cbn [fst snd] in *.
    destruct fresh.
    + destruct (IH values' value S1 H) as (before & after & -> & Hnz & Hin & Hno).
      exists (x :: before), after. simpl.
      replace (x =? 0)%Z with false by (symmetry; now apply Z.eqb_neq).
      rewrite Ei. repeat split; auto.
      destruct Hin as [Hin|Hin]; auto. apply S2 in Hin. destruct Hin as [->|Hin]; auto.
    + injection H as <-. exists [], rest. simpl. repeat split; auto.
      right. destruct (in_dec Z.eq_dec x values) as [Hin|Hn]; auto.
      apply S3 in Hn. discriminate.
Qed.

(** When [isRowOrColOk] answers false with [verbose], the one line it
    writes names the unit and a value that is not 0 and stands in the unit
    at two places, [i] before [j]; [j] is the first place whose value
    repeats an earlier one. *)
Theorem isRowOrColOk_reports_repeat (b : Board) (row : nat) (which : RowOrCol)
    (out : list Out) :
  Traced.isRowOrColOk true b row which = (false, out) ->
  exists value i j,
    out = [Text (Traced.rowOrColName which); Num (Z.of_nat row);
           Text " has a repeat value: "; Num value; Endl] /\
    i < j /\ j < 9 /\ value <> 0%Z /\
    readRowOrCol b row which i = value /\ readRowOrCol b row which j = value /\
    (forall i' j', i' < j' -> j' < j -> readRowOrCol b row which i' <> 0%Z ->
       readRowOrCol b row which i' <> readRowOrCol b row which j').
Proof.
  unfold Traced.isRowOrColOk.
  destruct (Traced.firstRepeat (map (readRowOrCol b row which) (seq 0 9)) [])
    as [value|] eqn:E; [|discriminate].
  intros H. injection H as <-.
  apply firstRepeat_found in E; [|constructor].
  destruct E as (before & after & Esplit & Hnz & [Hin|[]] & Hno).
  set (f := readRowOrCol b row which) in *.
  assert (Hlen : length before + S (length after) = 9).
  { apply (f_equal (@length Z)) in Esplit.
    rewrite length_map, length_seq, length_app in Esplit. simpl in Esplit. lia. }
  assert (Hnth : forall k, k < 9 -> f k = nth k (before ++ value :: after) 0%Z).
  { intros k Hk. rewrite <- Esplit.
    rewrite (nth_indep _ 0%Z (f 0)) by (rewrite length_map, length_seq; lia).
    rewrite map_nth, seq_nth; auto. }
  destruct (In_nth _ _ 0%Z Hin) as (i & Hi & Ei).
  exists value, i, (length before). split; [reflexivity|].
  split; [exact Hi|]. split; [lia|]. split; [exact Hnz|]. split; [|split].
  - rewrite Hnth by lia. rewrite app_nth1 by lia. exact Ei.
  - rewrite Hnth by lia. rewrite nth_middle. reflexivity.
  - intros i' j' Hij Hj Hnz'.
    rewrite !Hnth in * by lia. rewrite !app_nth1 in * by lia.
    apply noRepeat_spec in Hno; [|constructor]. destruct Hno as [Hnd _].
    pose proof (proj1 (NoDup_nonZero_nth before) Hnd) as Hnth'.
    apply Hnth'; auto; lia.
Qed.

Lemma isRowOrColOk_reports_repeat_witness :
  exists value i j,
    snd (Traced.isRowOrColOk true repeatInRow 0 ROW)
    = [Text (Traced.rowOrColName ROW); Num (Z.of_nat 0);
       Text " has a repeat value: "; Num value; Endl] /\
    i < j /\ j < 9 /\ value <> 0%Z /\
    readRowOrCol repeatInRow 0 ROW i = value /\
    readRowOrCol repeatInRow 0 ROW j = value.
Proof.
  destruct (@isRowOrColOk_reports_repeat repeatInRow 0 ROW
              (snd (Traced.isRowOrColOk true repeatInRow 0 ROW)))
    as (value & i & j & H1 & H2 & H3 & H4 & H5 & H6 & _).
  - vm_compute. reflexivity.
  - exists value, i, j. repeat (split; [assumption|]). assumption.
Defined.

(** ** The free functions of the validator *)

Lemma legacy_firstRepeat_spec (unit : list Z) : forall values : IntSet,
  StronglySorted Z.lt values ->
  Legacy.firstRepeat unit values = None <->
  NoDup unit /\ (forall x, In x unit -> ~ In x values).
Proof.
  induction unit as [|x rest IH]; intros values Hs; simpl.
  - split; auto. intros _. split; [constructor|tauto].
  - destruct (set_insert_spec x Hs) as (S1 & S2 & S3).
    destruct (set_insert x values) as [values' fresh]. cbn [fst snd] in *.
    destruct fresh.
    + rewrite (IH values' S1). assert (Hx : ~ In x values) by now apply S3.
      split.
      * intros [Hnd Hn]. split.
        -- constructor; auto. intros Hin. apply (Hn x Hin). apply S2. now left.
        -- intros y [<-|Hy]; auto. intros Hin. apply (Hn y Hy). apply S2. now right.
      * intros [Hnd Hn]. inversion Hnd as [|? ? Hnx Hnd']; subst. split; auto.
        intros y Hy Hin. apply S2 in Hin. destruct Hin as [->|Hin]; auto.
        apply (Hn y); auto.
    + split; [discriminate|]. intros [_ Hn]. exfalso.
      apply (Hn x); auto.
      destruct (in_dec Z.eq_dec x values) as [Hin|Hnin]; auto.
      apply S3 in Hnin. discriminate.
Qed.

Lemma legacy_checkRow_spec (unit : list Z) : forall values : IntSet,
  StronglySorted Z.lt values ->
  Legacy.checkRow unit values = Legacy.RowOk <->
  (forall x, In x unit -> (1 <= x <= 9)%Z) /\
  NoDup unit /\ (forall x, In x unit -> ~ In x values).
Proof.
  induction unit as [|x rest IH]; intros values Hs; simpl.
  - split; auto. intros _. split; [tauto|]. split; [constructor|tauto].
  - destruct (Z.ltb_spec x 1) as [Hlt|Hge]; cbn [orb].
    + split; [discriminate|]. intros [Hr _]. specialize (Hr x (or_introl eq_refl)). lia.
    + destruct (Z.gtb_spec x 9) as [Hgt|Hle].
      * split; [discriminate|]. intros [Hr _]. specialize (Hr x (or_introl eq_refl)). lia.
      * destruct (set_insert_spec x Hs) as (S1 & S2 & S3).
        destruct (set_insert x values) as [values' fresh]. cbn [fst snd] in *.
        destruct fresh.
        -- rewrite (IH values' S1). assert (Hx : ~ In x values) by now apply S3.
           split.
           ++ intros (Hr & Hnd & Hn). split; [|split].
              ** intros y [<-|Hy]; [lia|auto].
              ** constructor; auto. intros Hin. apply (Hn x Hin). apply S2. now left.
              ** intros y [<-|Hy]; auto. intros Hin. apply (Hn y Hy). apply S2.
                 now right.
           ++ intros (Hr & Hnd & Hn). inversion Hnd as [|? ? Hnx Hnd']; subst.
              split; [|split]; auto.
              intros y Hy Hin. apply S2 in Hin. destruct Hin as [->|Hin]; auto.
              apply (Hn y); auto.
        -- split; [discriminate|]. intros (_ & _ & Hn). exfalso.
           apply (Hn x); auto.
           destruct (in_dec Z.eq_dec x values) as [Hin|Hnin]; auto.
           apply S3 in Hnin. discriminate.
Qed.

Lemma NoDup_map_seq (f : nat -> Z) (n : nat) :
  NoDup (map f (seq 0 n)) <-> (forall i j, i < n -> j < n -> i <> j -> f i <> f j).
Proof.
  assert (E : forall i, i < n -> nth i (map f (seq 0 n)) 0%Z = f i).
  { intros i Hi. rewrite (nth_indep _ 0%Z (f 0)) by (rewrite length_map, length_seq; lia).
    rewrite map_nth, seq_nth; auto. }
  rewrite (NoDup_nth _ 0%Z), length_map, length_seq. split.
  - intros H i j Hi Hj Hne Heq. apply Hne, H; auto. now rewrite !E.
  - intros H i j Hi Hj Heq. rewrite !E in Heq by auto.
    destruct (Nat.eq_dec i j); auto. exfalso. now apply (H i j).
Qed.

Lemma In_map_seq (f : nat -> Z) (n : nat) (P : Z -> Prop) :
  (forall x, In x (map f (seq 0 n)) -> P x) <-> (forall i, i < n -> P (f i)).
Proof.
  split.
  - intros H i Hi. apply H, in_map, in_seq. lia.
  - intros H x Hx. apply in_map_iff in Hx. destruct Hx as (i & <- & Hi).
    apply in_seq in Hi. apply H. lia.
Qed.

Lemma legacy_rowOk_spec (b : Board) (row : nat) :
  fst (Legacy.rowOk b row) = true <->
  (forall c, c < 9 -> (1 <= getValue b row c <= 9)%Z) /\
  (forall c1 c2, c1 < 9 -> c2 < 9 -> c1 <> c2 -> getValue b row c1 <> getValue b row c2).
Proof.
  unfold Legacy.rowOk.
  pose proof (@legacy_checkRow_spec (map (fun col => getValue b row col) (seq 0 9)) []
                ltac:(constructor)) as H.
  rewrite (In_map_seq (fun col => getValue b row col) 9 (fun x => (1 <= x <= 9)%Z)) in H.
  rewrite NoDup_map_seq in H.
  destruct (Legacy.checkRow _ _); cbn [fst].
  - split; [intros _|reflexivity]. destruct H as [H _].
    destruct (H eq_refl) as (H1 & H2 & _). split; assumption.
  - split; [discriminate|]. intros [H1 H2]. destruct H as [_ H].
    discriminate H. split; [exact H1|]. split; [exact H2|]. intros x _ [].
  - split; [discriminate|]. intros [H1 H2]. destruct H as [_ H].
    discriminate H. split; [exact H1|]. split; [exact H2|]. intros x _ [].
Qed.

Lemma legacy_columnOk_spec (b : Board) (col : nat) :
  fst (Legacy.columnOk b col) = true <->
  (forall r1 r2, r1 < 9 -> r2 < 9 -> r1 <> r2 -> getValue b r1 col <> getValue b r2 col).
Proof.
  unfold Legacy.columnOk.
  pose proof (@legacy_firstRepeat_spec (map (fun row => getValue b row col) (seq 0 9)) []
                ltac:(constructor)) as H.
  rewrite NoDup_map_seq in H.
  destruct (Legacy.firstRepeat _ _); cbn [fst].
  - split; [discriminate|]. intros H1. destruct H as [_ H].
    discriminate H. split; [exact H1|]. intros x _ [].
  - split; [intros _|reflexivity]. destruct H as [H _]. now destruct (H eq_refl).
Qed.

Lemma legacy_readSubmatrix (b : Board) (R C : nat) :
  R < 3 -> C < 3 ->
  Legacy.readSubmatrix b (3 * R) (3 * R + 2) (3 * C) (3 * C + 2)
  = map (fun k => getValue b (k / 3 + 3 * R) (k mod 3 + 3 * C)) (seq 0 9).
Proof.
  intros HR HC.
  destruct R as [|[|[|R]]]; try lia; destruct C as [|[|[|C]]]; try lia; reflexivity.
Qed.

Lemma legacy_isSubmatrixOk_spec (b : Board) (R C : nat) :
  R < 3 -> C < 3 ->
  fst (Legacy.isSubmatrixOk b (3 * R) (3 * R + 2) (3 * C) (3 * C + 2)) = true <->
  (forall r1 c1 r2 c2, r1 / 3 = R -> r2 / 3 = R -> c1 / 3 = C -> c2 / 3 = C ->
     (r1 <> r2 \/ c1 <> c2) -> getValue b r1 c1 <> getValue b r2 c2).
Proof.
  intros HR HC. unfold Legacy.isSubmatrixOk.
  pose proof (@legacy_firstRepeat_spec
                (Legacy.readSubmatrix b (3 * R) (3 * R + 2) (3 * C) (3 * C + 2)) []
                ltac:(constructor)) as H.
  rewrite legacy_readSubmatrix in * by auto. rewrite NoDup_map_seq in H.
  assert (Hbox :
    (forall i j, i < 9 -> j < 9 -> i <> j ->
       getValue b (i / 3 + 3 * R) (i mod 3 + 3 * C)
       <> getValue b (j / 3 + 3 * R) (j mod 3 + 3 * C)) <->
    (forall r1 c1 r2 c2, r1 / 3 = R -> r2 / 3 = R -> c1 / 3 = C -> c2 / 3 = C ->
       (r1 <> r2 \/ c1 <> c2) -> getValue b r1 c1 <> getValue b r2 c2)).
  { split.
    - intros Hd r1 c1 r2 c2 E1 E2 E3 E4 Hne.
      specialize (Hd (3 * (r1 mod 3) + c1 mod 3) (3 * (r2 mod 3) + c2 mod 3)).
      replace ((3 * (r1 mod 3) + c1 mod 3) / 3 + 3 * R) with r1 in Hd by dlia.
      replace ((3 * (r1 mod 3) + c1 mod 3) mod 3 + 3 * C) with c1 in Hd by dlia.
      replace ((3 * (r2 mod 3) + c2 mod 3) / 3 + 3 * R) with r2 in Hd by dlia.
      replace ((3 * (r2 mod 3) + c2 mod 3) mod 3 + 3 * C) with c2 in Hd by dlia.
      apply Hd; dlia.
    - intros Hd i j Hi Hj Hne. apply Hd; dlia. }
  destruct (Legacy.firstRepeat _ _); cbn [fst].
  - split; [discriminate|]. intros H1. destruct H as [_ H].
    discriminate H. split; [now apply Hbox|]. intros x _ [].
  - split; [intros _|reflexivity]. destruct H as [H _]. destruct (H eq_refl) as [H1 _].
    now apply Hbox.
Qed.

Lemma legacy_areRowsOk_spec (b : Board) :
  fst (Legacy.areRowsOk b) = true <->
  allDigits b /\
  (forall r c1 c2, r < 9 -> c1 < 9 -> c2 < 9 -> c1 <> c2 ->
     getValue b r c1 <> getValue b r c2).
Proof.
  unfold Legacy.areRowsOk. rewrite checkUnits_fst, forallb_seq. split.
  - intros H. split.
    + intros r c Hr Hc. destruct (proj1 (legacy_rowOk_spec b r) (H r Hr)) as [A _].
      now apply A.
    + intros r c1 c2 Hr. destruct (proj1 (legacy_rowOk_spec b r) (H r Hr)) as [_ B].
      apply B.
  - intros [H1 H2] r Hr. apply legacy_rowOk_spec. split; auto.
Qed.

Lemma legacy_areColumnsOk_spec (b : Board) :
  fst (Legacy.areColumnsOk b) = true <->
  (forall c r1 r2, c < 9 -> r1 < 9 -> r2 < 9 -> r1 <> r2 ->
     getValue b r1 c <> getValue b r2 c).
Proof.
  unfold Legacy.areColumnsOk. rewrite checkUnits_fst, forallb_seq. split.
  - intros H c r1 r2 Hc. apply (proj1 (legacy_columnOk_spec b c) (H c Hc)).
  - intros H c Hc. apply legacy_columnOk_spec. auto.
Qed.

Lemma legacy_areSubmatricesOk_spec (b : Board) :
  fst (Legacy.areSubmatricesOk b) = true <->
  (forall R C r1 c1 r2 c2, R < 3 -> C < 3 ->
     r1 / 3 = R -> r2 / 3 = R -> c1 / 3 = C -> c2 / 3 = C ->
     (r1 <> r2 \/ c1 <> c2) -> getValue b r1 c1 <> getValue b r2 c2).
Proof.
  unfold Legacy.areSubmatricesOk. rewrite checkUnits_fst.
  rewrite (forallb_submatrixStarts
             (fun sr sc => fst (Legacy.isSubmatrixOk b sr (sr + 2) sc (sc + 2)))).
  rewrite forallb_036. split.
  - intros H R C r1 c1 r2 c2 HR HC. specialize (H R HR). rewrite forallb_036 in H.
    apply (proj1 (legacy_isSubmatrixOk_spec b HR HC) (H C HC)).
  - intros H R HR. rewrite forallb_036. intros C HC.
    apply legacy_isSubmatrixOk_spec; auto. intros r1 c1 r2 c2. now apply H.
Qed.

Lemma legacy_isSolutionOk_fst (b : Board) :
  fst (Legacy.isSolutionOk b)
  = fst (Legacy.areRowsOk b) && fst (Legacy.areColumnsOk b)
    && fst (Legacy.areSubmatricesOk b).
Proof.
  unfold Legacy.isSolutionOk.
  destruct (Legacy.areRowsOk b) as [[|] out1]; cbn [fst negb andb]; auto.
  destruct (Legacy.areColumnsOk b) as [[|] out2]; cbn [fst negb andb]; auto.
  now destruct (Legacy.areSubmatricesOk b).
Qed.

(** On a board of digits 1..9, "no two cells alike" and "no two non-zero
    cells alike" are one. *)
Lemma allDigits_noDuplicates (b : Board) :
  allDigits b ->
  noDuplicates b <->
  (forall r c1 c2, r < 9 -> c1 < 9 -> c2 < 9 -> c1 <> c2 ->
     getValue b r c1 <> getValue b r c2) /\
  (forall c r1 r2, c < 9 -> r1 < 9 -> r2 < 9 -> r1 <> r2 ->
     getValue b r1 c <> getValue b r2 c) /\
  (forall R C r1 c1 r2 c2, R < 3 -> C < 3 ->
     r1 / 3 = R -> r2 / 3 = R -> c1 / 3 = C -> c2 / 3 = C ->
     (r1 <> r2 \/ c1 <> c2) -> getValue b r1 c1 <> getValue b r2 c2).
Proof.
  intros Hd. unfold noDuplicates, rowsDistinct, colsDistinct, boxesDistinct,
    rowDistinct, colDistinct, boxDistinct.
  split; intros (H1 & H2 & H3); (split; [|split]).
  - intros r c1 c2 Hr Hc1 Hc2 Hne. apply H1; auto.
    specialize (Hd r c1 Hr Hc1). lia.
  - intros c r1 r2 Hc Hr1 Hr2 Hne. apply H2; auto.
    specialize (Hd r1 c Hr1 Hc). lia.
  - intros R C r1 c1 r2 c2 HR HC E1 E2 E3 E4 Hne. apply (H3 R C); auto.
    assert (r1 < 9 /\ c1 < 9) as [Hr1 Hc1] by dlia.
    specialize (Hd r1 c1 Hr1 Hc1). lia.
  - intros r Hr c1 c2 Hc1 Hc2 Hne _. now apply H1.
  - intros c Hc r1 r2 Hr1 Hr2 Hne _. now apply H2.
  - intros R C HR HC r1 c1 r2 c2 E1 E2 E3 E4 Hne _. now apply (H3 R C).
Qed.

(** [isSolutionOk] answers true exactly for the boards on which every cell
    holds one of 1..9 and no row, column or box holds a value twice; these
    are the boards without a blank or foreign value that [isSolutionValid]
    of the class accepts. *)
Theorem isSolutionOk_iff_solved (b : Board) :
  (fst (Legacy.isSolutionOk b) = true <-> allDigits b /\ noDuplicates b) /\
  (fst (Legacy.isSolutionOk b) = true <-> allDigits b /\ isSolutionValid b = true).
Proof.
  assert (H : fst (Legacy.isSolutionOk b) = true <-> allDigits b /\ noDuplicates b).
  { rewrite legacy_isSolutionOk_fst, !andb_true_iff.
    rewrite legacy_areRowsOk_spec, legacy_areColumnsOk_spec, legacy_areSubmatricesOk_spec.
    split.
    - intros [[[Hd H1] H2] H3]. split; auto. apply allDigits_noDuplicates; auto.
    - intros [Hd Hn]. apply allDigits_noDuplicates in Hn; auto. tauto. }
  split; [exact H|]. rewrite H.
  assert (E : isSolutionValid b = true <-> noDuplicates b).
  { unfold isSolutionValid, noDuplicates.
    rewrite <- rowsOk_spec, <- colsOk_spec, <- boxesOk_spec.
    destruct (forallb (fun row => isRowOrColOk b row ROW) (seq 0 9));
      destruct (forallb (fun col => isRowOrColOk b col COL) (seq 0 9));
      cbn [negb]; intuition discriminate. }
  now rewrite E.
Qed.

(** The three checks taken one by one.  [areRowsOk] asks for 1..9 in every
    cell and no value twice in a row.  [areColumnsOk] and [areSubmatricesOk]
    look at no range: they answer true exactly when no two cells of a
    column, or of a box, hold the same value, 0 or any other int
    included. *)
Theorem legacy_checks_one_by_one (b : Board) :
  (fst (Legacy.areRowsOk b) = true <->
     allDigits b /\
     forall r c1 c2, r < 9 -> c1 < 9 -> c2 < 9 -> c1 <> c2 ->
       getValue b r c1 <> getValue b r c2) /\
  (fst (Legacy.areColumnsOk b) = true <->
     forall c r1 r2, c < 9 -> r1 < 9 -> r2 < 9 -> r1 <> r2 ->
       getValue b r1 c <> getValue b r2 c) /\
  (fst (Legacy.areSubmatricesOk b) = true <->
     forall R C r1 c1 r2 c2, R < 3 -> C < 3 ->
       r1 / 3 = R -> r2 / 3 = R -> c1 / 3 = C -> c2 / 3 = C ->
       (r1 <> r2 \/ c1 <> c2) -> getValue b r1 c1 <> getValue b r2 c2).
Proof.
  split; [apply legacy_areRowsOk_spec|].
  split; [apply legacy_areColumnsOk_spec|apply legacy_areSubmatricesOk_spec].
Qed.


(** ** The two validators side by side *)

Lemma checkUnits_ext (A : Type) (f g : A -> bool * list Out) (units : list A) :
  (forall u, In u units -> f u = g u) -> checkUnits f units = checkUnits g units.
Proof.
  induction units as [|u rest IH]; intros H; simpl; auto.
  rewrite (H u (or_introl eq_refl)), IH; auto.
  intros v Hv. apply H. now right.
Qed.

(** On values that are not 0 the two loops over a unit are one. *)
Lemma legacy_firstRepeat_nonZero (unit : list Z) : forall values : IntSet,
  (forall x, In x unit -> x <> 0%Z) ->
  Legacy.firstRepeat unit values = Traced.firstRepeat unit values.
Proof.
  induction unit as [|x rest IH]; intros values H; simpl; auto.
  replace (x =? 0)%Z with false
    by (symmetry; apply Z.eqb_neq, H; now left).
  destruct (set_insert x values) as [values' fresh]. destruct fresh; auto.
  apply IH. intros y Hy. apply H. now right.
Qed.

Lemma legacy_checkRow_digits (unit : list Z) : forall values : IntSet,
  (forall x, In x unit -> (1 <= x <= 9)%Z) ->
  Legacy.checkRow unit values =
  match Traced.firstRepeat unit values with
  | Some value => Legacy.RepeatValue value
  | None => Legacy.RowOk
  end.
Proof.
  induction unit as [|x rest IH]; intros values H; simpl; auto.
  pose proof (H x (or_introl eq_refl)) as Hx.
  replace (x <? 1)%Z with false by (symmetry; apply Z.ltb_ge; lia).
  replace (x >? 9)%Z with false by (symmetry; rewrite Z.gtb_ltb; apply Z.ltb_ge; lia).
  replace (x =? 0)%Z with false by (symmetry; apply Z.eqb_neq; lia).
  cbn [orb]. destruct (set_insert x values) as [values' fresh]. destruct fresh; auto.
  apply IH. intros y Hy. apply H. now right.
Qed.

(** On a board that holds one of 1..9 in every cell, [isSolutionOk] and
    [isSolutionValid(true)] of the class answer the same and write the same
    lines. *)
Theorem validators_agree_on_digits (b : Board) :
  allDigits b -> Legacy.isSolutionOk b = Validator.isSolutionValid true b.
Proof.
  intros Hd.
  assert (Hrows : Legacy.areRowsOk b
                  = checkUnits (fun row => Traced.isRowOrColOk true b row ROW) (seq 0 9)).
  { apply checkUnits_ext. intros row Hrow. apply in_seq in Hrow.
    unfold Legacy.rowOk, Traced.isRowOrColOk.
    change (map (readRowOrCol b row ROW) (seq 0 9))
      with (map (fun col => getValue b row col) (seq 0 9)).
    rewrite legacy_checkRow_digits.
    - now destruct (Traced.firstRepeat _ _).
    - apply (In_map_seq (fun col => getValue b row col) 9 (fun x => (1 <= x <= 9)%Z)).
      intros c Hc. apply Hd; lia. }
  assert (Hcols : Legacy.areColumnsOk b
                  = checkUnits (fun col => Traced.isRowOrColOk true b col COL) (seq 0 9)).
  { apply checkUnits_ext. intros col Hcol. apply in_seq in Hcol.
    unfold Legacy.columnOk, Traced.isRowOrColOk.
    change (map (readRowOrCol b col COL) (seq 0 9))
      with (map (fun row => getValue b row col) (seq 0 9)).
    rewrite legacy_firstRepeat_nonZero.
    - now destruct (Traced.firstRepeat _ _).
    - apply (In_map_seq (fun row => getValue b row col) 9 (fun x => x <> 0%Z)).
      intros r Hr. specialize (Hd r col Hr ltac:(lia)). lia. }
  assert (Hboxes : Legacy.areSubmatricesOk b = Validator.areSubmatricesOk true b).
  { apply checkUnits_ext. intros [sr sc] Hin. cbn [fst snd].
    assert (HRC : exists R C, R < 3 /\ C < 3 /\ sr = 3 * R /\ sc = 3 * C).
    { unfold submatrixStarts in Hin. cbn in Hin.
      repeat (destruct Hin as [E|Hin];
              [injection E as <- <-;
               first [exists 0, 0; repeat split; lia | exists 0, 1; repeat split; lia
                     | exists 0, 2; repeat split; lia | exists 1, 0; repeat split; lia
                     | exists 1, 1; repeat split; lia | exists 1, 2; repeat split; lia
                     | exists 2, 0; repeat split; lia | exists 2, 1; repeat split; lia
                     | exists 2, 2; repeat split; lia]|]).
      destruct Hin. }
    destruct HRC as (R & C & HR & HC & -> & ->).
    unfold Legacy.isSubmatrixOk, Traced.isSubmatrixOk.
    rewrite legacy_readSubmatrix, readSubmatrix_map by auto.
    rewrite legacy_firstRepeat_nonZero.
    - now destruct (Traced.firstRepeat _ _).
    - apply (In_map_seq (fun k => getValue b (k / 3 + 3 * R) (k mod 3 + 3 * C)) 9
               (fun x => x <> 0%Z)).
      intros k Hk. assert (k / 3 + 3 * R < 9 /\ k mod 3 + 3 * C < 9) as [H1 H2] by dlia.
      specialize (Hd _ _ H1 H2). lia. }
  unfold Legacy.isSolutionOk, Validator.isSolutionValid.
  now rewrite Hrows, Hcols, Hboxes.
Qed.

Lemma validators_agree_on_digits_witness :
  Legacy.isSolutionOk puzzle1 = Validator.isSolutionValid true puzzle1.
Proof.
  apply (@validators_agree_on_digits puzzle1).
  intros r c Hr Hc.
  do 9 (destruct r as [|r];
        [do 9 (destruct c as [|c]; [vm_compute; intuition congruence|]); lia|]).
  lia.
Defined.
(** * Reading back the text of a board *)

Lemma getlines_token (d : ascii) (s rest : string) :
  lacks d s = true ->
  getlines d (s ++ String d rest) = s :: getlines d rest.
Proof.
  induction s as [|ch s IH]; intros H; simpl in *.
  - now rewrite Ascii.eqb_refl.
  - apply andb_true_iff in H. destruct H as [H1 H2].
    apply negb_true_iff in H1. rewrite H1, (IH H2). reflexivity.
Qed.

Lemma getlines_last (d : ascii) (s : string) :
  lacks d s = true ->
  getlines d s = if String.eqb s EmptyString then [] else [s].
Proof.
  induction s as [|ch s IH]; intros H; simpl in *; auto.
  apply andb_true_iff in H. destruct H as [H1 H2].
  apply negb_true_iff in H1. rewrite H1, (IH H2).
  now destruct s.
Qed.

Lemma getlines_unlines (lines : list string) :
  (forall l, In l lines -> lacks LF l = true) ->
  getlines LF (unlines lines) = lines.
Proof.
  induction lines as [|l rest IH]; intros H; simpl; auto.
  rewrite getlines_token by (apply H; now left).
  rewrite IH; auto. intros l' Hl'. apply H. now right.
Qed.

Lemma getlines_concat (tokens : list string) :
  (forall t, In t tokens -> lacks "," t = true) ->
  getlines "," (String.concat "," tokens) = dropEmptyLast tokens.
Proof.
  induction tokens as [|t rest IH]; intros H; auto.
  destruct rest as [|u rest].
  - simpl. apply getlines_last. apply H. now left.
  - change (String.concat "," (t :: u :: rest))
      with (t ++ String "," (String.concat "," (u :: rest)))%string.
    rewrite getlines_token by (apply H; now left).
    rewrite IH by (intros t' Ht'; apply H; now right). reflexivity.
Qed.

Lemma lacks_app (ch : ascii) (s1 s2 : string) :
  lacks ch (s1 ++ s2) = lacks ch s1 && lacks ch s2.
Proof.
  induction s1 as [|x s1 IH]; simpl; auto. rewrite IH. now rewrite andb_assoc.
Qed.

Lemma lacks_concat (ch : ascii) (tokens : list string) :
  lacks ch "," = true -> (forall t, In t tokens -> lacks ch t = true) ->
  lacks ch (String.concat "," tokens) = true.
Proof.
  intros Hsep. induction tokens as [|t rest IH]; intros H; auto.
  destruct rest as [|u rest].
  - apply H. now left.
  - change (String.concat "," (t :: u :: rest))
      with (t ++ ("," ++ String.concat "," (u :: rest)))%string.
    rewrite !lacks_app, Hsep, (H t (or_introl eq_refl)), IH; auto.
    intros t' Ht'. apply H. now right.
Qed.

(** The text of a cell holds neither a comma nor a line feed, and the
    constructor reads the value of the cell from it. *)
Lemma cellText_token (blank : string) (value : Z) :
  blank = "0"%string \/ blank = " "%string \/ blank = EmptyString ->
  (0 <= value <= 9)%Z ->
  lacks "," (cellText blank value) = true /\
  lacks LF (cellText blank value) = true /\
  tokenValue (cellText blank value) = Some value /\
  (cellText blank value = EmptyString <-> blank = EmptyString /\ value = 0%Z).
Proof.
  intros Hb Hv.
  assert (E : (value = 0 \/ value = 1 \/ value = 2 \/ value = 3 \/ value = 4 \/
               value = 5 \/ value = 6 \/ value = 7 \/ value = 8 \/ value = 9)%Z) by lia.
  destruct Hb as [-> | [-> | ->]];
    repeat (destruct E as [-> | E]; [vm_compute; intuition congruence|]);
    subst; vm_compute; intuition congruence.
Qed.

Lemma dropEmptyLast_full (tokens : list string) :
  (forall t, In t tokens -> t <> EmptyString) -> dropEmptyLast tokens = tokens.
Proof.
  induction tokens as [|t rest IH]; intros H; auto.
  destruct rest as [|u rest].
  - simpl. destruct (String.eqb_spec t EmptyString); auto.
    exfalso. apply (H t); auto. now left.
  - change (dropEmptyLast (t :: u :: rest)) with (t :: dropEmptyLast (u :: rest)).
    rewrite IH; auto. intros t' Ht'. apply H. now right.
Qed.

Lemma dropEmptyLast_length (tokens : list string) :
  length (dropEmptyLast tokens) <= length tokens.
Proof.
  induction tokens as [|t rest IH]; auto.
  destruct rest as [|u rest].
  - simpl. destruct (String.eqb t EmptyString); simpl; lia.
  - change (dropEmptyLast (t :: u :: rest)) with (t :: dropEmptyLast (u :: rest)).
    simpl in *. lia.
Qed.

(** Dropping an empty last token takes away the last place and no other. *)
Lemma dropEmptyLast_nth (tokens : list string) : forall c : nat,
  (c < length (dropEmptyLast tokens) <->
   c < length tokens /\
   ~ (S c = length tokens /\ nth c tokens EmptyString = EmptyString)) /\
  (c < length (dropEmptyLast tokens) ->
   nth c (dropEmptyLast tokens) EmptyString = nth c tokens EmptyString).
Proof.
  induction tokens as [|t rest IH]; intros c.
  - simpl. split; [lia|]. lia.
  - destruct rest as [|u rest].
    + cbn [dropEmptyLast]. destruct (String.eqb_spec t EmptyString) as [->|Hne];
        destruct c as [|c]; cbn [length nth]; split; try lia; try tauto;
        intuition (try lia; try congruence).
    + change (dropEmptyLast (t :: u :: rest)) with (t :: dropEmptyLast (u :: rest)).
      destruct c as [|c].
      * cbn [length nth]. split; [|auto]. split; [|lia]. intros _. split; [lia|].
        intros [E _]. lia.
      * destruct (IH c) as [I1 I2].
        cbn [length nth] in *. split.
        -- rewrite <- Nat.succ_lt_mono, I1. split; intros [A B]; split; try lia.
           ++ intros [E1 E2]. apply B. split; auto; lia.
           ++ intros [E1 E2]. apply B. split; auto; lia.
        -- intros Hc. apply I2. lia.
Qed.

Lemma nth_map_default (A B : Type) (f : A -> B) (l : list A) (n : nat) (d : A) (e : B) :
  n < length l -> nth n (map f l) e = f (nth n l d).
Proof.
  intros Hn. rewrite (nth_indep _ e (f d)) by now rewrite length_map.
  apply map_nth.
Qed.

(** The lines and the tokens that the constructor finds in the text of a
    board. *)
Lemma boardText_tokens (blank : string) (b : Board) :
  blank = "0"%string \/ blank = " "%string \/ blank = EmptyString ->
  wfBoard b -> digitsOnly b ->
  getlines LF (boardText blank b) = map (lineText blank) b /\
  forall r, r < 9 ->
    nth r (map (lineText blank) b) EmptyString = lineText blank (nth r b []) /\
    length (nth r b []) = 9 /\
    getlines "," (lineText blank (nth r b []))
    = dropEmptyLast (map (cellText blank) (nth r b [])) /\
    forall c, c < 9 ->
      nth c (map (cellText blank) (nth r b [])) EmptyString
      = cellText blank (getValue b r c).
Proof.
  intros Hb [Hlen Hrows] Hd. rewrite Forall_forall in Hrows.
  assert (Hrow : forall r, r < 9 -> length (nth r b []) = 9)
    by (intros r Hr; apply Hrows, nth_In; lia).
  assert (Hcell : forall r z, r < 9 -> In z (nth r b []) -> (0 <= z <= 9)%Z).
  { intros r z Hr Hz. destruct (In_nth _ _ 0%Z Hz) as (c & Hc & <-).
    rewrite Hrow in Hc by auto. exact (Hd r c Hr Hc). }
  assert (Hlacks : forall ch r, r < 9 -> (ch = "," \/ ch = LF)%char ->
            forall t, In t (map (cellText blank) (nth r b [])) -> lacks ch t = true).
  { intros ch r Hr Hch t Ht. apply in_map_iff in Ht. destruct Ht as (z & <- & Hz).
    destruct (cellText_token Hb (Hcell r z Hr Hz)) as (L1 & L2 & _).
    destruct Hch as [->| ->]; assumption. }
  split.
  - unfold boardText. apply getlines_unlines. intros l Hl.
    apply in_map_iff in Hl. destruct Hl as (row & <- & Hrow').
    destruct (In_nth _ _ [] Hrow') as (r & Hr & <-). rewrite Hlen in Hr.
    apply lacks_concat; [reflexivity|]. apply Hlacks; auto.
  - intros r Hr. split; [apply nth_map_default; lia|]. split; [now apply Hrow|].
    split.
    + apply getlines_concat. apply Hlacks; auto.
    + intros c Hc. rewrite (@nth_map_default _ _ _ _ _ 0%Z) by (rewrite Hrow; auto).
      reflexivity.
Qed.

(** What the constructor stores for the text of a board, whatever the
    storage held. *)
Lemma fromFile_boardText (blank : string) (b garbage : Board) :
  blank = "0"%string \/ blank = " "%string \/ blank = EmptyString ->
  wfBoard b -> wfBoard garbage -> digitsOnly b ->
  exists pz,
    fromFile (Some (boardText blank b)) garbage = Built pz [] /\
    wfBoard (board pz) /\
    possibilities pz = possibilities (newPuzzle b) /\
    (minPossibilities pz, minRow pz, minCol pz) = (10%Z, 10, 10) /\
    forall r c, r < 9 -> c < 9 ->
      getValue (board pz) r c =
        if (c <? length (dropEmptyLast (map (cellText blank) (nth r b []))))
        then getValue b r c else getValue garbage r c.
Proof.
  intros Hb Hw Hg Hd.
  destruct (boardText_tokens Hb Hw Hd) as [Elines Hrows].
  assert (Hlen : length (map (lineText blank) b) = 9)
    by (rewrite length_map; apply Hw).
  unfold fromFile. rewrite Elines.
  pose proof (@fillRows_cases (map (lineText blank) b) garbage 0 Hg ltac:(lia)) as H.
  assert (Htok : forall l, In l (map (lineText blank) b) ->
            length (getlines "," l) <= 9).
  { intros l Hl. destruct (In_nth _ _ EmptyString Hl) as (r & Hr & <-).
    rewrite Hlen in Hr. destruct (Hrows r Hr) as (-> & Hl9 & -> & _).
    pose proof (dropEmptyLast_length (map (cellText blank) (nth r b []))) as Hle.
    rewrite length_map in Hle. lia. }
  specialize (H Htok).
  assert (Hval : forall l t, In l (map (lineText blank) b) ->
            In t (getlines "," l) -> tokenValue t <> None).
  { intros l t Hl Ht. destruct (In_nth _ _ EmptyString Hl) as (r & Hr & <-).
    rewrite Hlen in Hr. destruct (Hrows r Hr) as (E1 & Hl9 & E2 & Hc).
    rewrite E1, E2 in Ht.
    destruct (In_nth _ _ EmptyString Ht) as (c & Hlt & <-).
    destruct (dropEmptyLast_nth (map (cellText blank) (nth r b [])) c) as [D1 D2].
    rewrite (D2 Hlt). apply D1 in Hlt. destruct Hlt as [Hlt _].
    rewrite length_map, Hl9 in Hlt. rewrite (Hc c Hlt).
    destruct (cellText_token Hb (Hd r c Hr Hlt)) as (_ & _ & -> & _). discriminate. }
  destruct (fillRows garbage 0 (map (lineText blank) b)) as [b'|b'|]; [| |destruct H].
  - destruct H as (Hw' & _ & Hv). eexists. split; [reflexivity|].
    cbn [board possibilities minPossibilities minRow minCol newPuzzle].
    split; [exact Hw'|]. split; [reflexivity|]. split; [reflexivity|].
    intros r c Hr Hc. rewrite (Hv r c Hr Hc), Nat.sub_0_r.
    destruct (Hrows r Hr) as (E1 & Hl9 & E2 & Hcell). rewrite E1, E2.
    replace ((0 <=? r) && (r <? 0 + length (map (lineText blank) b))) with true
      by (symmetry; rewrite Hlen; apply andb_true_iff; split;
          [apply Nat.leb_le|apply Nat.ltb_lt]; lia).
    cbn [andb].
    destruct (Nat.ltb_spec c (length (dropEmptyLast (map (cellText blank) (nth r b [])))))
      as [Hlt|Hge]; auto.
    destruct (dropEmptyLast_nth (map (cellText blank) (nth r b [])) c) as [_ D2].
    rewrite (D2 Hlt), (Hcell c Hc).
    now destruct (cellText_token Hb (Hd r c Hr Hc)) as (_ & _ & -> & _).
  - destruct H as (_ & l & t & Hl & Ht & Et). exfalso. exact (Hval l t Hl Ht Et).
Qed.

(** The file constructor reads back the text of a board: for a board of
    values 0..9 written as nine lines of nine cells divided by commas, a
    blank cell as 0 or as a space, it writes nothing to [cerr] and builds
    the object that the array constructor builds from the board, whatever
    the storage of [board] held before. *)
Theorem fromFile_reads_boardText (blank : string) (b garbage : Board) :
  blank = "0"%string \/ blank = " "%string ->
  wfBoard b -> wfBoard garbage -> digitsOnly b ->
  fromFile (Some (boardText blank b)) garbage = Built (newPuzzle b) [].
Proof.
  intros Hb Hw Hg Hd.
  assert (Hb' : blank = "0"%string \/ blank = " "%string \/ blank = EmptyString) by tauto.
  destruct (fromFile_boardText Hb' Hw Hg Hd) as (pz & E & Hw' & Hp & Hm & Hv).
  rewrite E. f_equal. destruct pz as [bd ps mp mr mc].
  cbn [board possibilities minPossibilities minRow minCol newPuzzle] in Hw', Hp, Hm, Hv.
  injection Hm as -> -> ->. subst ps. unfold newPuzzle. f_equal.
  rewrite tabulate_getValue by exact Hw.
  apply board_ext; auto. intros r c Hr Hc. rewrite (Hv r c Hr Hc).
  destruct (boardText_tokens Hb' Hw Hd) as [_ Hrows].
  destruct (Hrows r Hr) as (_ & Hl9 & _ & Hcell).
  rewrite dropEmptyLast_full.
  - rewrite length_map, Hl9.
    now replace (c <? 9) with true by (symmetry; apply Nat.ltb_lt; lia).
  - intros t Ht. destruct (In_nth _ _ EmptyString Ht) as (k & Hk & <-).
    rewrite length_map, Hl9 in Hk. rewrite (Hcell k Hk).
    destruct (cellText_token Hb' (Hd r k Hr Hk)) as (_ & _ & _ & Hempty).
    intros E0. apply Hempty in E0. destruct E0 as [-> _].
    destruct Hb as [Hb|Hb]; discriminate.
Qed.

Lemma fromFile_reads_boardText_witness :
  fromFile (Some (boardText "0" fiftyAfterFirstPass)) sevens
  = Built (newPuzzle fiftyAfterFirstPass) [].
Proof.
  apply (@fromFile_reads_boardText "0" fiftyAfterFirstPass sevens).
  - left. reflexivity.
  - apply wfBoard_concrete. reflexivity.
  - apply wfBoard_concrete. reflexivity.
  - intros r c Hr Hc.
    do 9 (destruct r as [|r]; [do 9 (destruct c as [|c]; [vm_compute; intuition congruence|]); lia|]).
    lia.
Defined.

(** A blank cell written as nothing is read as 0 in the first eight
    columns only.  After the last comma of a line [getline] finds the end
    of the line and no token, so that the cell of the last column is not
    written: it holds what the storage held, and nothing is written to
    [cerr]. *)
Theorem fromFile_skips_empty_last_cell (b garbage : Board) :
  wfBoard b -> wfBoard garbage -> digitsOnly b ->
  exists pz,
    fromFile (Some (boardText EmptyString b)) garbage = Built pz [] /\
    forall r c, r < 9 -> c < 9 ->
      getValue (board pz) r c =
        if (c =? 8) && (getValue b r 8 =? 0)%Z
        then getValue garbage r 8 else getValue b r c.
Proof.
  intros Hw Hg Hd.
  assert (Hb : EmptyString = "0"%string \/ EmptyString = " "%string \/
               EmptyString = EmptyString) by tauto.
  destruct (fromFile_boardText Hb Hw Hg Hd) as (pz & E & _ & _ & _ & Hv).
  exists pz. split; [exact E|]. intros r c Hr Hc. rewrite (Hv r c Hr Hc).
  destruct (boardText_tokens Hb Hw Hd) as [_ Hrows].
  destruct (Hrows r Hr) as (_ & Hl9 & _ & Hcell).
  destruct (dropEmptyLast_nth (map (cellText EmptyString) (nth r b [])) c) as [D1 _].
  rewrite length_map, Hl9, (Hcell c Hc) in D1.
  destruct (cellText_token Hb (Hd r c Hr Hc)) as (_ & _ & _ & Hempty).
  destruct (Nat.eqb_spec c 8) as [->|Hne]; cbn [andb].
  - destruct (Z.eqb_spec (getValue b r 8) 0) as [E0|Hnz].
    + replace (8 <? _) with false; auto. symmetry. apply Nat.ltb_ge.
      apply Nat.nlt_ge. intros Hlt. apply D1 in Hlt. destruct Hlt as [_ Hlt].
      apply Hlt. split; auto. apply Hempty. auto.
    + replace (8 <? _) with true; auto. symmetry. apply Nat.ltb_lt.
      apply D1. split; auto. intros [_ E0]. apply Hempty in E0. tauto.
  - replace (c <? _) with true; auto. symmetry. apply Nat.ltb_lt.
    apply D1. split; auto. intros [E8 _]. lia.
Qed.

Lemma fromFile_skips_empty_last_cell_witness :
  exists pz,
    fromFile (Some (boardText EmptyString fiftyAfterFirstPass)) sevens = Built pz [] /\
    forall r c, r < 9 -> c < 9 ->
      getValue (board pz) r c =
        if (c =? 8) && (getValue fiftyAfterFirstPass r 8 =? 0)%Z
        then getValue sevens r 8 else getValue fiftyAfterFirstPass r c.
Proof.
  apply (@fromFile_skips_empty_last_cell fiftyAfterFirstPass sevens).
  - apply wfBoard_concrete. reflexivity.
  - apply wfBoard_concrete. reflexivity.
  - intros r c Hr Hc.
    do 9 (destruct r as [|r]; [do 9 (destruct c as [|c]; [vm_compute; intuition congruence|]); lia|]).
    lia.
Defined.
(** * A board with one blank cell *)

(** ** Counting a digit by rows, by columns and by boxes *)

Section Sums.

Variable a : nat -> nat -> nat.

Lemma sum_rows_columns :
  list_sum (map (fun i => list_sum (map (fun j => a i j) (seq 0 9))) (seq 0 9))
  = list_sum (map (fun j => list_sum (map (fun i => a i j) (seq 0 9))) (seq 0 9)).
Proof. simpl. lia. Qed.

Lemma sum_rows_boxes :
  list_sum (map (fun i => list_sum (map (fun j => a i j) (seq 0 9))) (seq 0 9))
  = list_sum (map (fun q => list_sum (map (fun k => a (k / 3 + 3 * (q / 3))
                                                     (k mod 3 + 3 * (q mod 3)))
                                          (seq 0 9)))
                  (seq 0 9)).
Proof. simpl. lia. Qed.

End Sums.

Lemma sum_all_but_one (f : nat -> nat) (n k : nat) :
  k < n -> (forall i, i < n -> i <> k -> f i = 1) ->
  list_sum (map f (seq 0 n)) + 1 = n + f k.
Proof.
  induction n as [|n IH]; intros Hk H; [lia|].
  rewrite seq_S, map_app, list_sum_app. simpl.
  destruct (Nat.eq_dec k n) as [->|Hne].
  - assert (E : list_sum (map f (seq 0 n)) = n).
    { clear IH Hk. induction n as [|m IHm]; auto.
      rewrite seq_S, map_app, list_sum_app. simpl.
      rewrite IHm by (intros i Hi Hne; apply H; lia).
      rewrite (H m) by lia. lia. }
    lia.
  - specialize (IH ltac:(lia) ltac:(intros i Hi Hik; apply H; lia)).
    rewrite (H n) by lia. lia.
Qed.

Lemma count_occ_map_sum (A : Type) (f : A -> Z) (d : Z) (l : list A) :
  count_occ Z.eq_dec (map f l) d
  = list_sum (map (fun x => if (f x =? d)%Z then 1 else 0) l).
Proof.
  induction l as [|x l IH]; simpl; auto.
  destruct (Z.eq_dec (f x) d) as [E|E], (Z.eqb_spec (f x) d); try contradiction; lia.
Qed.

(** ** Units that hold the nine digits *)

(** Nine different digits 1..9 are all of them, each once. *)
Lemma digits_once (l : list Z) (d : Z) :
  length l = 9 -> NoDup l -> (forall x, In x l -> (1 <= x <= 9)%Z) ->
  (1 <= d <= 9)%Z -> count_occ Z.eq_dec l d = 1.
Proof.
  intros Hlen Hnd Hr Hd.
  assert (Hin : In d l).
  { apply (@NoDup_length_incl _ l [1; 2; 3; 4; 5; 6; 7; 8; 9]%Z); auto.
    - rewrite Hlen. simpl. lia.
    - intros x Hx. specialize (Hr x Hx). simpl.
      assert (x = 1 \/ x = 2 \/ x = 3 \/ x = 4 \/ x = 5 \/ x = 6 \/ x = 7 \/
              x = 8 \/ x = 9)%Z by lia. intuition.
    - simpl.
      assert (d = 1 \/ d = 2 \/ d = 3 \/ d = 4 \/ d = 5 \/ d = 6 \/ d = 7 \/
              d = 8 \/ d = 9)%Z by lia. intuition. }
  apply (NoDup_count_occ' Z.eq_dec) ; auto.
Qed.

(** Fewer than nine values leave a digit out. *)
Lemma missing_digit (l : list Z) :
  length (filter nonZero l) < 9 ->
  exists w, (1 <= w <= 9)%Z /\ ~ In w l.
Proof.
  intros Hlen.
  destruct (Forall_Exists_dec (fun w => In w l) (fun w => in_dec Z.eq_dec w l)
              [1; 2; 3; 4; 5; 6; 7; 8; 9]%Z) as [Hall|Hex].
  - exfalso. rewrite Forall_forall in Hall.
    assert (Hincl : incl [1; 2; 3; 4; 5; 6; 7; 8; 9]%Z (filter nonZero l)).
    { intros x Hx. apply filter_In. split; [now apply Hall|].
      simpl in Hx. unfold nonZero. apply negb_true_iff, Z.eqb_neq.
      intuition lia. }
    apply NoDup_incl_length in Hincl.
    + simpl in Hincl. lia.
    + repeat (constructor; [simpl; intuition lia|]). constructor.
  - apply Exists_exists in Hex. destruct Hex as (w & Hw & Hn).
    exists w. split; auto. simpl in Hw. intuition lia.
Qed.

(** ** The digit for the blank cell *)

(** A 9x9 board without duplicates whose only blank cell is [(r, c)] can be
    completed: the digit that the row of the cell lacks is also the digit
    that its column and its box lack, since every other row, column and box
    holds each digit once. *)
Lemma one_blank_completion (g : Board) (r c : nat) :
  wfBoard g -> r < 9 -> c < 9 -> getValue g r c = 0%Z ->
  (forall i j, i < 9 -> j < 9 -> i <> r \/ j <> c -> (1 <= getValue g i j <= 9)%Z) ->
  noDuplicates g ->
  exists w, (1 <= w <= 9)%Z /\ noDuplicates (setValue g r c w).
Proof.
  intros Hw Hr Hc H0 Hdig (HR & HC & HB).
  (* a digit that row r lacks *)
  destruct (@missing_digit (map (fun j => getValue g r j) (seq 0 9))) as (w & Hw19 & Hrow).
  { pose proof (filter_length nonZero (map (fun j => getValue g r j) (seq 0 9))) as E.
    rewrite length_map, length_seq in E.
    assert (Hz : In 0%Z (filter (fun x => negb (nonZero x))
                           (map (fun j => getValue g r j) (seq 0 9)))).
    { apply filter_In. split; [|reflexivity].
      apply in_map_iff. exists c. split; auto. apply in_seq. lia. }
    destruct (filter (fun x => negb (nonZero x)) _); [destruct Hz|].
    cbn [length] in E. lia. }
  exists w. split; [exact Hw19|].
  set (a := fun i j => if (getValue g i j =? w)%Z then 1 else 0).
  (* the counts of w in the units *)
  assert (Rows : forall i, i < 9 -> i <> r ->
            list_sum (map (fun j => a i j) (seq 0 9)) = 1).
  { intros i Hi Hne. unfold a.
    rewrite <- (count_occ_map_sum (fun j => getValue g i j) w (seq 0 9)).
    apply digits_once; [now rewrite length_map, length_seq| | |exact Hw19].
    - apply NoDup_map_seq. intros j1 j2 Hj1 Hj2 Hj. apply (HR i Hi); auto.
      specialize (Hdig i j1 Hi Hj1 ltac:(lia)). lia.
    - apply (In_map_seq (fun j => getValue g i j) 9 (fun x => (1 <= x <= 9)%Z)).
      intros j Hj. apply Hdig; auto. }
  assert (Row0 : list_sum (map (fun j => a r j) (seq 0 9)) = 0).
  { unfold a. rewrite <- (count_occ_map_sum (fun j => getValue g r j) w (seq 0 9)).
    now apply count_occ_not_In. }
  assert (Cols : forall j, j < 9 -> j <> c ->
            list_sum (map (fun i => a i j) (seq 0 9)) = 1).
  { intros j Hj Hne. unfold a.
    rewrite <- (count_occ_map_sum (fun i => getValue g i j) w (seq 0 9)).
    apply digits_once; [now rewrite length_map, length_seq| | |exact Hw19].
    - apply NoDup_map_seq. intros i1 i2 Hi1 Hi2 Hi. apply (HC j Hj); auto.
      specialize (Hdig i1 j Hi1 Hj ltac:(lia)). lia.
    - apply (In_map_seq (fun i => getValue g i j) 9 (fun x => (1 <= x <= 9)%Z)).
      intros i Hi. apply Hdig; auto. }
  assert (Boxes : forall q, q < 9 -> q <> 3 * (r / 3) + c / 3 ->
            list_sum (map (fun k => a (k / 3 + 3 * (q / 3)) (k mod 3 + 3 * (q mod 3)))
                          (seq 0 9)) = 1).
  { intros q Hq Hne. unfold a.
    rewrite <- (count_occ_map_sum
                  (fun k => getValue g (k / 3 + 3 * (q / 3)) (k mod 3 + 3 * (q mod 3)))
                  w (seq 0 9)).
    apply digits_once; [now rewrite length_map, length_seq| | |exact Hw19].
    - apply NoDup_map_seq. intros k1 k2 Hk1 Hk2 Hk.
      apply (HB (q / 3) (q mod 3)); try dlia.
      assert (k1 / 3 + 3 * (q / 3) < 9 /\ k1 mod 3 + 3 * (q mod 3) < 9) as [A1 A2] by dlia.
      specialize (Hdig _ _ A1 A2 ltac:(dlia)). lia.
    - apply (In_map_seq
               (fun k => getValue g (k / 3 + 3 * (q / 3)) (k mod 3 + 3 * (q mod 3))) 9
               (fun x => (1 <= x <= 9)%Z)).
      intros k Hk. apply Hdig; dlia. }
  (* w stands in no unit of the cell *)
  pose proof (@sum_all_but_one (fun i => list_sum (map (fun j => a i j) (seq 0 9))) 9 r
                Hr Rows) as SR.
  pose proof (@sum_all_but_one (fun j => list_sum (map (fun i => a i j) (seq 0 9))) 9 c
                Hc Cols) as SC.
  pose proof (@sum_all_but_one
                (fun q => list_sum (map (fun k => a (k / 3 + 3 * (q / 3))
                                                   (k mod 3 + 3 * (q mod 3))) (seq 0 9)))
                9 (3 * (r / 3) + c / 3) ltac:(dlia) Boxes) as SB.
  cbv beta in SR, SC, SB.
  rewrite (sum_rows_columns a) in SR. rewrite Row0 in SR.
  pose proof (sum_rows_columns a) as E1. pose proof (sum_rows_boxes a) as E2.
  assert (Col0 : list_sum (map (fun i => a i c) (seq 0 9)) = 0) by lia.
  assert (Box0 : list_sum (map (fun k => a (k / 3 + 3 * ((3 * (r / 3) + c / 3) / 3))
                                          (k mod 3 + 3 * ((3 * (r / 3) + c / 3) mod 3)))
                               (seq 0 9)) = 0) by lia.
  replace ((3 * (r / 3) + c / 3) / 3) with (r / 3) in Box0 by dlia.
  replace ((3 * (r / 3) + c / 3) mod 3) with (c / 3) in Box0 by dlia.
  unfold a in Col0, Box0.
  rewrite <- (count_occ_map_sum (fun i => getValue g i c) w (seq 0 9)) in Col0.
  rewrite <- (count_occ_map_sum
                (fun k => getValue g (k / 3 + 3 * (r / 3)) (k mod 3 + 3 * (c / 3)))
                w (seq 0 9)) in Box0.
  apply count_occ_not_In in Col0, Box0.
  assert (Hfree : createsNoDuplicate g w r c).
  { intros r' c' (Hr' & Hc' & Hne & [->|[->|[E1' E2']]]) E.
    - apply Hrow. apply in_map_iff. exists c'. split; auto. apply in_seq. lia.
    - apply Col0. apply in_map_iff. exists r'. split; auto. apply in_seq. lia.
    - apply Box0. apply in_map_iff. exists (3 * (r' mod 3) + c' mod 3).
      split; [|apply in_seq; dlia].
      replace ((3 * (r' mod 3) + c' mod 3) / 3 + 3 * (r / 3)) with r' by dlia.
      replace ((3 * (r' mod 3) + c' mod 3) mod 3 + 3 * (c / 3)) with c' by dlia.
      exact E. }
  apply placement_noDuplicates; auto; [split; [|split]; assumption|].
  apply wouldWork_fst; auto.
  apply placement_units; auto; try lia. apply HB; dlia.
Qed.
(** * A true answer on a board without duplicates *)

(** ** What the checked writes keep *)

(** [solve] writes a value into a blank cell only after [wouldWork] has
    answered true for it on the board as it is.  A property of the board
    that such a write keeps is kept by a call that returns true, when the
    board has at most 50 blank cells. *)
Section Kept.

Variable Q : Board -> Prop.

Hypothesis Q_write : forall (b : Board) (v : Z) (r c : nat),
  wfBoard b -> r < 9 -> c < 9 -> getValue b r c = 0%Z -> Q b ->
  fst (wouldWork b v r c) = true -> Q (setValue b r c v).

Lemma trimCell_keeps (pz : SudokuPuzzle) (n : Z) (r c : nat) :
  puzzleInv pz -> r < 9 -> c < 9 -> Q (board pz) ->
  Q (board (stepPuzzle (trimCell pz n r c))).
Proof.
  intros Hinv Hr Hc HQ.
  destruct (trimCell_cases n Hinv Hr Hc) as [[Eg ->]|(s & Eg & Hcase)]; auto.
  cbv zeta in Hcase.
  destruct Hcase as [[Ek ->]|[(v & Ek & ->)|[Hlen ->]]]; simpl; auto.
  - assert (Hin : In v (workable (board pz) r c s)) by (rewrite Ek; now left).
    apply filter_In in Hin. destruct Hin as [Hin Hok].
    apply Q_write; auto; [apply (inv_board Hinv)|exact (inv_blank Hinv Hr Hc Eg)].
  - destruct (_ <? _)%Z; simpl; auto.
Qed.

Lemma trimCells_keeps (m : nat) : forall (k0 : nat) (pz : SudokuPuzzle) (n : Z),
  k0 + m <= 81 -> puzzleInv pz -> Q (board pz) ->
  Q (board (stepPuzzle (trimCells (map cellOfKey (seq k0 m)) pz n))).
Proof.
  induction m as [|m IH]; intros k0 pz n Hk Hinv HQ; [exact HQ|].
  rewrite trimCells_cons.
  destruct (@cellOfKey_range k0) as (Hr & Hc & _); [lia|].
  pose proof (trimCell_inv n Hinv Hr Hc) as H1.
  pose proof (trimCell_keeps n Hinv Hr Hc HQ) as H2.
  destruct (trimCell pz n (k0 / 9) (k0 mod 9)) as [pz'|pz' n']; simpl in *; auto.
  apply IH; auto. lia.
Qed.

Lemma trimPossibilities_keeps (pz : SudokuPuzzle) :
  puzzleInv pz -> Q (board pz) -> Q (board (snd (trimPossibilities pz))).
Proof.
  intros Hinv HQ. unfold trimPossibilities. rewrite allCells_keys.
  pose proof (@trimCells_keeps 81 0 (withMin pz 10 10 10) 0 ltac:(lia)
                (withMin_inv 10 10 10 Hinv) HQ) as H.
  destruct (trimCells _ _ _); exact H.
Qed.

Lemma whileLoop_keeps (subsolve : SudokuPuzzle -> Outcome) (iters : nat) :
  forall (pz : SudokuPuzzle) (prev : Z) (pz' : SudokuPuzzle),
  puzzleInv pz -> allTracked pz -> Q (board pz) ->
  (Z.of_nat (countSets (possibilities pz)) <= prev)%Z ->
  (forall spz spz', wfBoard (board spz) -> Q (board spz) ->
     countBlank (board spz) < countBlank (board pz) ->
     subsolve spz = Returns true spz' ->
     Q (board spz') /\ wfBoard (board spz') /\
     forall r c, r < 9 -> c < 9 -> getValue (board spz) r c <> 0%Z ->
       getValue (board spz') r c = getValue (board spz) r c) ->
  whileLoop iters subsolve pz prev = Returns true pz' ->
  Q (board pz').
Proof.
  induction iters as [|k IH]; intros pz prev pz' Hinv Ht HQ Hprev Hsub H;
    simpl in H; [discriminate|].
  pose proof (trimPossibilities_inv Hinv) as Hinv1.
  pose proof (trimPossibilities_tracked Hinv Ht) as Ht1.
  pose proof (trimPossibilities_blanks Hinv) as Hbl.
  pose proof (trimPossibilities_countSets Hinv) as Hcs.
  pose proof (trimPossibilities_keeps Hinv HQ) as HQ1.
  pose proof (trimPossibilities_min Hinv) as Hmin. cbv zeta in Hmin.
  pose proof (trimPossibilities_stalled Hinv Ht) as Hstall.
  destruct (trimPossibilities pz) as [n pz1]. cbn [fst snd] in *.
  destruct (Z.eqb_spec n (-1)); [discriminate|].
  destruct (Hcs ltac:(auto)) as [En Hle].
  destruct (Z.eqb_spec n 0) as [E0|Hn0]; [injection H as <-; exact HQ1|].
  destruct (Z.eqb_spec n prev) as [Ep|Hp].
  - destruct (Hmin ltac:(auto) ltac:(auto)) as (Hr & Hc & s & Es & _).
    rewrite Es in H. apply tryCandidates_true in H.
    destruct H as (before & v & after & solved & Esplit & _ & Hs & ->).
    assert (Hv : In v s) by (rewrite Esplit; apply in_or_app; right; now left).
    destruct (Hstall ltac:(auto) ltac:(lia)) as [Hb Hwork].
    pose proof (inv_board Hinv1) as Hw1.
    pose proof (inv_blank Hinv1 Hr Hc Es) as Hblank.
    destruct (subPuzzleFor_blanks v Hinv1 Hr Hc Es Hv) as [Hws Hlt].
    pose proof (@subPuzzleFor_board pz1 v Hw1) as Esub.
    assert (HQsub : Q (board (subPuzzleFor pz1 v))).
    { rewrite Esub. apply Q_write; auto. rewrite Hb. now apply (Hwork _ _ s). }
    destruct (Hsub (subPuzzleFor pz1 v) solved Hws HQsub ltac:(lia) Hs)
      as (HQs & Hwf & Hk).
    rewrite Esub in Hk. cbn [board withBoard].
    now rewrite (@copyBack_solved (board pz1) (board solved) (minRow pz1) (minCol pz1) v).
  - apply (IH pz1 n pz'); auto; try lia.
    intros spz spz' A1 A2 A3. apply Hsub; auto. lia.
Qed.

Lemma solve_keeps (iters : nat) (depth : nat) : forall pz pz' : SudokuPuzzle,
  wfBoard (board pz) -> Q (board pz) -> countBlank (board pz) <= 50 ->
  solve depth iters pz = Returns true pz' -> Q (board pz').
Proof.
  induction depth as [|d IH]; intros pz pz' Hw HQ H50 H; simpl in H; [discriminate|].
  destruct (setAllPossibilities_inv pz Hw) as [Hinv Ht].
  apply (@whileLoop_keeps (solve d iters) iters (setAllPossibilities pz) 50 pz'
           Hinv Ht) in H; auto.
  - rewrite <- (count_blank_sets Hinv Ht). simpl. lia.
  - intros spz spz' A1 A2 A3 A4. simpl in A3. split; [|split].
    + apply (IH spz spz'); auto. lia.
    + apply (@solve_fills iters d spz spz' A1 A4).
    + exact (@solve_clues_kept d iters spz spz' true A1 A4).
Qed.

End Kept.

(** ** The board without one of its cells *)

Lemma distinct_sub (b b' : Board) :
  (forall i j, i < 9 -> j < 9 -> getValue b i j <> 0%Z ->
     getValue b i j = getValue b' i j) ->
  (forall r, r < 9 -> rowDistinct b' r -> rowDistinct b r) /\
  (forall c, c < 9 -> colDistinct b' c -> colDistinct b c) /\
  (forall R C, R < 3 -> C < 3 -> boxDistinct b' R C -> boxDistinct b R C).
Proof.
  intros Hsub. split; [|split].
  - intros r Hr HR c1 c2 Hc1 Hc2 Hne Hnz.
    destruct (Z.eq_dec (getValue b r c2) 0) as [E|Hnz2]; [congruence|].
    rewrite (Hsub r c1), (Hsub r c2) by auto. apply HR; auto.
    rewrite <- Hsub; auto.
  - intros c Hc HC r1 r2 Hr1 Hr2 Hne Hnz.
    destruct (Z.eq_dec (getValue b r2 c) 0) as [E|Hnz2]; [congruence|].
    rewrite (Hsub r1 c), (Hsub r2 c) by auto. apply HC; auto.
    rewrite <- Hsub; auto.
  - intros R C HR' HC' HB r1 c1 r2 c2 E1 E2 E3 E4 Hne Hnz.
    assert (r1 < 9 /\ c1 < 9 /\ r2 < 9 /\ c2 < 9) as (Hr1 & Hc1 & Hr2 & Hc2) by dlia.
    destruct (Z.eq_dec (getValue b r2 c2) 0) as [E|Hnz2]; [congruence|].
    rewrite (Hsub r1 c1), (Hsub r2 c2) by auto. apply HB; auto.
    rewrite <- Hsub; auto.
Qed.

(** A checked write elsewhere keeps the board without the value of the
    cell [(r0, c0)] free of duplicates. *)
Lemma masked_write (r0 c0 : nat) (b : Board) (v : Z) (r c : nat) :
  r0 < 9 -> c0 < 9 -> wfBoard b -> r < 9 -> c < 9 -> getValue b r c = 0%Z ->
  getValue b r0 c0 <> 0%Z /\ noDuplicates (setValue b r0 c0 0) ->
  fst (wouldWork b v r c) = true ->
  getValue (setValue b r c v) r0 c0 <> 0%Z /\
  noDuplicates (setValue (setValue b r c v) r0 c0 0).
Proof.
  intros Hr0 Hc0 Hw Hr Hc H0 [Hnz Hnd] Hok.
  assert (Hne : r <> r0 \/ c <> c0).
  { destruct (cell_eq_dec r c r0 c0) as [[-> ->]|]; [contradiction|assumption]. }
  split; [now rewrite getValue_setValue_other|].
  assert (Ecomm : setValue (setValue b r c v) r0 c0 0
                  = setValue (setValue b r0 c0 0) r c v).
  { apply board_ext; auto using setValue_wf. intros i j Hi Hj.
    destruct (cell_eq_dec i j r0 c0) as [[-> ->]|N0].
    - rewrite getValue_setValue_same by auto using setValue_wf.
      rewrite getValue_setValue_other by auto.
      now rewrite getValue_setValue_same.
    - rewrite (@getValue_setValue_other (setValue b r c v) r0 c0 i j) by lia.
      destruct (cell_eq_dec i j r c) as [[-> ->]|N1].
      + now rewrite !getValue_setValue_same by auto using setValue_wf.
      + now rewrite !getValue_setValue_other by lia. }
  rewrite Ecomm. apply placement_noDuplicates; auto.
  apply wouldWork_fst; auto. apply wouldWork_fst in Hok; auto.
  destruct Hok as (R1 & C1 & B1). rewrite <- Ecomm.
  destruct (@distinct_sub (setValue (setValue b r c v) r0 c0 0) (setValue b r c v))
    as (SR & SC & SB).
  { intros i j Hi Hj. destruct (cell_eq_dec i j r0 c0) as [[-> ->]|N0].
    - rewrite getValue_setValue_same by auto using setValue_wf. congruence.
    - now rewrite getValue_setValue_other by lia. }
  split; [now apply SR|]. split; [now apply SC|]. apply SB; auto; dlia.
Qed.

(** ** A completion exists *)

Lemma whileLoop_has_completion (subsolve : SudokuPuzzle -> Outcome) (iters : nat) :
  (forall spz spz', wfBoard (board spz) -> noDuplicates (board spz) ->
     digitsOnly (board spz) -> subsolve spz = Returns true spz' ->
     exists full, validCompletion (board spz) full) ->
  (forall r c spz spz', r < 9 -> c < 9 -> wfBoard (board spz) ->
     digitsOnly (board spz) -> getValue (board spz) r c <> 0%Z ->
     noDuplicates (setValue (board spz) r c 0) -> countBlank (board spz) <= 50 ->
     subsolve spz = Returns true spz' ->
     wfBoard (board spz') /\ noDuplicates (setValue (board spz') r c 0) /\
     (forall i j, i < 9 -> j < 9 -> (1 <= getValue (board spz') i j <= 9)%Z) /\
     (forall i j, i < 9 -> j < 9 -> getValue (board spz) i j <> 0%Z ->
        getValue (board spz') i j = getValue (board spz) i j)) ->
  forall (pz : SudokuPuzzle) (prev : Z) (pz' : SudokuPuzzle),
  puzzleInv pz -> allTracked pz ->
  noDuplicates (board pz) -> digitsOnly (board pz) ->
  (Z.of_nat (countSets (possibilities pz)) <= prev)%Z \/ prev = 50%Z ->
  whileLoop iters subsolve pz prev = Returns true pz' ->
  exists full, validCompletion (board pz) full.
Proof.
  intros Hrec Hmask.
  induction iters as [|k IH]; intros pz prev pz' Hinv Ht Hnd Hdig Hprev H;
    simpl in H; [discriminate|].
  pose proof (trimPossibilities_inv Hinv) as Hinv1.
  pose proof (trimPossibilities_tracked Hinv Ht) as Ht1.
  pose proof (trimPossibilities_countSets Hinv) as Hcs.
  pose proof (trimPossibilities_valid Hinv) as [Hnd1 Hdig1].
  pose proof (fun r c => @trimPossibilities_clue pz r c Hinv) as Hclue.
  pose proof (trimPossibilities_min Hinv) as Hmin. cbv zeta in Hmin.
  pose proof (trimPossibilities_stalled Hinv Ht) as Hstall.
  destruct (trimPossibilities pz) as [n pz1]. cbn [fst snd] in *.
  specialize (Hnd1 Hnd). specialize (Hdig1 Hdig).
  destruct (Z.eqb_spec n (-1)); [discriminate|].
  destruct (Hcs ltac:(auto)) as [En Hle].
  pose proof (inv_board Hinv1) as Hw1.
  assert (Up : forall full, validCompletion (board pz1) full ->
            validCompletion (board pz) full).
  { intros full. apply validCompletion_trans. intros r c Hr Hc Hnz. now apply Hclue. }
  destruct (Z.eqb_spec n 0) as [E0|Hn0].
  - exists (board pz1). apply Up.
    split; [exact Hw1|]. split; [exact Hnd1|]. split; [|auto].
    intros r c Hr Hc. pose proof (Hdig1 r c Hr Hc).
    assert (getValue (board pz1) r c <> 0%Z); [|lia].
    apply countBlank_zero; auto. rewrite (count_blank_sets Hinv1 Ht1). lia.
  - destruct (Z.eqb_spec n prev) as [Ep|Hp].
    + destruct (Hmin ltac:(auto) ltac:(auto)) as (Hr & Hc & s & Es & _).
      rewrite Es in H. apply tryCandidates_true in H.
      destruct H as (before & v & after & solved & Esplit & _ & Hs & _).
      assert (Hv : In v s) by (rewrite Esplit; apply in_or_app; right; now left).
      pose proof (inv_blank Hinv1 Hr Hc Es) as Hblank.
      destruct (inv_digits Hinv1 Hr Hc Es) as [_ Hd]. specialize (Hd v Hv).
      destruct (subPuzzleFor_blanks v Hinv1 Hr Hc Es Hv) as [Hws Hlt].
      pose proof (@subPuzzleFor_board pz1 v Hw1) as Esub.
      assert (Hdsub : digitsOnly (board (subPuzzleFor pz1 v)))
        by (apply (subPuzzleFor_digits v Hinv1 Hr Hc Es Hv); auto).
      assert (Down : forall full, validCompletion (board (subPuzzleFor pz1 v)) full ->
                validCompletion (board pz1) full).
      { intros full. apply validCompletion_trans. intros i j Hi Hj Hnz. rewrite Esub.
        apply getValue_setValue_other.
        destruct (cell_eq_dec (minRow pz1) (minCol pz1) i j) as [[? ?]|]; auto.
        subst. contradiction. }
      destruct Hprev as [Hprev|Hprev].
      * (* the pass wrote nothing: the candidate is workable *)
        destruct (Hstall ltac:(auto) ltac:(lia)) as [Hb Hwork].
        assert (Hndsub : noDuplicates (board (subPuzzleFor pz1 v))).
        { rewrite Esub. apply placement_noDuplicates; auto.
          rewrite Hb. now apply (Hwork _ _ s). }
        destruct (Hrec (subPuzzleFor pz1 v) solved Hws Hndsub Hdsub Hs) as [full Hfull].
        exists full. auto.
      * (* the first pass returned 50 *)
        assert (H50 : countBlank (board pz1) = 50)
          by (rewrite (count_blank_sets Hinv1 Ht1); lia).
        assert (Hvnz : getValue (board (subPuzzleFor pz1 v)) (minRow pz1) (minCol pz1)
                       <> 0%Z)
          by (rewrite Esub, getValue_setValue_same by auto; lia).
        assert (Hm : noDuplicates (setValue (board (subPuzzleFor pz1 v))
                                     (minRow pz1) (minCol pz1) 0)).
        { rewrite Esub.
          pose proof (@setValue_restore (board pz1) (minRow pz1) (minCol pz1) v
                        Hw1 Hr Hc) as Erest.
          rewrite Hblank in Erest. now rewrite Erest. }
        destruct (Hmask (minRow pz1) (minCol pz1) (subPuzzleFor pz1 v) solved
                    Hr Hc Hws Hdsub Hvnz Hm ltac:(lia) Hs) as (Hwf & Hndf & Hdf & Hkf).
        -- destruct (@one_blank_completion
                       (setValue (board solved) (minRow pz1) (minCol pz1) 0)
                       (minRow pz1) (minCol pz1)) as (w & Hw19 & Hndw);
             auto using setValue_wf.
           ++ now apply getValue_setValue_same.
           ++ intros i j Hi Hj Hne. rewrite getValue_setValue_other by lia. auto.
           ++ exists (setValue (setValue (board solved) (minRow pz1) (minCol pz1) 0)
                        (minRow pz1) (minCol pz1) w).
              apply Up. split; [auto using setValue_wf|]. split; [exact Hndw|].
              split.
              ** intros i j Hi Hj.
                 destruct (cell_eq_dec i j (minRow pz1) (minCol pz1)) as [[-> ->]|Hne].
                 --- rewrite getValue_setValue_same by auto using setValue_wf. exact Hw19.
                 --- rewrite !getValue_setValue_other by lia. auto.
              ** intros i j Hi Hj Hnz.
                 assert (Hne : minRow pz1 <> i \/ minCol pz1 <> j).
                 { destruct (cell_eq_dec (minRow pz1) (minCol pz1) i j) as [[? ?]|]; auto.
                   subst. contradiction. }
                 rewrite !getValue_setValue_other by lia.
                 assert (Esb : getValue (board (subPuzzleFor pz1 v)) i j
                               = getValue (board pz1) i j)
                   by (rewrite Esub; now apply getValue_setValue_other).
                 rewrite (Hkf i j Hi Hj) by (rewrite Esb; exact Hnz). exact Esb.
    + destruct (IH pz1 n pz' Hinv1 Ht1 Hnd1 Hdig1 ltac:(left; lia) H) as [full Hfull].
      exists full. auto.
Qed.

Lemma solve_has_completion (iters : nat) (depth : nat) : forall pz pz' : SudokuPuzzle,
  wfBoard (board pz) -> noDuplicates (board pz) -> digitsOnly (board pz) ->
  solve depth iters pz = Returns true pz' ->
  exists full, validCompletion (board pz) full.
Proof.
  induction depth as [|d IH]; intros pz pz' Hw Hnd Hdig H; simpl in H; [discriminate|].
  destruct (setAllPossibilities_inv pz Hw) as [Hinv Ht].
  apply (@whileLoop_has_completion (solve d iters) iters) with
    (pz := setAllPossibilities pz) (prev := 50%Z) (pz' := pz'); auto.
  intros r c spz spz' Hr Hc Hws Hds Hnz Hm H50 Hs.
  destruct (@solve_fills iters d spz spz' Hws Hs) as (Hwf & Hfull & Hdf).
  pose proof (@solve_clues_kept d iters spz spz' true Hws Hs) as Hk.
  assert (HQ : getValue (board spz') r c <> 0%Z /\
               noDuplicates (setValue (board spz') r c 0)).
  { apply (@solve_keeps (fun b => getValue b r c <> 0%Z /\ noDuplicates (setValue b r c 0))
             (fun b v r' c' A1 A2 A3 A4 A5 A6 =>
                @masked_write r c b v r' c' Hr Hc A1 A2 A3 A4 A5 A6)
             iters d spz spz'); auto. }
  split; [exact Hwf|]. split; [apply HQ|]. split; [|exact Hk].
  intros i j Hi Hj. specialize (Hdf Hds i j Hi Hj).
  assert (getValue (board spz') i j <> 0%Z) by now apply countBlank_zero. lia.
Qed.
(** * Running to completion *)

(** C6, as the code has it.  [solve] returns for every 9x9 board: a nesting
    of calls one deeper than the number of blank cells (at most 82, the
    first call and 81 below it) and 83 passes per call are enough, because
    every sub-puzzle has fewer blank cells than the board it was cloned
    from.  [solve] looks at the units of blank cells only: a board without
    blank cells is reported solved as it is.  When the board holds no
    duplicate and only 0..9, a true answer means that the board has a valid
    completion, whatever the number of blank cells; so for such a board
    without a valid completion [solve] returns false.  With at most 50
    blank cells the completion is the board that [solve] leaves. *)
Theorem solve_runs_to_completion (pz : SudokuPuzzle) (depth iters : nat) :
  wfBoard (board pz) -> countBlank (board pz) < depth -> 83 <= iters ->
  (exists res pz', solve depth iters pz = Returns res pz') /\
  countBlank (board pz) <= 81 /\
  (forall p s v, puzzleInv p -> minRow p < 9 -> minCol p < 9 ->
     getPoss (possibilities p) (minRow p) (minCol p) = Some s -> In v s ->
     countBlank (board (subPuzzleFor p v)) < countBlank (board p)) /\
  (countBlank (board pz) = 0 ->
   exists pz', solve depth iters pz = Returns true pz' /\ board pz' = board pz) /\
  (noDuplicates (board pz) -> digitsOnly (board pz) ->
   (forall pz', solve depth iters pz = Returns true pz' ->
      (exists full, validCompletion (board pz) full) /\
      (countBlank (board pz) <= 50 -> validCompletion (board pz) (board pz'))) /\
   ((forall full, ~ validCompletion (board pz) full) ->
      exists pz', solve depth iters pz = Returns false pz')).
Proof.
  intros Hw Hd Hi. split; [|split; [|split; [|split]]].
  - now apply solve_returns.
  - apply countBlank_le_81.
  - intros p s v Hinv Hr Hc Es Hv. now apply (subPuzzleFor_blanks v Hinv Hr Hc Es).
  - intros H0. apply solve_full_board; auto; lia.
  - intros Hnd Hdig. split.
    + intros pz' H. split.
      * exact (@solve_has_completion iters depth pz pz' Hw Hnd Hdig H).
      * intros H50. now apply (solve_sound iters depth).
    + intros Hnone. destruct (@solve_returns iters depth pz Hw Hd Hi) as (res & pz' & H).
      destruct res; [|eauto]. exfalso.
      destruct (@solve_has_completion iters depth pz pz' Hw Hnd Hdig H) as [full Hfull].
      exact (Hnone full Hfull).
Qed.

Lemma solve_runs_to_completion_witness :
  exists res pz', solve 82 83 (newPuzzle forcedThenStuck) = Returns res pz'.
Proof.
  apply (@solve_runs_to_completion (newPuzzle forcedThenStuck) 82 83).
  - apply tabulate_wf.
  - vm_compute. lia.
  - lia.
Defined.

(** C6 as stated fails for boards whose clues already clash: [solve] only
    looks at the units of blank cells.  [puzzle1] has no blank cell and
    repeats in every box, so it has no valid completion; [solve] makes no
    candidate set, the first pass returns 0 and [solve] returns true with
    the board as it was. *)
Lemma solve_true_without_completion :
  wfBoard puzzle1 /\ digitsOnly puzzle1 /\
  (forall full, ~ validCompletion puzzle1 full) /\
  exists pz', solve 82 83 (newPuzzle puzzle1) = Returns true pz' /\
              board pz' = puzzle1.
Proof.
  assert (Hw : wfBoard puzzle1) by (apply wfBoard_concrete; reflexivity).
  assert (Hfull : forall r c, r < 9 -> c < 9 -> getValue puzzle1 r c <> 0%Z)
    by (intros r c; now apply countBlank_zero).
  split; auto. split; [|split].
  - intros r c Hr Hc.
    do 9 (destruct r as [|r]; [do 9 (destruct c as [|c]; [vm_compute; split; discriminate|]); lia|]).
    lia.
  - intros full (Hwf & (_ & _ & Hboxes) & _ & Hext).
    assert (E : full = puzzle1).
    { apply board_ext; auto. }
    subst full. apply boxesOk_spec in Hboxes. vm_compute in Hboxes. discriminate.
  - eexists. split; vm_compute; reflexivity.
Qed.

(** * One pass of [trimPossibilities] *)

(** The values of a set that [wouldWork] accepts at a cell are those with
    which the row, the column and the box of the cell hold no duplicate. *)
Lemma workable_spec (bv : Board) (r c : nat) (s : IntSet) (v : Z) :
  r < 9 -> c < 9 ->
  In v (workable bv r c s) <->
  In v s /\ rowDistinct (setValue bv r c v) r /\
  colDistinct (setValue bv r c v) c /\
  boxDistinct (setValue bv r c v) (r / 3) (c / 3).
Proof.
  intros Hr Hc. unfold workable. rewrite filter_In.
  now rewrite (wouldWork_fst bv v Hr Hc).
Qed.

(** At a blank cell whose three units hold no duplicate, they are the values
    that no other cell of these units holds. *)
Lemma workable_consistent (bv : Board) (r c : nat) (s : IntSet) (v : Z) :
  wfBoard bv -> r < 9 -> c < 9 -> getValue bv r c = 0%Z -> candidateSet s ->
  rowDistinct bv r -> colDistinct bv c -> boxDistinct bv (r / 3) (c / 3) ->
  In v (workable bv r c s) <-> In v s /\ createsNoDuplicate bv v r c.
Proof.
  intros Hw Hr Hc H0 [_ Hs] HR HC HB. rewrite workable_spec by auto.
  split; intros [Hin H]; split; auto.
  - apply placement_units in H; auto. specialize (Hs v Hin). lia.
  - apply placement_units; auto. specialize (Hs v Hin). lia.
Qed.

(** The board as the loops find it at a cell holds no duplicate when the
    board that the pass leaves holds none. *)
Lemma visitBoard_noDuplicates (b b' bv : Board) (k : nat) :
  visitBoard b b' bv k ->
  (forall r c, r < 9 -> c < 9 -> getValue b r c <> 0%Z ->
     getValue b' r c = getValue b r c) ->
  noDuplicates b' -> noDuplicates bv.
Proof.
  intros [_ Hbv] Hclue Hnd. apply (@noDuplicates_sub bv b' Hnd).
  intros r c Hr Hc. rewrite (Hbv r c Hr Hc).
  destruct (key r c <? k); auto. intros Hnz. symmetry. now apply Hclue.
Qed.

(** C1, as the code has it: one pass of [trimPossibilities] over an object
    whose candidate sets stand exactly at the blank cells.  At every cell
    with a set the loops keep the values that [wouldWork] accepts on the
    board as they find it there, the cells before it already holding what
    the pass wrote: the values with which the row, the column and the box
    of the cell hold no duplicate.  When these three units hold no duplicate
    on that board, they are the values that no other cell of the units
    holds; this is so at every cell when the board given to the pass holds
    no duplicate.  A set left with one value is deleted and the value
    written into the cell; a set left empty ends the pass at once with -1;
    otherwise candidate sets stand again exactly at the blank cells, and
    the int returned is the number of blank cells. *)
Theorem trimPossibilities_pass (pz : SudokuPuzzle) :
  puzzleInv pz -> allTracked pz ->
  let n := fst (trimPossibilities pz) in
  let pz' := snd (trimPossibilities pz) in
  let tested bv r c s :=
    getValue bv r c = 0%Z /\
    (noDuplicates (board pz) -> noDuplicates bv) /\
    (forall v, In v (workable bv r c s) <->
       In v s /\ rowDistinct (setValue bv r c v) r /\
       colDistinct (setValue bv r c v) c /\
       boxDistinct (setValue bv r c v) (r / 3) (c / 3)) /\
    (rowDistinct bv r -> colDistinct bv c -> boxDistinct bv (r / 3) (c / 3) ->
     forall v, In v (workable bv r c s) <-> In v s /\ createsNoDuplicate bv v r c) in
  let visited r c :=
    exists bv, visitBoard (board pz) (board pz') bv (key r c) /\
      (forall s, getPoss (possibilities pz) r c = Some s -> tested bv r c s) /\
      cellOutcome bv r c (getPoss (possibilities pz) r c)
        (getPoss (possibilities pz') r c) (getValue (board pz') r c) in
  (n = (-1)%Z /\
   exists r c, r < 9 /\ c < 9 /\
     (forall i j, i < 9 -> j < 9 -> key i j < key r c -> visited i j) /\
     exists s, getPoss (possibilities pz) r c = Some s /\
               tested (board pz') r c s /\
               workable (board pz') r c s = [] /\
               getPoss (possibilities pz') r c = Some [])
  \/
  (n = Z.of_nat (countBlank (board pz')) /\
   (forall r c, r < 9 -> c < 9 -> visited r c) /\
   puzzleInv pz' /\ allTracked pz').
Proof.
  intros Hinv Ht. cbv zeta.
  pose proof (trimPossibilities_inv Hinv) as Hinv'.
  pose proof (trimPossibilities_valid Hinv) as [Hvalid _].
  pose proof (fun r c => @trimPossibilities_clue pz r c Hinv) as Hclue.
  assert (Tested : forall bv r c s, wfBoard bv -> r < 9 -> c < 9 ->
            getValue bv r c = 0%Z -> candidateSet s ->
            (noDuplicates (board pz) -> noDuplicates bv) ->
            getValue bv r c = 0%Z /\
            (noDuplicates (board pz) -> noDuplicates bv) /\
            (forall v, In v (workable bv r c s) <->
               In v s /\ rowDistinct (setValue bv r c v) r /\
               colDistinct (setValue bv r c v) c /\
               boxDistinct (setValue bv r c v) (r / 3) (c / 3)) /\
            (rowDistinct bv r -> colDistinct bv c -> boxDistinct bv (r / 3) (c / 3) ->
             forall v, In v (workable bv r c s) <->
                       In v s /\ createsNoDuplicate bv v r c)).
  { intros bv r c s Hw Hr Hc H0 Hs Hnd. split; [exact H0|]. split; [exact Hnd|].
    split; [intros v; now apply workable_spec|].
    intros HR HC HB v. now apply workable_consistent. }
  assert (Visited : forall r c, r < 9 -> c < 9 ->
            (exists bv,
               visitBoard (board pz) (board (snd (trimPossibilities pz))) bv (key r c) /\
               cellOutcome bv r c (getPoss (possibilities pz) r c)
                 (getPoss (possibilities (snd (trimPossibilities pz))) r c)
                 (getValue (board (snd (trimPossibilities pz))) r c)) ->
            exists bv,
              visitBoard (board pz) (board (snd (trimPossibilities pz))) bv (key r c) /\
              (forall s, getPoss (possibilities pz) r c = Some s ->
                 getValue bv r c = 0%Z /\
                 (noDuplicates (board pz) -> noDuplicates bv) /\
                 (forall v, In v (workable bv r c s) <->
                    In v s /\ rowDistinct (setValue bv r c v) r /\
                    colDistinct (setValue bv r c v) c /\
                    boxDistinct (setValue bv r c v) (r / 3) (c / 3)) /\
                 (rowDistinct bv r -> colDistinct bv c ->
                  boxDistinct bv (r / 3) (c / 3) ->
                  forall v, In v (workable bv r c s) <->
                            In v s /\ createsNoDuplicate bv v r c)) /\
              cellOutcome bv r c (getPoss (possibilities pz) r c)
                (getPoss (possibilities (snd (trimPossibilities pz))) r c)
                (getValue (board (snd (trimPossibilities pz))) r c)).
  { intros r c Hr Hc (bv & Hbv & Hout). exists bv. split; [exact Hbv|].
    split; [|exact Hout]. intros s Es. pose proof Hbv as [Hwbv Hval].
    apply Tested; auto.
    - rewrite (Hval r c Hr Hc), Nat.ltb_irrefl. exact (inv_blank Hinv Hr Hc Es).
    - exact (inv_digits Hinv Hr Hc Es).
    - intros Hnd. apply (visitBoard_noDuplicates Hbv); auto. }
  destruct (trimPossibilities_outcomes Hinv Ht)
    as [(En & r & c & Hr & Hc & Hbefore & s & Es & Ew & Ep)|(En & Hall & Hi & Ha)];
    cbv zeta in *.
  - left. split; [exact En|]. exists r, c. split; [exact Hr|]. split; [exact Hc|].
    split; [intros i j Hi Hj Hlt; apply Visited; auto|].
    exists s. split; [exact Es|]. split; [|split; [exact Ew|exact Ep]].
    apply Tested; auto.
    + apply (inv_board Hinv').
    + exact (inv_blank Hinv' Hr Hc Ep).
    + exact (inv_digits Hinv Hr Hc Es).
  - right. split; [exact En|]. split; [|split; [exact Hi|exact Ha]].
    intros r c Hr Hc. apply Visited; auto.
Qed.

Lemma trimPossibilities_pass_witness :
  let pz := setAllPossibilities (newPuzzle forcedThenStuck) in
  let n := fst (trimPossibilities pz) in
  let pz' := snd (trimPossibilities pz) in
  let tested bv r c s :=
    getValue bv r c = 0%Z /\
    (noDuplicates (board pz) -> noDuplicates bv) /\
    (forall v, In v (workable bv r c s) <->
       In v s /\ rowDistinct (setValue bv r c v) r /\
       colDistinct (setValue bv r c v) c /\
       boxDistinct (setValue bv r c v) (r / 3) (c / 3)) /\
    (rowDistinct bv r -> colDistinct bv c -> boxDistinct bv (r / 3) (c / 3) ->
     forall v, In v (workable bv r c s) <-> In v s /\ createsNoDuplicate bv v r c) in
  let visited r c :=
    exists bv, visitBoard (board pz) (board pz') bv (key r c) /\
      (forall s, getPoss (possibilities pz) r c = Some s -> tested bv r c s) /\
      cellOutcome bv r c (getPoss (possibilities pz) r c)
        (getPoss (possibilities pz') r c) (getValue (board pz') r c) in
  (n = (-1)%Z /\
   exists r c, r < 9 /\ c < 9 /\
     (forall i j, i < 9 -> j < 9 -> key i j < key r c -> visited i j) /\
     exists s, getPoss (possibilities pz) r c = Some s /\
               tested (board pz') r c s /\
               workable (board pz') r c s = [] /\
               getPoss (possibilities pz') r c = Some [])
  \/
  (n = Z.of_nat (countBlank (board pz')) /\
   (forall r c, r < 9 -> c < 9 -> visited r c) /\
   puzzleInv pz' /\ allTracked pz').
Proof.
  apply (@trimPossibilities_pass (setAllPossibilities (newPuzzle forcedThenStuck))).
  - apply setAllPossibilities_inv. apply tabulate_wf.
  - apply setAllPossibilities_inv. apply tabulate_wf.
Defined.

(** C1 as stated fails on a board whose given values clash.  On
    [repeatInRow] the candidate sets are initialised, no cell holds 1, and
    no other cell of the row, the column or the box of (0,0) holds any of
    1, 2, 3, 4, 6, 7, 8, 9: placing one of them at (0,0) creates no
    duplicate.  The pass still removes them all from the set of (0,0),
    because the check of row 0 meets the two 5s, and returns -1. *)
Lemma trimPossibilities_erases_consistent_values :
  let pz := setAllPossibilities (newPuzzle repeatInRow) in
  puzzleInv pz /\ allTracked pz /\ board pz = repeatInRow /\
  getPoss (possibilities pz) 0 0 = Some [1; 2; 3; 4; 5; 6; 7; 8; 9]%Z /\
  (forall v, In v [1; 2; 3; 4; 6; 7; 8; 9]%Z -> createsNoDuplicate repeatInRow v 0 0) /\
  fst (trimPossibilities pz) = (-1)%Z /\
  getPoss (possibilities (snd (trimPossibilities pz))) 0 0 = Some [] /\
  board (snd (trimPossibilities pz)) = repeatInRow.
Proof.
  cbv zeta.
  destruct (setAllPossibilities_inv (newPuzzle repeatInRow) (tabulate_wf _)) as [Hinv Ht].
  split; [exact Hinv|]. split; [exact Ht|]. split; [reflexivity|].
  split; [reflexivity|]. split; [|split; [|split]]; try (vm_compute; reflexivity).
  intros v Hv. apply createsNoDuplicateb_spec. simpl in Hv.
  repeat (destruct Hv as [<-|Hv]; [reflexivity|]). destruct Hv.
Qed.

